(** * SALib: Latin hypercube and radial OAT samplers, Jansen total-effect estimator

    A shallow embedding of

    - [SALib/analyze/sobol_jansen.py]  ([analyze],
      [compute_radial_si_confidence], [jansen_estimator]),
    - [SALib/sample/radial.py]         ([sample]),
    - [SALib/sample/latin.py]          ([sample]).

    Conventions of the embedding.

    - A float64 that holds a finite value is a rational ([Q]).  Sums,
      products and quotients of the estimator are exact: the identities the
      code computes are stated up to rounding.  Where a rounding decides a
      comparison it is modelled, by [Float64.round64]: in the argument of
      [norm.ppf] and in the linear scaling of the samplers.  Overflow and
      underflow are not modelled.  The non-finite values ([inf], [nan]) are
      the single value [NonFin].
    - Python exceptions are values of [Py.exn]; a call that raises returns
      [Py.Raise e] and no result.
    - numpy's process-wide generator ([np.random]) is an explicit state that
      every drawing function takes and returns.
    - numpy, scipy and the collaborators of the samplers that the three files
      import are interfaces (type classes); the theorems hold for every
      implementation that satisfies the stated laws.  [SALib.util]'s linear
      scaling is modelled from its description.
    - [Store] embeds [analyze] a second time, over a store of Python
      objects with views and allocation, to state what the call writes; it
      is proved to compute what the functional embedding computes.

    The theorems marked C1 to C10 are the properties of the specification,
    in its numbering. *)

From Stdlib Require Import String.
From Stdlib Require Import List ZArith QArith Qpower Qround Qabs Lia Lqa Bool
  Permutation.
Import ListNotations.

(** ** Python results and exceptions *)

Module Py.

Inductive exn : Type :=
| AssertionError
| ZeroDivisionError
| AttributeError
| ValueError
| IndexError
| KeyError
| TypeError.

Inductive result (A : Type) : Type :=
| Ok (a : A)
| Raise (e : exn).

Arguments Ok {A} a.
Arguments Raise {A} e.

(** [if seed:] on an [Optional[int]]: [None] and [0] are falsy. *)
Definition truthy (seed : option Z) : bool :=
  match seed with
  | Some z => negb (z =? 0)%Z
  | None => false
  end.

End Py.
Import Py.

(** ** float64 values *)

Inductive float64 : Type :=
| Fin (q : Q)
| NonFin.

(** Equality of floats up to the representation of the rational. *)
Definition feq (x y : float64) : Prop :=
  match x, y with
  | Fin a, Fin b => a == b
  | NonFin, NonFin => True
  | _, _ => False
  end.

(** [0 <= x] holds of finite non-negative values; it is not granted to the
    non-finite value, which may be a [nan]. *)
Definition fnonneg (x : float64) : Prop :=
  match x with
  | Fin a => 0 <= a
  | NonFin => False
  end.

(** [x] is not a finite value below zero. *)
Definition fnot_negative (x : float64) : Prop :=
  match x with
  | Fin a => 0 <= a
  | NonFin => True
  end.

(** [x / y] on float64 arrays: dividing by zero does not raise, it yields a
    non-finite value. *)
Definition np_true_divide (x y : float64) : float64 :=
  match x, y with
  | Fin a, Fin b => if Qeq_bool b 0 then NonFin else Fin (a / b)
  | _, _ => NonFin
  end.

Definition np_multiply (x y : float64) : float64 :=
  match x, y with
  | Fin a, Fin b => Fin (a * b)
  | _, _ => NonFin
  end.

Definition Qlt_bool (x y : Q) : bool := negb (Qle_bool y x).

(** ** Rounding to binary64

    The value a float64 operation returns is the exact result rounded to the
    nearest number with 53 significant bits, ties to the one with an even
    significand.  The range of the exponent is not modelled. *)

Module Float64.

(** The nearest integer, ties to the even one. *)
Definition round_half_even (x : Q) : Z :=
  let f := Qfloor x in
  let r := x - inject_Z f in
  if Qlt_bool r (1 # 2) then f
  else if Qlt_bool (1 # 2) r then (f + 1)%Z
  else if Z.even f then f else (f + 1)%Z.

Definition pow2 (e : Z) : Q := 2 ^ e.

(** [floor (log2 |x|)] for [x] other than zero: the difference of the bit
    lengths of numerator and denominator, or one less. *)
Definition exponent (x : Q) : Z :=
  let e0 := (Z.log2 (Z.abs (Qnum x)) - Z.log2 (Zpos (Qden x)))%Z in
  if Qle_bool (pow2 e0) (Qabs x) then e0 else (e0 - 1)%Z.

Definition round64 (x : Q) : Q :=
  if Qeq_bool x 0 then 0
  else
    let k := (exponent x - 52)%Z in
    inject_Z (round_half_even (x / pow2 k)) * pow2 k.

End Float64.

(** ** numpy arrays as lists *)

Module Np.

Definition Qsum (l : list Q) : Q := fold_right Qplus 0 l.

(** Elementwise binary operation on two arrays of one shape. *)
Fixpoint map2 {A B C : Type} (f : A -> B -> C) (l1 : list A) (l2 : list B)
  : list C :=
  match l1, l2 with
  | x :: t1, y :: t2 => f x y :: map2 f t1 t2
  | _, _ => []
  end.

(** [l[start::step]] for [step >= 1]: [wait] counts the elements still to be
    skipped before the next one is taken. *)
Fixpoint every_nth {A : Type} (wait step : nat) (l : list A) : list A :=
  match l with
  | [] => []
  | x :: t =>
      match wait with
      | O => x :: every_nth (step - 1) step t
      | S w => every_nth w step t
      end
  end.

Definition slice_step {A : Type} (start step : nat) (l : list A) : list A :=
  every_nth start step l.

(** [np.var(a)]: numpy's default [ddof = 0]; the mean of an empty array is
    [nan]. *)
Definition np_mean (a : list Q) : Q := Qsum a / inject_Z (Z.of_nat (length a)).

Definition sq_dev (a : list Q) : Q :=
  Qsum (map (fun x => (x - np_mean a) ^ 2) a).

Definition np_var (a : list Q) : float64 :=
  match a with
  | [] => NonFin
  | _ => Fin (sq_dev a / inject_Z (Z.of_nat (length a)))
  end.

(** Two-dimensional arrays carry their shape, as [ndarray.shape] does. *)
Record array2 : Type := mkArray2 {
  shape0 : nat;
  shape1 : nat;
  rows : list (list Q)
}.

(** [a.T] *)
Definition T (a : array2) : array2 :=
  {| shape0 := shape1 a;
     shape1 := shape0 a;
     rows := map (fun k => map (fun r => nth k r 0) (rows a))
                 (seq 0 (shape1 a)) |}.

(** Arrays of any rank: what [np.sum(..., axis=0)], [**] and the product by
    a scalar need from the items of the outermost axis. *)
Class NdArray (A : Type) : Type := {
  nd_shape : Type;
  nd_zeros : nd_shape -> A;
  nd_add : A -> A -> A;
  nd_map : (Q -> Q) -> A -> A
}.

#[export] Instance nd_scalar : NdArray Q := {
  nd_shape := unit;
  nd_zeros := fun _ => 0;
  nd_add := Qplus;
  nd_map := fun f x => f x
}.

#[export] Instance nd_axis {A : Type} {ND : NdArray A} : NdArray (list A) := {
  nd_shape := (nat * @nd_shape A ND)%type;
  nd_zeros := fun sh => repeat (nd_zeros (snd sh)) (fst sh);
  nd_add := map2 nd_add;
  nd_map := fun f => map (nd_map f)
}.

(** [np.sum(a, axis=0)] of an array whose items have shape [sh]. *)
Definition sum_axis0 {A : Type} {ND : NdArray A} (sh : nd_shape) (a : list A)
  : A :=
  fold_right nd_add (nd_zeros sh) a.

(** The values of a column when all of them are finite. *)
Definition all_finite (col : list float64) : option (list Q) :=
  fold_right (fun x acc =>
                match x, acc with
                | Fin q, Some l => Some (q :: l)
                | _, _ => None
                end) (Some []) col.

End Np.
Import Np.

(** ** External interfaces

    [np.random] (the legacy global generator), and the two special functions
    the estimator calls: [sqrt] inside [ndarray.std] and
    [scipy.stats.norm.ppf]. *)

Class RandomState : Type := {
  rng : Type;
  (** the state [np.random.seed(s)] installs; it depends on [s] alone *)
  seed_state : Z -> rng;
  (** one draw of [np.random.randint(high)] *)
  randint : nat -> rng -> nat * rng;
  (** [np.random.uniform(low, high)] *)
  uniform : Q -> Q -> rng -> Q * rng;
  (** [np.random.shuffle(a)], returning the shuffled array *)
  shuffle : list Q -> rng -> list Q * rng
}.

Class RandomStateLaws (RS : RandomState) : Prop := {
  randint_range : forall high g,
    (0 < high)%nat -> (fst (randint high g) < high)%nat;
  (** numpy computes [low + (high - low) * random_sample()] in float64:
      the upper limit is not excluded *)
  uniform_range : forall low high g,
    low <= high ->
    low <= fst (uniform low high g) /\ fst (uniform low high g) <= high;
  shuffle_perm : forall l g, Permutation l (fst (shuffle l g))
}.

Class Special : Type := {
  np_sqrt : Q -> Q;
  norm_ppf : Q -> Q
}.


(** ** Computations that draw from the global generator and may raise *)

Module Rand.
Section WithRandomState.
Context {RS : RandomState}.

Definition M (A : Type) : Type := rng -> result A * rng.

Definition ret {A : Type} (a : A) : M A := fun g => (Ok a, g).

Definition raise {A : Type} (e : exn) : M A := fun g => (Raise e, g).

Definition lift {A : Type} (r : result A) : M A := fun g => (r, g).

Definition bind {A B : Type} (m : M A) (k : A -> M B) : M B :=
  fun g =>
    match m g with
    | (Ok a, g') => k a g'
    | (Raise e, g') => (Raise e, g')
    end.

(** [np.random.seed(s)]: numpy accepts [0 <= s < 2**32] and raises
    [ValueError] otherwise. *)
Definition seed (s : Z) : M unit :=
  fun g =>
    if ((0 <=? s) && (s <? 2 ^ 32))%Z then (Ok tt, seed_state s)
    else (Raise ValueError, g).

(** Attribute lookup in the module [np.random], for the two names the
    embedded files call with a seed: the module defines [seed]; it has no
    attribute [set_seed], and looking up a name the module does not define
    raises [AttributeError]. *)
Definition getattr (name : string) : option (Z -> M unit) :=
  if String.eqb name "seed" then Some seed else None.

Definition call_attr (name : string) (arg : Z) : M unit :=
  match getattr name with
  | Some f => f arg
  | None => raise AttributeError
  end.

(** [count] successive draws below [high]. *)
Fixpoint randint_vec (high count : nat) (g : rng) : list nat * rng :=
  match count with
  | O => ([], g)
  | S n =>
      let (x, g1) := randint high g in
      let (xs, g2) := randint_vec high n g1 in
      (x :: xs, g2)
  end.

Fixpoint randint_mat (high nrows ncols : nat) (g : rng)
  : list (list nat) * rng :=
  match nrows with
  | O => ([], g)
  | S n =>
      let (r, g1) := randint_vec high ncols g in
      let (rs, g2) := randint_mat high n ncols g1 in
      (r :: rs, g2)
  end.

(** [np.random.randint(high, size=(nrows, ncols))]: a negative dimension or
    an empty range [[0, high)] raises [ValueError]. *)
Definition randint_size2 (high : nat) (nrows ncols : Z)
  : M (list (list nat)) :=
  fun g =>
    if ((nrows <? 0) || (ncols <? 0))%Z then (Raise ValueError, g)
    else if (high =? 0)%nat then (Raise ValueError, g)
    else
      let (m, g') := randint_mat high (Z.to_nat nrows) (Z.to_nat ncols) g in
      (Ok m, g').

End WithRandomState.
End Rand.

Notation "x <- m ;; k" := (Rand.bind m (fun x => k))
  (at level 61, m at next level, right associativity).

(** ** The problem definition and the sensitivity result *)

Record Problem : Type := mkProblem {
  num_vars : nat;
  names : list string;
  bounds : list (Q * Q);
  dists : option (list string)
}.

Record ResultDict : Type := mkResultDict {
  Si_names : list string;
  Si_ST : list float64;
  Si_ST_conf : list float64
}.

(** ** [SALib/analyze/sobol_jansen.py] *)

Module Jansen.
Section WithNumpy.
Context {RS : RandomState} {SP : Special}.

(** [jansen_estimator(N, si)]:
    [(1.0/(2.0*N)) * np.sum((si**2), axis=0)].
    [sh] is [si.shape[1:]].  [1.0/(2.0*N)] is a division of Python floats,
    which raises on a zero divisor. *)
Definition jansen_estimator {A : Type} {ND : NdArray A}
  (N : Z) (sh : nd_shape) (si : list A) : result A :=
  if (N =? 0)%Z then Raise ZeroDivisionError
  else Ok (nd_map (Qmult (1 / (2 * inject_Z N)))
                  (sum_axis0 sh (map (nd_map (fun x => x ^ 2)) si))).

(** [col.std(ddof=1)]: [sqrt(sum((x - mean)^2) / (n - 1))].  A non-finite
    entry makes the result non-finite; with fewer than two entries the
    divisor [n - 1] is not positive and the result is [nan]. *)
Definition std_ddof1 (col : list float64) : float64 :=
  match all_finite col with
  | None => NonFin
  | Some xs =>
      if (length xs <=? 1)%nat then NonFin
      else Fin (np_sqrt (sq_dev xs / (inject_Z (Z.of_nat (length xs)) - 1)))
  end.

(** [res.std(ddof=1, axis=0)] for [res] with [ncols] columns. *)
Definition std_ddof1_axis0 (ncols : nat) (res : list (list float64))
  : list float64 :=
  map (fun c => std_ddof1 (map (fun row => nth c row NonFin) res))
      (seq 0 ncols).

(** [a[index]] with a two-dimensional integer [index]: one row of [a] per
    index. *)
Definition take (a : array2) (index : list (list nat))
  : result (list (list (list Q))) :=
  if forallb (forallb (fun ix => (ix <? shape0 a)%nat)) index
  then Ok (map (map (fun ix => nth ix (rows a) [])) index)
  else Raise IndexError.

(** [0.5 + conf_level / 2.0]: the halving is exact, the sum is rounded. *)
Definition ppf_argument (conf_level : Q) : Q :=
  Float64.round64 ((1 # 2) + conf_level / 2).

(** [norm.ppf(q)]: finite inside (0, 1); infinite at 0 and at 1, [nan]
    outside. *)
Definition norm_ppf_float (q : Q) : float64 :=
  if Qlt_bool 0 q && Qlt_bool q 1 then Fin (norm_ppf q) else NonFin.

Definition compute_radial_si_confidence
  (si : array2) (base_var : float64) (N : Z) (num_resamples : Z)
  (conf_level : Q) : Rand.M (list float64) :=
  let tmp_si := T si in
  if negb (Qlt_bool 0 conf_level && Qlt_bool conf_level 1)
  then Rand.raise ValueError
  else
    resample_index <- Rand.randint_size2 (shape0 tmp_si) num_resamples N ;;
    si_resampled <- Rand.lift (take tmp_si resample_index) ;;
    je <- Rand.lift (jansen_estimator (A := list (list Q)) (ND := nd_axis)
                       N (Z.to_nat N, (shape1 tmp_si, tt)) si_resampled) ;;
    let res :=
      map (map (fun x => np_true_divide (Fin x) base_var)) je in
    Rand.ret
      (map (np_multiply (norm_ppf_float (ppf_argument conf_level)))
           (std_ddof1_axis0 (shape1 tmp_si) res)).

(** [Y.shape[0] / sample_sets]: true division of two Python ints. *)
Definition true_div (a b : Z) : result Q :=
  if (b =? 0)%Z then Raise ZeroDivisionError
  else Ok (inject_Z a / inject_Z b).

Definition py_assert (b : bool) : result unit :=
  if b then Ok tt else Raise AssertionError.

(** [np.empty((n0, n1))] raises on a negative dimension. *)
Definition np_empty_shape (n0 : nat) (n1 : Z) : result (nat * nat) :=
  if (n1 <? 0)%Z then Raise ValueError else Ok (n0, Z.to_nat n1).

Definition analyze (problem : Problem) (Y : list Q) (sample_sets : Z)
  (num_resamples : Z) (conf_level : Q) (seed : option Z)
  : Rand.M ResultDict :=
  let num_vars := num_vars problem in
  q <- Rand.lift (true_div (Z.of_nat (length Y)) sample_sets) ;;
  _ <- Rand.lift
         (py_assert (Qeq_bool q (inject_Z (Z.of_nat num_vars + 1)))) ;;
  _ <- match seed with
       | Some s => if truthy seed then Rand.call_attr "set_seed" s
                   else Rand.ret tt
       | None => Rand.ret tt
       end ;;
  st_shape <- Rand.lift (np_empty_shape num_vars sample_sets) ;;
  let nth_ := (num_vars + 1)%nat in
  let Y_base := slice_step 0 nth_ Y in
  let base_variance := np_var Y_base in
  let r := sample_sets in
  let st :=
    {| shape0 := fst st_shape;
       shape1 := snd st_shape;
       rows := map (fun i =>
                      let pos := (i + 1)%nat in
                      map2 Qminus Y_base (slice_step pos nth_ Y))
                   (seq 0 num_vars) |} in
  je <- Rand.lift (jansen_estimator (A := list Q) (ND := nd_axis)
                     r (shape0 st, tt) (rows (T st))) ;;
  let ST := map (fun x => np_true_divide (Fin x) base_variance) je in
  ST_conf <- compute_radial_si_confidence st base_variance r num_resamples
                                          conf_level ;;
  Rand.ret {| Si_names := names problem; Si_ST := ST; Si_ST_conf := ST_conf |}.

End WithNumpy.
End Jansen.

(** ** The estimator as the specification words it

    [Y] is read as [s] contiguous blocks of [D + 1] outputs.  [block_entry]
    is the entry at position [p] of block [k]; the baseline is position 0,
    the output perturbed in dimension [i] (1..D) is position [i]. *)

Module JansenSpec.

Definition block_entry (D : nat) (Y : list Q) (k p : nat) : Q :=
  nth (k * (D + 1) + p) Y 0.

Definition Y_base (D s : nat) (Y : list Q) : list Q :=
  map (fun k => block_entry D Y k 0) (seq 0 s).

(** Sum over the replicates of [(Y_base - Y_perturbed_i)^2]. *)
Definition effect_sq_sum (D s : nat) (Y : list Q) (i : nat) : Q :=
  Qsum (map (fun k => (block_entry D Y k 0 - block_entry D Y k i) ^ 2)
            (seq 0 s)).

(** Variance with [ddof] delta degrees of freedom: the mean squared
    deviation for [ddof = 0], the sample variance for [ddof = 1]. *)
Definition variance_ddof (ddof : Z) (a : list Q) : Q :=
  sq_dev a / (inject_Z (Z.of_nat (length a)) - inject_Z ddof).

(** [sum / (2 * sample_sets) / base_variance] *)
Definition total_effect (ddof : Z) (D : nat) (s : Z) (Y : list Q) (i : nat)
  : float64 :=
  np_true_divide
    (Fin (effect_sq_sum D (Z.to_nat s) Y i / (2 * inject_Z s)))
    (Fin (variance_ddof ddof (Y_base D (Z.to_nat s) Y))).

(** [base_variance], the variance numpy computes for the baselines. *)
Definition base_variance (D : nat) (s : Z) (Y : list Q) : float64 :=
  np_var (Y_base D (Z.to_nat s) Y).


(** The shape precondition, [Y.length / sample_sets == D + 1]. *)
Definition shape_precondition (problem : Problem) (Y : list Q) (s : Z)
  : Prop :=
  inject_Z (Z.of_nat (length Y)) / inject_Z s
  == inject_Z (Z.of_nat (num_vars problem) + 1).

End JansenSpec.

(** The intermediate arrays of [analyze], named for the statements below. *)

Module JansenAux.
Section WithSpecial.
Context {SP : Special}.

(** [st] once the loop over the dimensions has filled it. *)
Definition st_array (D : nat) (s : Z) (Y : list Q) : array2 :=
  {| shape0 := D;
     shape1 := Z.to_nat s;
     rows := map (fun i =>
                    map2 Qminus (slice_step 0 (D + 1) Y)
                                (slice_step (i + 1) (D + 1) Y))
                 (seq 0 D) |}.

Definition jansen_value {A : Type} {ND : NdArray A}
  (N : Z) (sh : nd_shape) (si : list A) : A :=
  nd_map (Qmult (1 / (2 * inject_Z N)))
         (sum_axis0 sh (map (nd_map (fun x => x ^ 2)) si)).

Definition ST_values (D : nat) (s : Z) (Y : list Q) : list float64 :=
  map (fun x => np_true_divide (Fin x) (np_var (slice_step 0 (D + 1) Y)))
      (jansen_value (A := list Q) (ND := nd_axis) s (D, tt)
                    (rows (T (st_array D s Y)))).

(** [res] of [compute_radial_si_confidence] for the drawn [index]. *)
Definition res_array (si : array2) (base_var : float64) (N : Z)
  (index : list (list nat)) : list (list float64) :=
  map (map (fun x => np_true_divide (Fin x) base_var))
      (jansen_value (A := list (list Q)) (ND := nd_axis)
                    N (Z.to_nat N, (shape0 si, tt))
                    (map (map (fun ix => nth ix (rows (T si)) [])) index)).

Definition conf_values (si : array2) (base_var : float64) (N : Z)
  (conf_level : Q) (index : list (list nat)) : list float64 :=
  map (np_multiply (Jansen.norm_ppf_float (Jansen.ppf_argument conf_level)))
      (Jansen.std_ddof1_axis0 (shape0 si) (res_array si base_var N index)).

End WithSpecial.
End JansenAux.

(** ** Collaborators of the samplers

    [SALib.sample.sobol_sequence] and [SALib.util] are imported by the
    samplers and are not part of the three files. *)

(** [sobol_sequence.sample(count, dims)]: the first [count] points of the
    low-discrepancy sequence in [dims] dimensions, one row per point. *)
Class SobolSequence : Type := {
  sobol_sample : nat -> nat -> list (list Q)
}.

Class SobolLaws (SS : SobolSequence) : Prop := {
  sobol_rows : forall count dims, length (sobol_sample count dims) = count;
  sobol_cols : forall count dims,
    Forall (fun row => length row = dims) (sobol_sample count dims);
  (** asking for more points only appends points *)
  sobol_prefix : forall count count' dims i,
    (i < count)%nat -> (count <= count')%nat ->
    nth i (sobol_sample count dims) [] = nth i (sobol_sample count' dims) []
}.

(** [nonuniform_scale_samples(params, bounds, dists)]: rescaling through
    inverse distribution functions; it returns a new matrix, or raises on a
    distribution it does not know. *)
Class NonuniformScaling : Type := {
  nonuniform_scale_samples :
    list (list Q) -> list (Q * Q) -> list string -> result (list (list Q))
}.

(** "both produce output of identical shape" *)
Class NonuniformLaws (NS : NonuniformScaling) : Prop := {
  nonuniform_shape : forall params bnds ds out,
    nonuniform_scale_samples params bnds ds = Ok out ->
    map (@length Q) out = map (@length Q) params
}.

Module Util.

(** The linear map of one column, [x * (high - low) + low], each of the
    three operations rounded. *)
Definition scale_value (x : Q) (b : Q * Q) : Q :=
  Float64.round64
    (Float64.round64 (x * Float64.round64 (snd b - fst b)) + fst b).

Definition scale_row (bnds : list (Q * Q)) (row : list Q) : list Q :=
  map2 scale_value row bnds.

(** Modelled from the spec: [SALib.util.scale_samples], the linear scaling
    collaborator, which "maps each column from [0,1) to [low, high)" in
    place.  The value returned here is the content of the matrix after the
    call. *)
Definition scale_samples (params : list (list Q)) (bnds : list (Q * Q))
  : list (list Q) :=
  map (scale_row bnds) params.

End Util.

(** ** [SALib/sample/radial.py] *)

Module Radial.
Section WithCollaborators.
Context {RS : RandomState} {SS : SobolSequence}.

(** [np.repeat(a, repeats, axis=0)] *)
Definition np_repeat (a : list (list Q)) (repeats : nat) : list (list Q) :=
  flat_map (fun row => repeat row repeats) a.

(** [np.diag(v)] *)
Definition np_diag (v : list Q) : list (list Q) :=
  map (fun j =>
         map (fun k => if (j =? k)%nat then nth j v 0 else 0)
             (seq 0 (length v)))
      (seq 0 (length v)).

(** [np.copyto(dst, src, where=src != 0.0)]: the content of [dst] after the
    call. *)
Definition copyto_where_nonzero (dst src : list (list Q)) : list (list Q) :=
  map2 (map2 (fun d m => if negb (Qeq_bool m 0) then m else d)) dst src.

(** [a[start:stop]] (rows) and the array after [a[start:start+len(new)]]
    has been overwritten with [new]. *)
Definition get_rows (start stop : nat) (a : list (list Q)) : list (list Q) :=
  firstn (stop - start) (skipn start a).

Definition set_rows (start : nat) (new a : list (list Q)) : list (list Q) :=
  firstn start a ++ new ++ skipn (start + length new) a.

(** The loop over the perturbation vectors; [grp_start] and [sample_set]
    are the loop's variables. *)
Fixpoint perturb_loop (num_vars : nat) (perturbations : list (list Q))
  (grp_start : nat) (sample_set : list (list Q)) : list (list Q) :=
  match perturbations with
  | [] => sample_set
  | p :: rest =>
      let mod_ := np_diag p in
      let dst := get_rows (grp_start + 1) (grp_start + num_vars + 1)
                          sample_set in
      let sample_set' :=
        set_rows (grp_start + 1) (copyto_where_nonzero dst mod_) sample_set in
      perturb_loop num_vars rest (grp_start + num_vars + 1) sample_set'
  end.

Definition sample (problem : Problem) (N : nat) (seed : option Z)
  : Rand.M (list (list Q)) :=
  _ <- match seed with
       | Some s => if truthy seed then Rand.call_attr "seed" s
                   else Rand.ret tt
       | None => Rand.ret tt
       end ;;
  let num_vars := num_vars problem in
  let bounds := bounds problem in
  let discard := 4%nat in
  let R := (N + discard)%nat in
  let base_sequence := sobol_sample R num_vars in
  let subsetted_base :=
    Util.scale_samples (skipn discard base_sequence) bounds in
  let group := (num_vars + 1)%nat in
  let sample_set := np_repeat subsetted_base group in
  let perturbations :=
    Util.scale_samples (skipn R (sobol_sample (R + N) num_vars)) bounds in
  Rand.ret (perturb_loop num_vars perturbations 0 sample_set).

End WithCollaborators.
End Radial.

(** The radial design as the specification words it. *)

Module RadialSpec.
Section WithSequence.
Context {SS : SobolSequence}.

(** Point [i] of the low-discrepancy sequence in [D] dimensions. *)
Definition sequence_point (D i : nat) : list Q :=
  nth i (sobol_sample (S i) D) [].

(** Baseline and perturbation vector of replicate [r], scaled into the
    bounds: points [4 + r] and [R + r], [R = N + 4]. *)
Definition baseline (problem : Problem) (r : nat) : list Q :=
  Util.scale_row (bounds problem) (sequence_point (num_vars problem) (4 + r)).

Definition perturbation (problem : Problem) (N r : nat) : list Q :=
  Util.scale_row (bounds problem)
                 (sequence_point (num_vars problem) (N + 4 + r)).

(** The baseline with coordinate [j] replaced by the perturbation value,
    unless that value is zero. *)
Definition overlay (j : nat) (base pert : list Q) : list Q :=
  map (fun k =>
         if (k =? j)%nat && negb (Qeq_bool (nth j pert 0) 0)
         then nth j pert 0 else nth k base 0)
      (seq 0 (length base)).

(** The block of one replicate: the baseline row, then one row per
    dimension. *)
Definition block (D : nat) (base pert : list Q) : list (list Q) :=
  base :: Radial.copyto_where_nonzero (repeat base D) (Radial.np_diag pert).

(** The arrays [subsetted_base] and [perturbations] after scaling, and the
    matrix the loop leaves in [sample_set]. *)
Definition bases_of (problem : Problem) (N : nat) : list (list Q) :=
  Util.scale_samples (skipn 4 (sobol_sample (N + 4) (num_vars problem)))
                     (bounds problem).

Definition perts_of (problem : Problem) (N : nat) : list (list Q) :=
  Util.scale_samples
    (skipn (N + 4) (sobol_sample (N + 4 + N) (num_vars problem)))
    (bounds problem).

Definition design (problem : Problem) (N : nat) : list (list Q) :=
  Radial.perturb_loop (num_vars problem) (perts_of problem N) 0
    (Radial.np_repeat (bases_of problem N) (num_vars problem + 1)).

(** A seed the call accepts: none, zero (not passed on to numpy), or within
    the range [np.random.seed] allows. *)
Definition seed_accepted (seed : option Z) : Prop :=
  match seed with
  | Some s => s = 0%Z \/ (0 <= s < 2 ^ 32)%Z
  | None => True
  end.

(** Row [q] (0..D) of the block of replicate [r] in the matrix [X]. *)
Definition block_row (D : nat) (X : list (list Q)) (r q : nat) : list Q :=
  nth (r * (D + 1) + q) X [].

End WithSequence.
End RadialSpec.

(** ** [SALib/sample/latin.py] *)

Module Latin.
Section WithCollaborators.
Context {RS : RandomState} {NS : NonuniformScaling}.

(** [a[j] = x] for [j] within the array. *)
Fixpoint set_item {A : Type} (j : nat) (x : A) (a : list A) : list A :=
  match a, j with
  | [], _ => []
  | _ :: t, O => x :: t
  | y :: t, S j' => y :: set_item j' x t
  end.

Definition Qnat (n : nat) : Q := inject_Z (Z.of_nat n).

(** [for j in range(N): temp[j] = np.random.uniform(low=j*d, high=(j+1)*d)],
    over the indices [js]. *)
Fixpoint draw_strata (js : list nat) (d : Q) (temp : list Q) (g : rng)
  : list Q * rng :=
  match js with
  | [] => (temp, g)
  | j :: rest =>
      let (x, g1) := uniform (Float64.round64 (Qnat j * d))
                             (Float64.round64 (Qnat (j + 1) * d)) g in
      draw_strata rest d (set_item j x temp) g1
  end.

(** [for j in range(N): result[j, i] = temp[j]] *)
Definition set_column (i : nat) (temp : list Q) (result : list (list Q))
  : list (list Q) :=
  map2 (fun row x => set_item i x row) result temp.

(** The loop over the dimensions [cols]; [result] and [temp] are the two
    arrays the loop keeps overwriting. *)
Fixpoint fill_columns (cols : list nat) (N : nat) (d : Q)
  (result : list (list Q)) (temp : list Q) (g : rng)
  : list (list Q) * rng :=
  match cols with
  | [] => (result, g)
  | i :: rest =>
      let (temp1, g1) := draw_strata (seq 0 N) d temp g in
      let (temp2, g2) := shuffle temp1 g1 in
      fill_columns rest N d (set_column i temp2 result) temp2 g2
  end.

(** [result] when the loops end: the sample in the unit hypercube, before
    any scaling. *)
Definition unit_hypercube (N D : nat) (g : rng) : list (list Q) * rng :=
  fill_columns (seq 0 D) N (Float64.round64 (1 / Qnat N))
               (repeat (repeat 0 D) N) (repeat 0 N) g.

(** [not problem.get('dists')]: a missing or empty list of distributions. *)
Definition no_dists (problem : Problem) : bool :=
  match dists problem with
  | None | Some [] => true
  | Some _ => false
  end.

(** [problem['dists']], read where the list is present. *)
Definition get_dists (problem : Problem) : list string :=
  match dists problem with
  | Some ds => ds
  | None => []
  end.

(** [d = 1.0 / N] raises on [N = 0]. *)
Definition sample (problem : Problem) (N : nat) : Rand.M (list (list Q)) :=
  fun g =>
    let D := num_vars problem in
    if (N =? 0)%nat then (Raise ZeroDivisionError, g)
    else
      let (result, g') := unit_hypercube N D g in
      if no_dists problem
      then (Ok (Util.scale_samples result (bounds problem)), g')
      else (nonuniform_scale_samples result (bounds problem)
                                     (get_dists problem), g').

End WithCollaborators.
End Latin.

(** The sample of one dimension as the specification words it: one draw
    per stratum, then a shuffle. *)

Module LatinSpec.
Section WithGenerator.
Context {RS : RandomState}.

(** [d = 1.0 / N], and the end [j * d] that stratum [j - 1] and stratum
    [j] share, as float64 computes them. *)
Definition width (N : nat) : Q := Float64.round64 (1 / Latin.Qnat N).

Definition stratum_end (N j : nat) : Q :=
  Float64.round64 (Latin.Qnat j * width N).

(** [x] lies in stratum [j] of [N], both ends included. *)
Definition in_stratum (N j : nat) (x : Q) : Prop :=
  stratum_end N j <= x /\ x <= stratum_end N (j + 1).

Definition column (c : nat) (m : list (list Q)) : list Q :=
  map (fun row => nth c row 0) m.

(** One draw for each stratum of [js], in their order. *)
Fixpoint stratum_draws (js : list nat) (d : Q) (g : rng) : list Q * rng :=
  match js with
  | [] => ([], g)
  | j :: rest =>
      let (x, g1) :=
        uniform (Float64.round64 (Latin.Qnat j * d))
                (Float64.round64 (Latin.Qnat (j + 1) * d)) g in
      let (xs, g2) := stratum_draws rest d g1 in
      (x :: xs, g2)
  end.

(** The values of one dimension: the [N] draws, shuffled. *)
Definition dimension (N : nat) (g : rng) : list Q * rng :=
  let (draws, g1) := stratum_draws (seq 0 N) (width N) g in
  shuffle draws g1.

(** The generator after [c] dimensions. *)
Fixpoint dimension_state (N c : nat) (g : rng) : rng :=
  match c with
  | O => g
  | S c' => snd (dimension N (dimension_state N c' g))
  end.

Definition has_shape (N D : nat) (m : list (list Q)) : Prop :=
  length m = N /\ Forall (fun row => length row = D) m.

End WithGenerator.
End LatinSpec.

(** ** [analyze] on a store of Python objects

    The estimator once more, this time with the objects of the call in a
    store: the caller's [Y] and [problem] are locations, slices of [Y] are
    views that read [Y]'s buffer when they are used, and every array or
    dictionary the call builds is allocated.  What the call computes is what
    [Jansen.analyze] computes; the store shows what it writes. *)

Module Store.

Definition loc : Type := nat.

Inductive value : Type :=
| VNat (n : nat)
| VFloat (q : Q)
| VStr (s : string)
| VRef (l : loc)
| VNone.

Inductive obj : Type :=
| ONdarray1 (data : list Q)
| ONdarray2 (a : array2)
| ONdarray3 (a : list (list (list Q)))
| ONdarrayF1 (data : list float64)
| ONdarrayF2 (a : list (list float64))
| OIndex (ix : list (list nat))
| OList (items : list value)
| ODict (entries : list (string * value)).

Definition heap : Type := list obj.

(** A view [Y[start::step]]: it owns no data. *)
Record view : Type := mkView {
  view_base : loc;
  view_start : nat;
  view_step : nat
}.

Section WithNumpy.
Context {RS : RandomState} {SP : Special}.

(** Computations on the store and the global generator. *)
Definition HM (A : Type) : Type := heap * rng -> result A * (heap * rng).

Definition ret {A : Type} (a : A) : HM A := fun s => (Ok a, s).

Definition raise {A : Type} (e : exn) : HM A := fun s => (Raise e, s).

Definition bind {A B : Type} (m : HM A) (k : A -> HM B) : HM B :=
  fun s =>
    match m s with
    | (Ok a, s') => k a s'
    | (Raise e, s') => (Raise e, s')
    end.

Definition lift {A : Type} (r : result A) : HM A := fun s => (r, s).

Definition lift_rand {A : Type} (m : Rand.M A) : HM A :=
  fun s =>
    let (r, g') := m (snd s) in (r, (fst s, g')).

Definition alloc (o : obj) : HM loc :=
  fun s => (Ok (length (fst s)), (fst s ++ [o], snd s)).

Definition load (l : loc) : HM obj :=
  fun s =>
    match nth_error (fst s) l with
    | Some o => (Ok o, s)
    | None => (Raise TypeError, s)
    end.

Fixpoint replace_at (l : loc) (o : obj) (h : heap) : heap :=
  match h, l with
  | [], _ => []
  | _ :: t, O => o :: t
  | x :: t, S l' => x :: replace_at l' o t
  end.

Definition store (l : loc) (o : obj) : HM unit :=
  fun s => (Ok tt, (replace_at l o (fst s), snd s)).

Definition load_ndarray1 (l : loc) : HM (list Q) :=
  bind (load l) (fun o =>
    match o with
    | ONdarray1 d => ret d
    | _ => raise TypeError
    end).

Definition load_ndarray2 (l : loc) : HM array2 :=
  bind (load l) (fun o =>
    match o with
    | ONdarray2 a => ret a
    | _ => raise TypeError
    end).

(** Reading through a view reads the buffer of its base. *)
Definition load_view (v : view) : HM (list Q) :=
  bind (load_ndarray1 (view_base v)) (fun d =>
    ret (slice_step (view_start v) (view_step v) d)).

Fixpoint assoc (key : string) (entries : list (string * value))
  : option value :=
  match entries with
  | [] => None
  | (k, v) :: t => if String.eqb k key then Some v else assoc key t
  end.

Fixpoint assoc_set (key : string) (v : value)
  (entries : list (string * value)) : list (string * value) :=
  match entries with
  | [] => [(key, v)]
  | (k, w) :: t =>
      if String.eqb k key then (k, v) :: t else (k, w) :: assoc_set key v t
  end.

(** [d[key]] *)
Definition dict_get (l : loc) (key : string) : HM value :=
  bind (load l) (fun o =>
    match o with
    | ODict entries =>
        match assoc key entries with
        | Some v => ret v
        | None => raise KeyError
        end
    | _ => raise TypeError
    end).

(** [d[key] = v] *)
Definition dict_set (l : loc) (key : string) (v : value) : HM unit :=
  bind (load l) (fun o =>
    match o with
    | ODict entries => store l (ODict (assoc_set key v entries))
    | _ => raise TypeError
    end).

(** [a[i] = row] on a two-dimensional array. *)
Definition store_row (l : loc) (i : nat) (row : list Q) : HM unit :=
  bind (load_ndarray2 l) (fun a =>
    store l (ONdarray2 {| shape0 := shape0 a;
                          shape1 := shape1 a;
                          rows := Latin.set_item i row (rows a) |})).

(** [for i in range(n): body(i)] *)
Fixpoint for_range (is_ : list nat) (body : nat -> HM unit) : HM unit :=
  match is_ with
  | [] => ret tt
  | i :: rest => bind (body i) (fun _ => for_range rest body)
  end.

Definition as_nat (v : value) : HM nat :=
  match v with
  | VNat n => ret n
  | _ => raise TypeError
  end.

Notation "x <~ m ;; k" := (bind m (fun x => k))
  (at level 61, m at next level, right associativity).

Definition compute_radial_si_confidence
  (si : loc) (base_var : float64) (N : Z) (num_resamples : Z)
  (conf_level : Q) : HM loc :=
  (* tmp_si = si.T is a view of [si] *)
  si_now <~ load_ndarray2 si ;;
  let tmp_si := T si_now in
  if negb (Qlt_bool 0 conf_level && Qlt_bool conf_level 1)
  then raise ValueError
  else
    index <~ lift_rand
               (Rand.randint_size2 (shape0 tmp_si) num_resamples N) ;;
    resample_index <~ alloc (OIndex index) ;;
    gathered <~ lift (Jansen.take tmp_si index) ;;
    si_resampled <~ alloc (ONdarray3 gathered) ;;
    je <~ lift (Jansen.jansen_estimator (A := list (list Q)) (ND := nd_axis)
                   N (Z.to_nat N, (shape1 tmp_si, tt)) gathered) ;;
    res <~ alloc (ONdarrayF2
                    (map (map (fun x => np_true_divide (Fin x) base_var))
                         je)) ;;
    alloc (ONdarrayF1
             (map (np_multiply
                     (Jansen.norm_ppf_float (Jansen.ppf_argument conf_level)))
                  (Jansen.std_ddof1_axis0 (shape1 tmp_si)
                     (map (map (fun x => np_true_divide (Fin x) base_var))
                          je)))).

Definition analyze (problem : loc) (Y : loc) (sample_sets : Z)
  (num_resamples : Z) (conf_level : Q) (seed : option Z) : HM loc :=
  num_vars_v <~ dict_get problem "num_vars" ;;
  num_vars <~ as_nat num_vars_v ;;
  Y_now <~ load_ndarray1 Y ;;
  q <~ lift (Jansen.true_div (Z.of_nat (length Y_now)) sample_sets) ;;
  _ <~ lift (Jansen.py_assert
               (Qeq_bool q (inject_Z (Z.of_nat num_vars + 1)))) ;;
  _ <~ match seed with
       | Some s => if truthy seed
                   then lift_rand (Rand.call_attr "set_seed" s)
                   else ret tt
       | None => ret tt
       end ;;
  st_shape <~ lift (Jansen.np_empty_shape num_vars sample_sets) ;;
  st <~ alloc (ONdarray2
                 {| shape0 := fst st_shape;
                    shape1 := snd st_shape;
                    rows := repeat (repeat 0 (snd st_shape))
                                   (fst st_shape) |}) ;;
  let nth_ := (num_vars + 1)%nat in
  let Y_base := {| view_base := Y; view_start := 0; view_step := nth_ |} in
  Y_base_now <~ load_view Y_base ;;
  let base_variance := np_var Y_base_now in
  let r := sample_sets in
  _ <~ for_range (seq 0 num_vars) (fun i =>
         let pos := (i + 1)%nat in
         a <~ load_view Y_base ;;
         b <~ load_view {| view_base := Y; view_start := pos;
                           view_step := nth_ |} ;;
         diff <~ alloc (ONdarray1 (map2 Qminus a b)) ;;
         row <~ load_ndarray1 diff ;;
         store_row st i row) ;;
  l0 <~ alloc (OList (repeat VNone num_vars)) ;;
  l1 <~ alloc (OList (repeat VNone num_vars)) ;;
  l2 <~ alloc (OList (repeat VNone num_vars)) ;;
  Si <~ alloc (ODict [("names"%string, VRef l0); ("ST"%string, VRef l1);
                      ("ST_conf"%string, VRef l2)]) ;;
  st_now <~ load_ndarray2 st ;;
  je <~ lift (Jansen.jansen_estimator (A := list Q) (ND := nd_axis)
                 r (shape0 st_now, tt) (rows (T st_now))) ;;
  ST <~ alloc (ONdarrayF1
                 (map (fun x => np_true_divide (Fin x) base_variance) je)) ;;
  _ <~ dict_set Si "ST" (VRef ST) ;;
  ST_conf <~ compute_radial_si_confidence st base_variance r num_resamples
                                          conf_level ;;
  _ <~ dict_set Si "ST_conf" (VRef ST_conf) ;;
  names_v <~ dict_get problem "names" ;;
  _ <~ dict_set Si "names" names_v ;;
  ret Si.

(** Every object of [h0] is still in [h], unchanged. *)
Definition unchanged (h0 h : heap) : Prop :=
  forall l, (l < length h0)%nat -> nth_error h l = nth_error h0 l.

(** [m] leaves the objects of [h0] unchanged, whether it returns or raises,
    and what it returns satisfies [Q]. *)
Definition frames {A : Type} (h0 : heap) (m : HM A) (Q : A -> Prop) : Prop :=
  forall h g,
    unchanged h0 h ->
    match m (h, g) with
    | (Ok a, (h', _)) => unchanged h0 h' /\ Q a
    | (Raise _, (h', _)) => unchanged h0 h'
    end.

(** Row [i] of [st], as the loop body computes it from the views of [Y]. *)
Definition effect_row (D : nat) (Y : list Q) (i : nat) : list Q :=
  map2 Qminus (slice_step 0 (D + 1) Y) (slice_step (i + 1) (D + 1) Y).

(** The rows of [st] after the iterations [is_]. *)
Definition rows_after (D : nat) (Y : list Q) (is_ : list nat)
  (rows0 : list (list Q)) : list (list Q) :=
  fold_left (fun acc i => Latin.set_item i (effect_row D Y i) acc) is_ rows0.

(** A location that [h0] does not hold: one allocated later. *)
Definition fresh (h0 : heap) (l : loc) : Prop := (length h0 <= l)%nat.

End WithNumpy.

End Store.

(** ** Reference instances of the external interfaces

    Small executable implementations on which the theorems are exercised: a
    linear congruential generator for [np.random], and rational stand-ins for
    the two special functions. *)

Module Demo.

Definition lcg (g : Z) : Z := ((g * 1103515245 + 12345) mod 2147483648)%Z.

#[export] Instance demo_rng : RandomState := {
  rng := Z;
  seed_state := fun s => s;
  randint := fun high g => (Z.to_nat (g mod Z.of_nat high), lcg g);
  uniform := fun low high g =>
    (low + (high - low) * ((g mod 1024) # 1024), lcg g);
  shuffle := fun l g =>
    let k := Z.to_nat (g mod Z.of_nat (length l)) in
    (skipn k l ++ firstn k l, lcg g)
}.

(** [floor(sqrt(10^6 x)) / 10^3] *)
Definition sqrt_milli (x : Q) : Q :=
  Z.sqrt (Qfloor (x * 1000000)) # 1000.

(** A piecewise-linear stand-in for the normal quantile on [[1/2, 1)]. *)
Definition ppf_linear (p : Q) : Q := 4 * (p - (1 # 2)).

#[export] Instance demo_special : Special := {
  np_sqrt := sqrt_milli;
  norm_ppf := ppf_linear
}.

(** A Halton sequence (radical inverses in the bases 2, 3, 5, ...) stands
    in for the low-discrepancy generator. *)
Fixpoint radical_inverse (fuel : nat) (b i : Z) (w : Q) : Q :=
  match fuel with
  | O => 0
  | S f =>
      if (i =? 0)%Z then 0
      else inject_Z (i mod b) * w
           + radical_inverse f b (i / b) (w / inject_Z b)
  end.

Definition halton_bases : list Z := [2; 3; 5; 7; 11; 13; 17; 19]%Z.

Definition halton_point (D i : nat) : list Q :=
  map (fun k =>
         let b := nth k halton_bases 2%Z in
         Qred (radical_inverse 64 b (Z.of_nat i) (1 / inject_Z b)))
      (seq 0 D).

#[export] Instance demo_sobol : SobolSequence := {
  sobol_sample := fun count dims => map (halton_point dims) (seq 0 count)
}.

(** The quantile function [x * x] for every dimension stands in for the
    inverse-CDF scaling. *)
#[export] Instance demo_nonuniform : NonuniformScaling := {
  nonuniform_scale_samples := fun params _ _ =>
    Ok (map (map (fun x => x * x)) params)
}.

Definition problem2 : Problem :=
  {| num_vars := 2;
     names := ["x1"; "x2"]%string;
     bounds := [(0, 1); (0, 1)];
     dists := None |}.

Definition Y3 : list Q := [10; 12; 9; 20; 22; 21].

(** The caller's store before the estimator is called on the third
    scenario: the names, the two bounds, the list of bounds, the problem
    dictionary (location 4) and the output array (location 5). *)
Definition caller_heap : Store.heap :=
  [Store.OList [Store.VStr "x1"; Store.VStr "x2"];
   Store.OList [Store.VFloat 0; Store.VFloat 1];
   Store.OList [Store.VFloat 0; Store.VFloat 1];
   Store.OList [Store.VRef 1%nat; Store.VRef 2%nat];
   Store.ODict [("num_vars"%string, Store.VNat 2%nat);
                ("names"%string, Store.VRef 0%nat);
                ("bounds"%string, Store.VRef 3%nat)];
   Store.ONdarray1 Y3].

(** The first coordinate of the Sobol sequence in the order of its
    Gray-code generator: point [i] is the radical inverse in base 2 of
    [i xor (i >> 1)], that is 0, 1/2, 3/4, 1/4, 3/8, 7/8, 5/8, 1/8, ...
    The examples that use it have one variable. *)
Definition sobol_first (i : nat) : Q :=
  Qred (radical_inverse 64 2
          (Z.lxor (Z.of_nat i) (Z.shiftr (Z.of_nat i) 1)) (1 / 2)).

Definition sobol_dim1 : SobolSequence := {|
  sobol_sample := fun count dims =>
    map (fun i => repeat (sobol_first i) dims) (seq 0 count)
|}.

(** One variable, bounds under which point 5 of the sequence (7/8) is
    scaled to exactly zero. *)
Definition problem_zero : Problem :=
  {| num_vars := 1;
     names := ["x"]%string;
     bounds := [(- (7 # 1), 1)];
     dists := None |}.

(** One variable, bounds [1e17, 1e17 + 32]: the float64 values between
    them are 16 apart. *)
Definition problem_close : Problem :=
  {| num_vars := 1;
     names := ["x"]%string;
     bounds := [(100000000000000000, 100000000000000032)];
     dists := None |}.

(** A generator that replays a script: the state is the list of the values
    [random_sample()] returns next.  [uniform] is numpy's
    [low + (high - low) * random_sample()] in float64, [randint] scales the
    sample to an index, and [shuffle] leaves the order, one of the outcomes
    of a shuffle. *)
Definition next_sample (g : list Q) : Q * list Q :=
  match g with
  | [] => (0, [])
  | u :: rest => (u, rest)
  end.

Definition scripted_rng : RandomState := {|
  rng := list Q;
  seed_state := fun _ => [];
  randint := fun high g =>
    (Z.to_nat (Qfloor (fst (next_sample g) * inject_Z (Z.of_nat high))),
     snd (next_sample g));
  uniform := fun low high g =>
    (Float64.round64
       (low + Float64.round64
                (Float64.round64 (high - low) * fst (next_sample g))),
     snd (next_sample g));
  shuffle := fun l g => (l, g)
|}.

(** [1 - 2**-53], the largest value of [random_sample()] and the largest
    float64 below 1. *)
Definition below_one : Q := 9007199254740991 # 9007199254740992.

(** A generator at the ends of its range: [uniform] returns the upper limit
    at an even state and the lower limit at an odd one. *)
Definition edge_rng : RandomState := {|
  rng := Z;
  seed_state := fun s => s;
  randint := fun _ g => (0%nat, (g + 1)%Z);
  uniform := fun low high g =>
    (if Z.even g then high else low, (g + 1)%Z);
  shuffle := fun l g => (l, g)
|}.

End Demo.


(** * Properties *)

(** ** Strided slices *)

Section EveryNth.
Variable A : Type.
Variable d : A.

Lemma every_nth_skip (step : nat) (l2 : list A) :
  forall (l1 : list A) (w : nat),
    (length l1 <= w)%nat ->
    every_nth w step (l1 ++ l2) = every_nth (w - length l1) step l2.
Proof.
  induction l1 as [|x t IH]; intros w Hw; simpl.
  - now rewrite Nat.sub_0_r.
  - destruct w as [|w]; simpl in Hw; [lia|].
    rewrite IH by lia. reflexivity.
Qed.

Lemma every_nth_block (step : nat) (l2 : list A) :
  forall (l1 : list A) (w : nat),
    length l1 = step -> (w < step)%nat ->
    every_nth w step (l1 ++ l2) = nth w l1 d :: every_nth w step l2.
Proof.
  intros l1 w Hlen Hw.
  assert (G : forall (l : list A) (v : nat),
             (v < length l)%nat -> (length l - v <= step)%nat ->
             every_nth v step (l ++ l2)
             = nth v l d :: every_nth (step - (length l - v)) step l2).
  { induction l as [|x t IH]; intros v Hv Hle; simpl in *; [lia|].
    destruct v as [|v].
    - rewrite every_nth_skip by lia. f_equal. f_equal. lia.
    - rewrite IH by lia. reflexivity. }
  rewrite G by lia. f_equal. f_equal. lia.
Qed.

(** On an array made of [s] blocks of [step] entries, [l[w::step]] is the
    entry at position [w] of each block. *)
Lemma every_nth_blocks (step : nat) :
  forall (s : nat) (l : list A) (w : nat),
    length l = (s * step)%nat -> (w < step)%nat ->
    every_nth w step l = map (fun k => nth (k * step + w) l d) (seq 0 s).
Proof.
  induction s as [|s IH]; intros l w Hlen Hw.
  - destruct l; [reflexivity | simpl in Hlen; lia].
  - rewrite <- (firstn_skipn step l) at 1.
    assert (H1 : length (firstn step l) = step)
      by (rewrite length_firstn; simpl in Hlen; lia).
    assert (H2 : length (skipn step l) = (s * step)%nat)
      by (rewrite length_skipn; simpl in Hlen; lia).
    rewrite every_nth_block by assumption.
    rewrite (IH _ w H2 Hw).
    cbn [seq map]. f_equal.
    + rewrite <- (firstn_skipn step l) at 2.
      rewrite app_nth1 by lia. reflexivity.
    + rewrite <- seq_shift, map_map.
      apply map_ext. intros k.
      rewrite <- (firstn_skipn step l) at 2.
      rewrite app_nth2 by (rewrite H1; lia).
      f_equal. rewrite H1. lia.
Qed.

End EveryNth.

Arguments every_nth_blocks {A} d step s l w _ _.

(** ** Elementwise operations and sums along the first axis *)

Section Arrays.

Lemma map2_length {A B C : Type} (f : A -> B -> C) :
  forall l1 l2, length (map2 f l1 l2) = Nat.min (length l1) (length l2).
Proof.
  induction l1 as [|x t IH]; intros [|y u]; simpl; auto.
Qed.

Lemma map2_nth {A B C : Type} (f : A -> B -> C) (da : A) (db : B) (dc : C) :
  forall l1 l2 i,
    (i < length l1)%nat -> (i < length l2)%nat ->
    nth i (map2 f l1 l2) dc = f (nth i l1 da) (nth i l2 db).
Proof.
  induction l1 as [|x t IH]; intros [|y u] i H1 H2; simpl in *; try lia.
  destruct i as [|i]; [reflexivity|]. apply IH; lia.
Qed.



Lemma Qsum_ext_eq {A : Type} (f g : A -> Q) (l : list A) :
  (forall x, In x l -> f x == g x) -> Qsum (map f l) == Qsum (map g l).
Proof.
  induction l as [|x t IH]; intros H; simpl; [reflexivity|].
  rewrite (H x) by (now left). rewrite IH; [reflexivity|].
  intros y Hy. apply H. now right.
Qed.

Lemma sum_axis0_vec_length (D : nat) (rs : list (list Q)) :
  Forall (fun r => length r = D) rs ->
  length (sum_axis0 (A := list Q) (D, tt) rs) = D.
Proof.
  unfold sum_axis0. simpl.
  induction 1 as [|r t Hr _ IH]; simpl.
  - apply repeat_length.
  - rewrite map2_length, IH, Hr. apply Nat.min_id.
Qed.

Lemma sum_axis0_vec_nth (D : nat) (rs : list (list Q)) (i : nat) :
  Forall (fun r => length r = D) rs -> (i < D)%nat ->
  nth i (sum_axis0 (A := list Q) (D, tt) rs) 0
  == Qsum (map (fun r => nth i r 0) rs).
Proof.
  intros H Hi. induction H as [|r t Hr Ht IH].
  - unfold sum_axis0. simpl. rewrite nth_repeat. reflexivity.
  - pose proof (sum_axis0_vec_length D t Ht) as Hl.
    unfold sum_axis0 in *. simpl in *.
    rewrite (map2_nth Qplus 0 0 0) by lia.
    rewrite IH. reflexivity.
Qed.


Lemma nth_map_in {A B : Type} (f : A -> B) (da : A) (db : B) :
  forall (l : list A) (i : nat),
    (i < length l)%nat -> nth i (map f l) db = f (nth i l da).
Proof.
  induction l as [|x t IH]; intros i Hi; simpl in *; [lia|].
  destruct i as [|i]; [reflexivity|]. apply IH. lia.
Qed.

Lemma nth_map_seq {B : Type} (f : nat -> B) (db : B) (n i : nat) :
  (i < n)%nat -> nth i (map f (seq 0 n)) db = f i.
Proof.
  intros Hi. rewrite (nth_map_in f 0%nat) by (rewrite length_seq; lia).
  now rewrite seq_nth.
Qed.

Lemma map2_map_seq {B C E : Type} (h : B -> C -> E)
  (f : nat -> B) (g : nat -> C) :
  forall n a,
    map2 h (map f (seq a n)) (map g (seq a n))
    = map (fun k => h (f k) (g k)) (seq a n).
Proof.
  induction n as [|n IH]; intros a; simpl; [reflexivity|].
  now rewrite IH.
Qed.

End Arrays.

(** ** Rounding to binary64 *)

Section Rounding.
Import Float64.

Lemma Qlt_bool_iff (x y : Q) : Qlt_bool x y = true <-> x < y.
Proof.
  unfold Qlt_bool. rewrite negb_true_iff. split; intros H.
  - apply Qnot_le_lt. intros E. apply Qle_bool_iff in E. congruence.
  - apply not_true_is_false. intros E. apply Qle_bool_iff in E.
    apply (Qlt_not_le _ _ H E).
Qed.

Lemma round_half_even_bounds (x : Q) :
  (Qfloor x <= round_half_even x <= Qfloor x + 1)%Z.
Proof.
  unfold round_half_even.
  destruct (Qlt_bool _ _); [lia|]. destruct (Qlt_bool _ _); [lia|].
  destruct (Z.even _); lia.
Qed.

Lemma round_half_even_mono (a b : Q) :
  a <= b -> (round_half_even a <= round_half_even b)%Z.
Proof.
  intros Hab.
  pose proof (Qfloor_resp_le a b Hab) as Hf.
  pose proof (round_half_even_bounds a) as [A1 A2].
  pose proof (round_half_even_bounds b) as [B1 B2].
  destruct (Z.eq_dec (Qfloor a) (Qfloor b)) as [E|E]; [|lia].
  unfold round_half_even in *. rewrite <- E in *.
  set (f := Qfloor a) in *.
  destruct (Qlt_bool (a - inject_Z f) (1 # 2)) eqn:Ha1; [lia|].
  assert (Ha1' : ~ a - inject_Z f < 1 # 2)
    by (intros H; apply Qlt_bool_iff in H; congruence).
  replace (Qlt_bool (b - inject_Z f) (1 # 2)) with false.
  2:{ symmetry. apply not_true_is_false. intros H.
      apply Qlt_bool_iff in H. apply Ha1'. lra. }
  destruct (Qlt_bool (1 # 2) (a - inject_Z f)) eqn:Ha2.
  - apply Qlt_bool_iff in Ha2.
    replace (Qlt_bool (1 # 2) (b - inject_Z f)) with true; [lia|].
    symmetry. apply Qlt_bool_iff. lra.
  - destruct (Qlt_bool (1 # 2) (b - inject_Z f)); [destruct (Z.even f); lia|].
    lia.
Qed.

Lemma pow2_pos (e : Z) : 0 < pow2 e.
Proof. apply Qpower_0_lt. reflexivity. Qed.

Lemma pow2_plus (a b : Z) : pow2 (a + b) == pow2 a * pow2 b.
Proof. apply Qpower_plus. discriminate. Qed.

Lemma pow2_le (a b : Z) : (a <= b)%Z -> pow2 a <= pow2 b.
Proof. intros H. apply Qpower_le_compat_l; [exact H | discriminate]. Qed.

Lemma pow2_lt_inv (a b : Z) : pow2 a < pow2 b -> (a < b)%Z.
Proof. intros H. apply (Qpower_lt_compat_l_inv 2); [exact H|reflexivity]. Qed.

Lemma pow2_Z (n : Z) : (0 <= n)%Z -> inject_Z (2 ^ n) == pow2 n.
Proof. intros H. apply (Zpower_Qpower 2 n H). Qed.

(** The exponent brackets a positive value between two powers of two. *)
Lemma exponent_spec (x : Q) :
  0 < x -> pow2 (exponent x) <= x /\ x < pow2 (exponent x + 1).
Proof.
  intros Hx. destruct x as [n d]. unfold exponent. cbn [Qnum Qden].
  assert (Hn : (0 < n)%Z) by (unfold Qlt in Hx; cbn [Qnum Qden] in Hx; lia).
  rewrite (Z.abs_eq n) by lia.
  assert (Habs : Qabs (n # d) == n # d)
    by (apply Qabs_pos; unfold Qle; cbn [Qnum Qden]; lia).
  set (ln := Z.log2 n). set (ld := Z.log2 (Zpos d)).
  assert (Hln : (0 <= ln)%Z) by apply Z.log2_nonneg.
  assert (Hld : (0 <= ld)%Z) by apply Z.log2_nonneg.
  destruct (Z.log2_spec n Hn) as [N1 N2]. fold ln in N1, N2.
  destruct (Z.log2_spec (Zpos d) ltac:(lia)) as [D1 D2]. fold ld in D1, D2.
  assert (QN1 : pow2 ln <= inject_Z n)
    by (rewrite <- pow2_Z by lia; rewrite <- Zle_Qle; exact N1).
  assert (QN2 : inject_Z n < pow2 (ln + 1))
    by (rewrite <- pow2_Z by lia; rewrite <- Zlt_Qlt; lia).
  assert (QD1 : pow2 ld <= inject_Z (Zpos d))
    by (rewrite <- pow2_Z by lia; rewrite <- Zle_Qle; exact D1).
  assert (QD2 : inject_Z (Zpos d) < pow2 (ld + 1))
    by (rewrite <- pow2_Z by lia; rewrite <- Zlt_Qlt; lia).
  assert (Hxd : (n # d) * inject_Z (Zpos d) == inject_Z n).
  { unfold Qeq, Qmult, inject_Z. cbn [Qnum Qden]. lia. }
  set (x := n # d) in *.
  assert (U : x < pow2 (ln - ld + 1)).
  { assert (E : pow2 (ln - ld + 1) * pow2 ld == pow2 (ln + 1)).
    { rewrite <- pow2_plus. now replace (ln - ld + 1 + ld)%Z with (ln + 1)%Z by lia. }
    pose proof (pow2_pos ld) as P1. pose proof (pow2_pos (ln - ld + 1)) as P2.
    apply Qnot_le_lt. intros C.
    assert (inject_Z n >= pow2 (ln + 1)); [|lra].
    rewrite <- Hxd, <- E.
    apply Qle_trans with (x * pow2 ld).
    - apply Qmult_le_compat_r; [exact C|lra].
    - apply Qmult_le_l; [lra|]. exact QD1. }
  assert (L : pow2 (ln - ld - 1) < x).
  { assert (E : pow2 (ln - ld - 1) * pow2 (ld + 1) == pow2 ln).
    { rewrite <- pow2_plus. now replace (ln - ld - 1 + (ld + 1))%Z with ln by lia. }
    pose proof (pow2_pos (ld + 1)) as P1.
    pose proof (pow2_pos (ln - ld - 1)) as P2.
    apply Qnot_le_lt. intros C.
    assert (inject_Z n < pow2 ln); [|lra].
    rewrite <- Hxd, <- E.
    apply Qle_lt_trans with (pow2 (ln - ld - 1) * inject_Z (Zpos d)).
    - apply Qmult_le_compat_r; [exact C|].
      change 0 with (inject_Z 0). rewrite <- Zle_Qle. lia.
    - apply Qmult_lt_l; [lra|]. exact QD2. }
  destruct (Qle_bool (pow2 (ln - ld)) (Qabs x)) eqn:B.
  - apply Qle_bool_iff in B. rewrite Habs in B. split; [exact B|exact U].
  - assert (B' : x < pow2 (ln - ld)).
    { apply Qnot_le_lt. intros C. apply not_true_iff_false in B. apply B.
      apply Qle_bool_iff. now rewrite Habs. }
    replace (ln - ld - 1 + 1)%Z with (ln - ld)%Z by lia.
    split; [lra|exact B'].
Qed.

Lemma exponent_mono (x y : Q) :
  0 < x -> x <= y -> (exponent x <= exponent y)%Z.
Proof.
  intros Hx Hxy.
  destruct (exponent_spec x Hx) as [X1 _].
  destruct (exponent_spec y ltac:(lra)) as [_ Y2].
  assert (H : pow2 (exponent x) < pow2 (exponent y + 1)) by lra.
  apply pow2_lt_inv in H. lia.
Qed.

(** The scaled value of a positive [x] lies in [2^52, 2^53). *)
Lemma scaled_range (x : Q) :
  0 < x ->
  let y := x / pow2 (exponent x - 52) in
  inject_Z (2 ^ 52) <= y /\ y < inject_Z (2 ^ 53).
Proof.
  intros Hx y. destruct (exponent_spec x Hx) as [X1 X2].
  set (e := exponent x) in *.
  pose proof (pow2_pos (e - 52)) as Pk.
  assert (E1 : pow2 e == inject_Z (2 ^ 52) * pow2 (e - 52)).
  { rewrite pow2_Z by lia. rewrite <- pow2_plus.
    now replace (52 + (e - 52))%Z with e by lia. }
  assert (E2 : pow2 (e + 1) == inject_Z (2 ^ 53) * pow2 (e - 52)).
  { rewrite pow2_Z by lia. rewrite <- pow2_plus.
    now replace (53 + (e - 52))%Z with (e + 1)%Z by lia. }
  unfold y. split.
  - apply Qle_shift_div_l; [exact Pk|]. now rewrite <- E1.
  - apply Qlt_shift_div_r; [exact Pk|]. now rewrite <- E2.
Qed.

Lemma round64_range (x : Q) :
  0 < x ->
  pow2 (exponent x) <= round64 x /\ round64 x <= pow2 (exponent x + 1).
Proof.
  intros Hx. unfold round64.
  destruct (Qeq_bool x 0) eqn:E0; [apply Qeq_bool_iff in E0; lra|].
  destruct (scaled_range x Hx) as [S1 S2].
  set (e := exponent x) in *. set (y := x / pow2 (e - 52)) in *.
  pose proof (pow2_pos (e - 52)) as Pk.
  pose proof (round_half_even_bounds y) as [B1 B2].
  assert (F1 : (2 ^ 52 <= Qfloor y)%Z).
  { rewrite <- (Qfloor_Z (2 ^ 52)). now apply Qfloor_resp_le. }
  assert (F2 : (Qfloor y < 2 ^ 53)%Z).
  { pose proof (Qfloor_le y) as Hf.
    assert (Hlt : inject_Z (Qfloor y) < inject_Z (2 ^ 53)) by lra.
    now rewrite <- Zlt_Qlt in Hlt. }
  set (m := round_half_even y) in *.
  assert (M1 : inject_Z (2 ^ 52) <= inject_Z m) by (rewrite <- Zle_Qle; lia).
  assert (M2 : inject_Z m <= inject_Z (2 ^ 53)) by (rewrite <- Zle_Qle; lia).
  assert (E1 : pow2 e == inject_Z (2 ^ 52) * pow2 (e - 52)).
  { rewrite pow2_Z by lia. rewrite <- pow2_plus.
    now replace (52 + (e - 52))%Z with e by lia. }
  assert (E2 : pow2 (e + 1) == inject_Z (2 ^ 53) * pow2 (e - 52)).
  { rewrite pow2_Z by lia. rewrite <- pow2_plus.
    now replace (53 + (e - 52))%Z with (e + 1)%Z by lia. }
  rewrite E1, E2. split; apply Qmult_le_compat_r; lra.
Qed.

Lemma round64_zero (x : Q) : x == 0 -> round64 x = 0.
Proof. intros H. unfold round64. now rewrite (Qeq_eq_bool _ _ H). Qed.

Lemma round64_pos (x : Q) : 0 < x -> 0 < round64 x.
Proof.
  intros Hx. destruct (round64_range x Hx) as [R _].
  pose proof (pow2_pos (exponent x)). lra.
Qed.

(** Rounding is monotone on the values that are not negative. *)
Lemma round64_mono (x y : Q) :
  0 <= x -> x <= y -> round64 x <= round64 y.
Proof.
  intros Hx Hxy.
  destruct (Qlt_le_dec 0 x) as [Hpos|Hzero].
  2:{ rewrite (round64_zero x) by lra.
      destruct (Qlt_le_dec 0 y) as [Hy|Hy].
      - apply Qlt_le_weak. now apply round64_pos.
      - rewrite (round64_zero y) by lra. apply Qle_refl. }
  assert (Hy : 0 < y) by lra.
  pose proof (exponent_mono x y Hpos Hxy) as He.
  destruct (Z.eq_dec (exponent x) (exponent y)) as [E|E].
  - unfold round64.
    destruct (Qeq_bool x 0) eqn:E0; [apply Qeq_bool_iff in E0; lra|].
    destruct (Qeq_bool y 0) eqn:E1; [apply Qeq_bool_iff in E1; lra|].
    rewrite E. set (k := (exponent y - 52)%Z).
    pose proof (pow2_pos k) as Pk.
    apply Qmult_le_compat_r; [|lra].
    rewrite <- Zle_Qle. apply round_half_even_mono.
    unfold Qdiv. apply Qmult_le_compat_r; [exact Hxy|].
    apply Qinv_le_0_compat. lra.
  - destruct (round64_range x Hpos) as [_ RX].
    destruct (round64_range y Hy) as [RY _].
    assert (P : pow2 (exponent x + 1) <= pow2 (exponent y))
      by (apply pow2_le; lia).
    lra.
Qed.



End Rounding.

(** ** The Jansen estimator *)

Section JansenProps.
Context {RS : RandomState} {SP : Special}.

Import Jansen JansenSpec.

Lemma np_true_divide_feq (x x' y y' : float64) :
  feq x x' -> feq y y' -> feq (np_true_divide x y) (np_true_divide x' y').
Proof.
  destruct x as [a|], x' as [a'|], y as [b|], y' as [b'|];
    simpl; try tauto.
  intros Ha Hb.
  destruct (Qeq_bool b 0) eqn:E; destruct (Qeq_bool b' 0) eqn:E'; simpl.
  - exact I.
  - apply Qeq_bool_eq in E. apply Qeq_bool_neq in E'.
    exfalso. apply E'. now rewrite <- Hb.
  - apply Qeq_bool_eq in E'. apply Qeq_bool_neq in E.
    exfalso. apply E. now rewrite Hb.
  - now rewrite Ha, Hb.
Qed.

(** The quotient of the two Python ints equals [D + 1] exactly when the
    length is [sample_sets * (D + 1)]. *)
Lemma shape_check_iff (len s : Z) (D : nat) :
  s <> 0%Z ->
  inject_Z len / inject_Z s == inject_Z (Z.of_nat D + 1)
  <-> len = (s * (Z.of_nat D + 1))%Z.
Proof.
  intros Hs.
  assert (Hq : ~ inject_Z s == 0).
  { intros H. apply Hs. apply inject_Z_injective. exact H. }
  split; intros H.
  - apply inject_Z_injective. rewrite inject_Z_mult, <- H.
    now rewrite Qmult_div_r.
  - subst len. rewrite inject_Z_mult. now rewrite Qmult_comm, Qdiv_mult_l.
Qed.

Lemma shape_precondition_iff (problem : Problem) (Y : list Q) (s : Z) :
  shape_precondition problem Y s
  <-> (1 <= s)%Z
      /\ Z.of_nat (length Y) = (s * (Z.of_nat (num_vars problem) + 1))%Z.
Proof.
  unfold shape_precondition. split.
  - intros H. destruct (Z.eq_dec s 0) as [->|Hs].
    + exfalso. unfold Qdiv in H. change (/ inject_Z 0) with 0 in H.
      rewrite Qmult_0_r in H. symmetry in H.
      apply (proj1 (inject_Z_injective _ 0%Z)) in H. lia.
    + apply shape_check_iff in H; [|assumption]. split; [|assumption]. nia.
  - intros [Hs H]. apply shape_check_iff; [lia | assumption].
Qed.

Lemma randint_vec_spec {RSL : RandomStateLaws RS} (high : nat) :
  (0 < high)%nat ->
  forall count g,
    length (fst (Rand.randint_vec high count g)) = count
    /\ Forall (fun x => (x < high)%nat) (fst (Rand.randint_vec high count g)).
Proof.
  intros Hh. induction count as [|n IH]; intros g; simpl.
  - split; [reflexivity | constructor].
  - pose proof (randint_range high g Hh) as Hr.
    destruct (randint high g) as [x g1]. simpl in Hr.
    specialize (IH g1).
    destruct (Rand.randint_vec high n g1) as [xs g2]. simpl in *.
    destruct IH as [IH1 IH2]. split; [now rewrite IH1 | now constructor].
Qed.

Lemma randint_mat_spec {RSL : RandomStateLaws RS} (high ncols : nat) :
  (0 < high)%nat ->
  forall nrows g,
    Forall (fun r => length r = ncols
                     /\ Forall (fun x => (x < high)%nat) r)
           (fst (Rand.randint_mat high nrows ncols g)).
Proof.
  intros Hh. induction nrows as [|n IH]; intros g; simpl.
  - constructor.
  - pose proof (randint_vec_spec high Hh ncols g) as Hr.
    destruct (Rand.randint_vec high ncols g) as [r g1]. simpl in Hr.
    specialize (IH g1).
    destruct (Rand.randint_mat high n ncols g1) as [rs g2]. simpl in *.
    now constructor.
Qed.

Lemma take_in_range (a : array2) (index : list (list nat)) :
  Forall (Forall (fun x => (x < shape0 a)%nat)) index ->
  take a index = Ok (map (map (fun ix => nth ix (rows a) [])) index).
Proof.
  intros H. unfold take.
  replace (forallb _ index) with true; [reflexivity|].
  symmetry. apply forallb_forall. intros r Hr.
  rewrite Forall_forall in H. specialize (H r Hr).
  apply forallb_forall. intros x Hx. rewrite Forall_forall in H.
  apply Nat.ltb_lt. now apply H.
Qed.

Lemma conf_level_check (conf : Q) :
  negb (Qlt_bool 0 conf && Qlt_bool conf 1) = false <-> 0 < conf /\ conf < 1.
Proof.
  unfold Qlt_bool. rewrite negb_false_iff, andb_true_iff, !negb_true_iff.
  split; intros [H1 H2].
  - split; apply Qnot_le_lt; intros H; apply Qle_bool_iff in H; congruence.
  - split; apply not_true_is_false; intros H; apply Qle_bool_iff in H;
      [apply (Qlt_not_le _ _ H1) | apply (Qlt_not_le _ _ H2)]; assumption.
Qed.

(** With a valid confidence level and non-negative sizes the bootstrap
    returns, and its value is [conf_values] at the indices drawn. *)
Lemma confidence_returns {RSL : RandomStateLaws RS}
  (si : array2) (base_var : float64) (N nres : Z) (conf : Q) (g : rng) :
  0 < conf -> conf < 1 -> (0 <= nres)%Z -> (1 <= N)%Z ->
  (0 < shape1 si)%nat ->
  compute_radial_si_confidence si base_var N nres conf g
  = (Ok (JansenAux.conf_values si base_var N conf
           (fst (Rand.randint_mat (shape1 si) (Z.to_nat nres) (Z.to_nat N) g))),
     snd (Rand.randint_mat (shape1 si) (Z.to_nat nres) (Z.to_nat N) g)).
Proof.
  intros Hc0 Hc1 Hn HN Hs.
  unfold compute_radial_si_confidence.
  rewrite (proj2 (conf_level_check conf)) by (split; assumption).
  unfold Rand.bind at 1. unfold Rand.randint_size2.
  replace ((nres <? 0)%Z || (N <? 0)%Z) with false
    by (symmetry; apply orb_false_iff; split; apply Z.ltb_ge; lia).
  cbn [T shape0 shape1].
  replace (shape1 si =? 0)%nat with false
    by (symmetry; apply Nat.eqb_neq; lia).
  pose proof (randint_mat_spec (shape1 si) (Z.to_nat N) Hs (Z.to_nat nres) g) as Hidx.
  destruct (Rand.randint_mat (shape1 si) (Z.to_nat nres) (Z.to_nat N) g)
    as [idx g'] eqn:E.
  cbn [fst snd] in *.
  unfold Rand.bind, Rand.lift.
  rewrite take_in_range.
  2:{ cbn [T shape0]. eapply Forall_impl; [|exact Hidx]. intros r [_ Hr].
      exact Hr. }
  unfold jansen_estimator.
  replace (N =? 0)%Z with false by (symmetry; apply Z.eqb_neq; lia).
  reflexivity.
Qed.

Lemma shape_check_true (problem : Problem) (Y : list Q) (s : Z) :
  shape_precondition problem Y s ->
  Qeq_bool (inject_Z (Z.of_nat (length Y)) / inject_Z s)
           (inject_Z (Z.of_nat (num_vars problem) + 1)) = true.
Proof. intros H. now apply Qeq_eq_bool. Qed.

(** A call that satisfies the shape precondition, passes no seed (or the
    seed 0), a confidence level inside (0, 1) and a non-negative number of
    resamples returns a result. *)
Lemma analyze_returns {RSL : RandomStateLaws RS}
  (problem : Problem) (Y : list Q) (s nres : Z) (conf : Q)
  (seed : option Z) (g : rng) :
  shape_precondition problem Y s ->
  truthy seed = false ->
  0 < conf -> conf < 1 -> (0 <= nres)%Z ->
  let D := num_vars problem in
  let st := JansenAux.st_array D s Y in
  let drawn := Rand.randint_mat (Z.to_nat s) (Z.to_nat nres) (Z.to_nat s) g in
  analyze problem Y s nres conf seed g
  = (Ok {| Si_names := names problem;
           Si_ST := JansenAux.ST_values D s Y;
           Si_ST_conf :=
             JansenAux.conf_values st (np_var (slice_step 0 (D + 1) Y))
                                   s conf (fst drawn) |},
     snd drawn).
Proof.
  intros Hshape Hseed Hc0 Hc1 Hn D st drawn.
  pose proof (proj1 (shape_precondition_iff problem Y s) Hshape) as [Hs Hlen].
  unfold analyze. unfold Rand.bind at 1. unfold Rand.lift at 1.
  unfold true_div.
  replace (s =? 0)%Z with false by (symmetry; apply Z.eqb_neq; lia).
  unfold Rand.bind at 1. unfold Rand.lift at 1.
  rewrite (shape_check_true problem Y s Hshape). cbn [py_assert].
  unfold Rand.bind at 1.
  replace (match seed with
           | Some s0 => if truthy seed then Rand.call_attr "set_seed" s0
                        else Rand.ret tt
           | None => Rand.ret tt
           end g) with (Ok tt, g)
    by (destruct seed; [rewrite Hseed|]; reflexivity).
  unfold Rand.bind at 1. unfold Rand.lift at 1. unfold np_empty_shape.
  replace (s <? 0)%Z with false by (symmetry; apply Z.ltb_ge; lia).
  cbn [fst snd].
  unfold Rand.bind at 1. unfold Rand.lift at 1. unfold jansen_estimator at 1.
  replace (s =? 0)%Z with false by (symmetry; apply Z.eqb_neq; lia).
  unfold Rand.bind at 1.
  fold D. change {| shape0 := D; shape1 := Z.to_nat s;
                    rows := _ |} with st.
  rewrite confidence_returns; try assumption;
    [| cbn [st JansenAux.st_array shape1]; lia].
  reflexivity.
Qed.

(** The rows of [st]: one per dimension, holding the elementary effects
    across the replicates. *)
Lemma st_row (D : nat) (s : Z) (Y : list Q) (i0 : nat) :
  (1 <= s)%Z -> Z.of_nat (length Y) = (s * (Z.of_nat D + 1))%Z ->
  (i0 < D)%nat ->
  nth i0 (rows (JansenAux.st_array D s Y)) []
  = map (fun k => block_entry D Y k 0 - block_entry D Y k (i0 + 1))
        (seq 0 (Z.to_nat s)).
Proof.
  intros Hs Hlen Hi.
  assert (HL : length Y = (Z.to_nat s * (D + 1))%nat) by nia.
  cbn [JansenAux.st_array rows].
  rewrite nth_map_seq by assumption.
  unfold slice_step.
  rewrite (every_nth_blocks 0 (D + 1) (Z.to_nat s) Y 0 HL) by lia.
  rewrite (every_nth_blocks 0 (D + 1) (Z.to_nat s) Y (i0 + 1) HL) by lia.
  apply map2_map_seq.
Qed.

Lemma slice_base (D : nat) (s : Z) (Y : list Q) :
  (1 <= s)%Z -> Z.of_nat (length Y) = (s * (Z.of_nat D + 1))%Z ->
  slice_step 0 (D + 1) Y = Y_base D (Z.to_nat s) Y.
Proof.
  intros Hs Hlen.
  assert (HL : length Y = (Z.to_nat s * (D + 1))%nat) by nia.
  unfold slice_step. now rewrite (every_nth_blocks 0 (D + 1) (Z.to_nat s) Y 0 HL) by lia.
Qed.

Lemma st_rows_length (D : nat) (s : Z) (Y : list Q) :
  length (rows (JansenAux.st_array D s Y)) = D.
Proof. cbn [JansenAux.st_array rows]. now rewrite length_map, length_seq. Qed.

(** Entry [i0] of the Jansen estimator applied to [st.T]. *)
Lemma jansen_value_st (D : nat) (s : Z) (Y : list Q) (i0 : nat) :
  (1 <= s)%Z -> Z.of_nat (length Y) = (s * (Z.of_nat D + 1))%Z ->
  (i0 < D)%nat ->
  nth i0 (JansenAux.jansen_value (A := list Q) (ND := nd_axis) s (D, tt)
            (rows (T (JansenAux.st_array D s Y)))) 0
  == effect_sq_sum D (Z.to_nat s) Y (i0 + 1) / (2 * inject_Z s).
Proof.
  intros Hs Hlen Hi.
  unfold JansenAux.jansen_value. cbn [nd_map nd_axis nd_scalar].
  set (sq := fun x : Q => x ^ 2).
  set (rowsT := rows (T (JansenAux.st_array D s Y))).
  assert (HrowsT : Forall (fun r => length r = D) (map (map sq) rowsT)).
  { apply Forall_forall. intros r Hr. apply in_map_iff in Hr.
    destruct Hr as [r0 [<- Hr0]]. rewrite length_map.
    unfold rowsT in Hr0. cbn [T rows] in Hr0.
    apply in_map_iff in Hr0. destruct Hr0 as [k [<- _]].
    rewrite length_map. apply st_rows_length. }
  rewrite (nth_map_in _ 0) by (rewrite sum_axis0_vec_length; assumption).
  rewrite (sum_axis0_vec_nth D _ i0 HrowsT Hi).
  rewrite map_map. unfold rowsT. cbn [T rows]. rewrite map_map.
  cbn [JansenAux.st_array shape1]. unfold effect_sq_sum.
  rewrite (Qsum_ext_eq _
             (fun k => (block_entry D Y k 0 - block_entry D Y k (i0 + 1)) ^ 2)).
  - unfold Qdiv. ring.
  - intros k Hk. apply in_seq in Hk.
    rewrite (nth_map_in _ 0)
      by (rewrite length_map, st_rows_length; assumption).
    rewrite (nth_map_in _ []) by (rewrite st_rows_length; assumption).
    rewrite (st_row D s Y i0 Hs Hlen Hi).
    rewrite nth_map_seq by lia. reflexivity.
Qed.

Lemma rowsT_lengths (D : nat) (s : Z) (Y : list Q) :
  Forall (fun r => length r = D) (rows (T (JansenAux.st_array D s Y))).
Proof.
  apply Forall_forall. intros r Hr. cbn [T rows] in Hr.
  apply in_map_iff in Hr. destruct Hr as [k [<- _]].
  rewrite length_map. apply st_rows_length.
Qed.

Lemma jansen_value_vec_length (D : nat) (N : Z) (rs : list (list Q)) :
  Forall (fun r => length r = D) rs ->
  length (JansenAux.jansen_value (A := list Q) (ND := nd_axis) N (D, tt) rs)
  = D.
Proof.
  intros H. unfold JansenAux.jansen_value. cbn [nd_map nd_axis nd_scalar].
  rewrite length_map. apply sum_axis0_vec_length.
  apply Forall_forall. intros r Hr. apply in_map_iff in Hr.
  destruct Hr as [r0 [<- Hr0]]. rewrite length_map.
  rewrite Forall_forall in H. now apply H.
Qed.

Lemma ST_values_length (D : nat) (s : Z) (Y : list Q) :
  length (JansenAux.ST_values D s Y) = D.
Proof.
  unfold JansenAux.ST_values. rewrite length_map.
  apply jansen_value_vec_length, rowsT_lengths.
Qed.

Lemma np_var_ddof0 (a : list Q) :
  a <> [] -> feq (np_var a) (Fin (variance_ddof 0 a)).
Proof.
  destruct a as [|x t]; [congruence|]. intros _.
  unfold np_var, variance_ddof, feq.
  apply Qdiv_comp; [reflexivity|]. change (inject_Z 0) with 0. ring.
Qed.

(** [ST] as the code computes it, entry by entry. *)
Lemma ST_values_nth (D : nat) (s : Z) (Y : list Q) (i0 : nat) :
  (1 <= s)%Z -> Z.of_nat (length Y) = (s * (Z.of_nat D + 1))%Z ->
  (i0 < D)%nat ->
  feq (nth i0 (JansenAux.ST_values D s Y) NonFin)
      (total_effect 0 D s Y (i0 + 1)).
Proof.
  intros Hs Hlen Hi. unfold JansenAux.ST_values, total_effect.
  rewrite (nth_map_in _ 0)
    by (rewrite jansen_value_vec_length; [assumption | apply rowsT_lengths]).
  apply np_true_divide_feq.
  - cbn [feq]. now apply jansen_value_st.
  - rewrite (slice_base D s Y Hs Hlen). apply np_var_ddof0.
    unfold Y_base. destruct (Z.to_nat s) eqn:E; [lia | discriminate].
Qed.

(** *** The bootstrap statistic *)









Lemma fnonneg_not_negative (x : float64) : fnonneg x -> fnot_negative x.
Proof. destruct x; cbn [fnonneg fnot_negative]; tauto. Qed.







(** *** Every way the call can end *)

Lemma analyze_zero_sample_sets (problem : Problem) (Y : list Q)
  (nres : Z) (conf : Q) (seed : option Z) (g : rng) :
  analyze problem Y 0 nres conf seed g = (Raise ZeroDivisionError, g).
Proof. reflexivity. Qed.

Lemma analyze_shape_mismatch (problem : Problem) (Y : list Q)
  (s nres : Z) (conf : Q) (seed : option Z) (g : rng) :
  s <> 0%Z -> ~ shape_precondition problem Y s ->
  analyze problem Y s nres conf seed g = (Raise AssertionError, g).
Proof.
  intros Hs Hshape. unfold analyze, Rand.bind at 1, Rand.lift at 1, true_div.
  replace (s =? 0)%Z with false by (symmetry; apply Z.eqb_neq; lia).
  unfold Rand.bind at 1, Rand.lift at 1.
  replace (Qeq_bool _ _) with false; [reflexivity|].
  symmetry. apply not_true_is_false. intros H. apply Hshape.
  now apply Qeq_bool_eq.
Qed.

(** Past the shape check the call reaches [np.random.set_seed], the
    confidence-level check and the drawing of the indices, in this order. *)
Lemma analyze_after_shape_check (problem : Problem) (Y : list Q)
  (s nres : Z) (conf : Q) (seed : option Z) (g : rng) :
  shape_precondition problem Y s ->
  analyze problem Y s nres conf seed g
  = if truthy seed then (Raise AttributeError, g)
    else
      match compute_radial_si_confidence
              (JansenAux.st_array (num_vars problem) s Y)
              (np_var (slice_step 0 (num_vars problem + 1) Y))
              s nres conf g
      with
      | (Ok ST_conf, g') =>
          (Ok {| Si_names := names problem;
                 Si_ST := JansenAux.ST_values (num_vars problem) s Y;
                 Si_ST_conf := ST_conf |}, g')
      | (Raise e, g') => (Raise e, g')
      end.
Proof.
  intros Hshape.
  pose proof (proj1 (shape_precondition_iff problem Y s) Hshape) as [Hs Hlen].
  unfold analyze. unfold Rand.bind at 1. unfold Rand.lift at 1.
  unfold true_div.
  replace (s =? 0)%Z with false by (symmetry; apply Z.eqb_neq; lia).
  unfold Rand.bind at 1. unfold Rand.lift at 1.
  rewrite (shape_check_true problem Y s Hshape). cbn [py_assert].
  unfold Rand.bind at 1.
  destruct seed as [z|]; cbn [truthy].
  - destruct (negb (z =? 0)%Z) eqn:Ez.
    + reflexivity.
    + cbn [Rand.ret].
      unfold Rand.bind at 1. unfold Rand.lift at 1. unfold np_empty_shape.
      replace (s <? 0)%Z with false by (symmetry; apply Z.ltb_ge; lia).
      unfold Rand.bind at 1. unfold Rand.lift at 1.
      unfold jansen_estimator at 1.
      replace (s =? 0)%Z with false by (symmetry; apply Z.eqb_neq; lia).
      reflexivity.
  - cbn [Rand.ret].
    unfold Rand.bind at 1. unfold Rand.lift at 1. unfold np_empty_shape.
    replace (s <? 0)%Z with false by (symmetry; apply Z.ltb_ge; lia).
    unfold Rand.bind at 1. unfold Rand.lift at 1.
    unfold jansen_estimator at 1.
    replace (s =? 0)%Z with false by (symmetry; apply Z.eqb_neq; lia).
    reflexivity.
Qed.

Lemma confidence_invalid_level (si : array2) (base_var : float64)
  (N nres : Z) (conf : Q) (g : rng) :
  ~ (0 < conf /\ conf < 1) ->
  compute_radial_si_confidence si base_var N nres conf g
  = (Raise ValueError, g).
Proof.
  intros H. unfold compute_radial_si_confidence.
  destruct (negb (Qlt_bool 0 conf && Qlt_bool conf 1)) eqn:E;
    [reflexivity|].
  exfalso. apply H. now apply conf_level_check.
Qed.

Lemma confidence_negative_resamples (si : array2) (base_var : float64)
  (N nres : Z) (conf : Q) (g : rng) :
  0 < conf -> conf < 1 -> (nres < 0)%Z ->
  compute_radial_si_confidence si base_var N nres conf g
  = (Raise ValueError, g).
Proof.
  intros H0 H1 Hn. unfold compute_radial_si_confidence.
  rewrite (proj2 (conf_level_check conf)) by (split; assumption).
  unfold Rand.bind at 1. unfold Rand.randint_size2.
  replace (nres <? 0)%Z with true by (symmetry; apply Z.ltb_lt; lia).
  reflexivity.
Qed.

(** The bootstrap never raises an assertion error. *)
Lemma confidence_no_assertion (si : array2) (base_var : float64)
  (N nres : Z) (conf : Q) (g : rng) :
  fst (compute_radial_si_confidence si base_var N nres conf g)
  <> Raise AssertionError.
Proof.
  unfold compute_radial_si_confidence.
  destruct (negb (Qlt_bool 0 conf && Qlt_bool conf 1)); [discriminate|].
  unfold Rand.bind at 1. unfold Rand.randint_size2.
  destruct ((nres <? 0)%Z || (N <? 0)%Z); [discriminate|].
  destruct (shape0 (T si) =? 0)%nat; [discriminate|].
  destruct (Rand.randint_mat _ _ _ g) as [idx g'].
  unfold Rand.bind at 1. unfold Rand.lift at 1. unfold take.
  destruct (forallb _ idx); [|discriminate].
  unfold Rand.bind at 1. unfold Rand.lift at 1. unfold jansen_estimator.
  destruct (N =? 0)%Z; discriminate.
Qed.




(** A supplied non-zero seed makes the call look up [np.random.set_seed],
    a name the module does not define (its seeding function is
    [np.random.seed], the one [radial.sample] calls): the call raises
    [AttributeError] before anything is computed. *)
Lemma analyze_seeded_raises (problem : Problem) (Y : list Q)
  (s nres : Z) (conf : Q) (seed : option Z) (g : rng) :
  shape_precondition problem Y s -> truthy seed = true ->
  analyze problem Y s nres conf seed g = (Raise AttributeError, g).
Proof.
  intros Hshape Hseed.
  rewrite analyze_after_shape_check by assumption. now rewrite Hseed.
Qed.

(** C6, in the form that holds of the code.  For [sample_sets <> 0], [analyze] fails with the
    shape-mismatch (assertion) error, and hence returns no result, if and
    only if [Y.length / sample_sets] is not exactly [D + 1]; when the check
    fails the error is raised at once, before the generator is touched.
    Whenever the quotient equals [D + 1] the check passes. *)
Theorem analyze_shape_mismatch_iff (problem : Problem) (Y : list Q)
  (s nres : Z) (conf : Q) (seed : option Z) (g : rng) :
  s <> 0%Z ->
  (fst (analyze problem Y s nres conf seed g) = Raise AssertionError
   <-> ~ shape_precondition problem Y s)
  /\ (~ shape_precondition problem Y s ->
      analyze problem Y s nres conf seed g = (Raise AssertionError, g)).
Proof.
  intros Hs. split; [split|].
  - intros H Hshape.
    rewrite analyze_after_shape_check in H by assumption.
    destruct (truthy seed); [discriminate|].
    pose proof (confidence_no_assertion
                  (JansenAux.st_array (num_vars problem) s Y)
                  (np_var (slice_step 0 (num_vars problem + 1) Y))
                  s nres conf g) as Hc.
    destruct (compute_radial_si_confidence _ _ s nres conf g) as [[v|e] g'];
      cbn [fst] in *; [discriminate|].
    apply Hc. congruence.
  - intros H. now rewrite analyze_shape_mismatch.
  - intros H. now apply analyze_shape_mismatch.
Qed.

(** C7, in the form that holds of the code.  For a call that satisfies the
    shape precondition,
    passes no seed (or the seed 0) and a non-negative [num_resamples], the
    call fails with a value error, and returns no result, if and only if
    [conf_level] lies outside the open interval (0, 1). *)
Theorem analyze_value_error_iff {RSL : RandomStateLaws RS}
  (problem : Problem) (Y : list Q) (s nres : Z) (conf : Q)
  (seed : option Z) (g : rng) :
  shape_precondition problem Y s ->
  truthy seed = false ->
  (0 <= nres)%Z ->
  (fst (analyze problem Y s nres conf seed g) = Raise ValueError
   <-> ~ (0 < conf /\ conf < 1)).
Proof.
  intros Hshape Hseed Hn. split.
  - intros H [H0 H1].
    rewrite (analyze_returns problem Y s nres conf seed g) in H
      by assumption.
    discriminate.
  - intros H. rewrite analyze_after_shape_check by assumption.
    rewrite Hseed. now rewrite confidence_invalid_level.
Qed.

(** C1, in the form that holds of the code.  For every [Y] of length
    [sample_sets * (D + 1)]
    with [sample_sets >= 1], in a call that returns (no seed or the seed 0,
    a confidence level inside (0, 1), a non-negative number of resamples),
    [analyze] returns [ST] with one entry per dimension, and for each
    dimension [i] in 1..D
    [ST_i = (sum over replicates of (Y_base - Y_perturbed_i)^2)
            / (2 * sample_sets) / base_variance],
    where [Y_base] is the position-0 entry and [Y_perturbed_i] the
    position-[i] entry of each contiguous (D+1)-block of [Y], and
    [base_variance] is the variance of [Y_base] with divisor [sample_sets]
    (numpy's [ddof = 0]); a zero [base_variance] gives a non-finite [ST_i]. *)
Theorem analyze_total_effect {RSL : RandomStateLaws RS}
  (problem : Problem) (Y : list Q) (s nres : Z) (conf : Q)
  (seed : option Z) (g : rng) :
  Z.of_nat (length Y) = (s * (Z.of_nat (num_vars problem) + 1))%Z ->
  (1 <= s)%Z ->
  truthy seed = false ->
  0 < conf -> conf < 1 -> (0 <= nres)%Z ->
  exists Si g',
    analyze problem Y s nres conf seed g = (Ok Si, g')
    /\ length (Si_ST Si) = num_vars problem
    /\ forall i, (1 <= i <= num_vars problem)%nat ->
         feq (nth (i - 1) (Si_ST Si) NonFin)
             (total_effect 0 (num_vars problem) s Y i).
Proof.
  intros Hlen Hs Hseed H0 H1 Hn.
  assert (Hshape : shape_precondition problem Y s)
    by (apply shape_precondition_iff; split; assumption).
  eexists. eexists. split; [|split].
  - apply analyze_returns; assumption.
  - cbn [Si_ST]. apply ST_values_length.
  - intros i Hi. cbn [Si_ST].
    replace i with (i - 1 + 1)%nat at 2 by lia.
    apply ST_values_nth; try assumption. lia.
Qed.

Lemma shape_precondition_dec (problem : Problem) (Y : list Q) (s : Z) :
  {shape_precondition problem Y s} + {~ shape_precondition problem Y s}.
Proof. unfold shape_precondition. apply Qeq_dec. Qed.

Lemma conf_level_dec (conf : Q) : {0 < conf /\ conf < 1} + {~ (0 < conf /\ conf < 1)}.
Proof.
  destruct (Qlt_le_dec 0 conf) as [H0|H0];
    destruct (Qlt_le_dec conf 1) as [H1|H1]; [left; tauto | | |];
    right; intros [A B];
    solve [apply (Qlt_not_le _ _ A H0) | apply (Qlt_not_le _ _ B H1)].
Qed.

(** A call that returns has passed the shape check without a seed. *)
Lemma analyze_ok_inv (problem : Problem) (Y : list Q) (s nres : Z)
  (conf : Q) (seed : option Z) (g g' : rng) (Si : ResultDict) :
  analyze problem Y s nres conf seed g = (Ok Si, g') ->
  shape_precondition problem Y s
  /\ truthy seed = false
  /\ Si_names Si = names problem
  /\ Si_ST Si = JansenAux.ST_values (num_vars problem) s Y.
Proof.
  intros Hrun.
  destruct (Z.eq_dec s 0) as [->|Hs].
  { rewrite analyze_zero_sample_sets in Hrun. discriminate. }
  destruct (shape_precondition_dec problem Y s) as [Hshape|Hshape].
  2:{ rewrite analyze_shape_mismatch in Hrun by assumption. discriminate. }
  rewrite analyze_after_shape_check in Hrun by assumption.
  destruct (truthy seed); [discriminate|].
  destruct (compute_radial_si_confidence _ _ s nres conf g) as [[v|e] g1];
    [|discriminate].
  injection Hrun as <- _. cbn [Si_names Si_ST]. tauto.
Qed.

(** What a returning call returns, and the state it leaves. *)
Lemma analyze_ok_full {RSL : RandomStateLaws RS}
  (problem : Problem) (Y : list Q) (s nres : Z) (conf : Q)
  (seed : option Z) (g g' : rng) (Si : ResultDict) :
  analyze problem Y s nres conf seed g = (Ok Si, g') ->
  let D := num_vars problem in
  let drawn := Rand.randint_mat (Z.to_nat s) (Z.to_nat nres) (Z.to_nat s) g in
  shape_precondition problem Y s
  /\ truthy seed = false
  /\ (0 < conf /\ conf < 1) /\ (0 <= nres)%Z
  /\ Si = {| Si_names := names problem;
             Si_ST := JansenAux.ST_values D s Y;
             Si_ST_conf :=
               JansenAux.conf_values (JansenAux.st_array D s Y)
                 (np_var (slice_step 0 (D + 1) Y)) s conf (fst drawn) |}
  /\ g' = snd drawn.
Proof.
  intros Hrun D drawn.
  destruct (analyze_ok_inv _ _ _ _ _ _ _ _ _ Hrun) as [Hsh [Hseed _]].
  assert (Hc : 0 < conf /\ conf < 1).
  { destruct (conf_level_dec conf) as [Hc|Hc]; [exact Hc|].
    rewrite analyze_after_shape_check, Hseed in Hrun by assumption.
    rewrite confidence_invalid_level in Hrun by assumption. discriminate. }
  assert (Hn : (0 <= nres)%Z).
  { destruct (Z_lt_le_dec nres 0) as [Hn|Hn]; [|exact Hn].
    rewrite analyze_after_shape_check, Hseed in Hrun by assumption.
    rewrite confidence_negative_resamples in Hrun by tauto. discriminate. }
  rewrite (analyze_returns problem Y s nres conf seed g) in Hrun
    by tauto.
  cbv zeta in Hrun. injection Hrun as E1 E2.
  repeat (split; [tauto|]). split; [symmetry; exact E1|symmetry; exact E2].
Qed.

Lemma conf_values_length (si : array2) (v : float64) (N : Z) (conf : Q)
  (index : list (list nat)) :
  length (JansenAux.conf_values si v N conf index) = shape0 si.
Proof.
  unfold JansenAux.conf_values, std_ddof1_axis0.
  now rewrite !length_map, length_seq.
Qed.


End JansenProps.

(** ** The reference instances satisfy the laws *)

Lemma demo_rng_laws : RandomStateLaws Demo.demo_rng.
Proof.
  constructor.
  - intros high g Hh. cbn [randint Demo.demo_rng fst].
    pose proof (Z.mod_pos_bound g (Z.of_nat high) ltac:(lia)). lia.
  - intros low high g Hlt. cbn [uniform Demo.demo_rng fst].
    pose proof (Z.mod_pos_bound g 1024 ltac:(lia)) as Hm.
    set (f := (g mod 1024)%Z # 1024).
    assert (Hf0 : 0 <= f) by (unfold f, Qle; simpl; lia).
    assert (Hf1 : f < 1) by (unfold f, Qlt; simpl; lia).
    split; nra.
  - intros l g. cbn [shuffle Demo.demo_rng fst].
    set (k := Z.to_nat (g mod Z.of_nat (length l))).
    rewrite <- (firstn_skipn k l) at 1. apply Permutation_app_comm.
Qed.


(** ** The estimator on the third scenario of the specification

    [Y = [10, 12, 9, 20, 22, 21]], two blocks of three outputs. *)

Section JansenScenario.
Import Jansen JansenSpec Demo.

Lemma scenario_shape : shape_precondition problem2 Y3 2.
Proof. reflexivity. Qed.

Lemma analyze_shape_mismatch_iff_witness :
  3%Z <> 0%Z
  /\ ((fst (analyze (RS := demo_rng) problem2 Y3 3 16 (95 # 100) None 7%Z)
       = Raise AssertionError
       <-> ~ shape_precondition problem2 Y3 3)
      /\ (~ shape_precondition problem2 Y3 3 ->
          analyze (RS := demo_rng) problem2 Y3 3 16 (95 # 100) None 7%Z
          = (Raise AssertionError, 7%Z))).
Proof.
  split; [discriminate|].
  apply (analyze_shape_mismatch_iff (RS := demo_rng) problem2 Y3 3 16 (95 # 100) None 7%Z).
  discriminate.
Defined.

(** With [sample_sets = 0] the quotient [Y.length / sample_sets] is not
    [D + 1], yet the call does not end in the shape-mismatch error: the
    division itself raises [ZeroDivisionError]. *)
Lemma analyze_zero_sets_counterexample :
  ~ (fst (analyze (RS := demo_rng) problem2 Y3 0 16 (95 # 100) None 7%Z) = Raise AssertionError
     <-> ~ shape_precondition problem2 Y3 0).
Proof.
  intros [_ H].
  assert (Hn : ~ shape_precondition problem2 Y3 0)
    by (intros E; vm_compute in E; discriminate).
  specialize (H Hn). vm_compute in H. discriminate.
Qed.

Lemma analyze_value_error_iff_witness :
  shape_precondition problem2 Y3 2
  /\ truthy None = false
  /\ (0 <= 16)%Z
  /\ (fst (analyze (RS := demo_rng) problem2 Y3 2 16 (3 # 2) None 7%Z) = Raise ValueError
      <-> ~ (0 < 3 # 2 /\ 3 # 2 < 1)).
Proof.
  split; [exact scenario_shape|]. split; [reflexivity|].
  split; [discriminate|].
  apply (analyze_value_error_iff (RS := demo_rng) (RSL := demo_rng_laws)
           problem2 Y3 2 16 (3 # 2) None 7%Z).
  - exact scenario_shape.
  - reflexivity.
  - discriminate.
Defined.

(** A negative [num_resamples] makes numpy's [randint] raise a value error
    although the confidence level lies inside (0, 1). *)
Lemma analyze_negative_resamples_counterexample :
  shape_precondition problem2 Y3 2
  /\ ~ (fst (analyze (RS := demo_rng) problem2 Y3 2 (-1) (95 # 100) None 7%Z)
        = Raise ValueError
        <-> ~ (0 < 95 # 100 /\ 95 # 100 < 1)).
Proof.
  split; [exact scenario_shape|].
  intros [H _]. apply H; [reflexivity|]. split; reflexivity.
Qed.

(** C4: the call at a supplied seed.  [analyze] with [seed = 1] does not
    complete: it raises [AttributeError] (for every generator and every
    state of it), so no result is returned, let alone a reproducible one. *)
Theorem analyze_seeded_call_fails :
  forall (RS : RandomState) (SP : Special) (g : rng),
    analyze (RS := RS) problem2 Y3 2 1000 (95 # 100) (Some 1%Z) g
    = (Raise AttributeError, g).
Proof. intros RS SP g. reflexivity. Qed.

Lemma analyze_total_effect_witness :
  Z.of_nat (length Y3) = (2 * (Z.of_nat (num_vars problem2) + 1))%Z
  /\ (1 <= 2)%Z
  /\ truthy None = false
  /\ 0 < 95 # 100 /\ 95 # 100 < 1 /\ (0 <= 16)%Z
  /\ exists Si g',
       analyze (RS := demo_rng) problem2 Y3 2 16 (95 # 100) None 7%Z = (Ok Si, g')
       /\ length (Si_ST Si) = num_vars problem2
       /\ forall i, (1 <= i <= num_vars problem2)%nat ->
            feq (nth (i - 1) (Si_ST Si) NonFin)
                (total_effect 0 (num_vars problem2) 2 Y3 i).
Proof.
  repeat (split; [reflexivity || discriminate|]).
  apply (analyze_total_effect (RS := demo_rng) (RSL := demo_rng_laws)
           problem2 Y3 2 16 (95 # 100) None 7%Z);
    reflexivity || discriminate.
Defined.

(** Two inputs at which the formula, read with every [Y] of length
    [sample_sets * (D + 1)] and with the sample variance (divisor
    [sample_sets - 1]), fails.  With an empty [Y] and [sample_sets = 0] the
    length condition holds and the call raises instead of returning [ST].
    On the third scenario the sample variance of the baselines is 50 and
    would give [ST_1 = 8/4/50]; the call returns [8/4/25]. *)
Lemma analyze_total_effect_counterexample :
  (Z.of_nat (length (@nil Q)) = 0 * (Z.of_nat (num_vars problem2) + 1))%Z
  /\ fst (analyze (RS := demo_rng) problem2 [] 0 16 (95 # 100) None 7%Z)
     = Raise ZeroDivisionError
  /\ exists Si g',
       analyze (RS := demo_rng) problem2 Y3 2 16 (95 # 100) None 7%Z
       = (Ok Si, g')
       /\ ~ feq (nth 0 (Si_ST Si) NonFin) (total_effect 1 2 2 Y3 1).
Proof.
  split; [reflexivity|]. split; [reflexivity|].
  eexists. eexists. split; [vm_compute; reflexivity|].
  vm_compute. discriminate.
Qed.



End JansenScenario.

(** ** The radial OAT sampler *)

Section RadialLoop.
Import Radial RadialSpec.

Lemma get_rows_block (done mid rest : list (list Q)) (b : list Q) (D : nat) :
  length mid = D ->
  get_rows (length done + 1) (length done + D + 1)
           (done ++ b :: mid ++ rest) = mid.
Proof.
  intros Hmid. unfold get_rows.
  replace (length done + D + 1 - (length done + 1))%nat with D by lia.
  rewrite skipn_app.
  rewrite skipn_all2 by lia.
  replace (length done + 1 - length done)%nat with 1%nat by lia.
  cbn [app skipn]. rewrite firstn_app, firstn_all2 by lia.
  replace (D - length mid)%nat with 0%nat by lia.
  cbn [firstn]. apply app_nil_r.
Qed.

Lemma set_rows_block (done mid rest new : list (list Q)) (b : list Q) :
  length new = length mid ->
  set_rows (length done + 1) new (done ++ b :: mid ++ rest)
  = done ++ b :: new ++ rest.
Proof.
  intros Hlen. unfold set_rows.
  rewrite firstn_app, firstn_all2 by lia.
  replace (length done + 1 - length done)%nat with 1%nat by lia.
  cbn [firstn]. rewrite skipn_app, skipn_all2 by lia.
  replace (length done + 1 + length new - length done)%nat
    with (S (length mid)) by lia.
  cbn [skipn app]. rewrite skipn_app, skipn_all2 by lia.
  rewrite Nat.sub_diag. cbn [skipn app].
  rewrite <- app_assoc. reflexivity.
Qed.

Lemma np_diag_length (v : list Q) : length (np_diag v) = length v.
Proof. unfold np_diag. now rewrite length_map, length_seq. Qed.

Lemma copyto_length (dst src : list (list Q)) :
  length (copyto_where_nonzero dst src)
  = Nat.min (length dst) (length src).
Proof. apply map2_length. Qed.

(** The loop rewrites the repeated baselines block by block. *)
Lemma perturb_loop_blocks (D : nat) :
  forall (perts bases done : list (list Q)),
    length perts = length bases ->
    Forall (fun p => length p = D) perts ->
    perturb_loop D perts (length done) (done ++ np_repeat bases (D + 1))
    = done ++ concat (map2 (block D) bases perts).
Proof.
  induction perts as [|p perts IH]; intros bases done Hlen Hp.
  - destruct bases; [|discriminate]. reflexivity.
  - destruct bases as [|b bases]; [discriminate|].
    inversion Hp as [|? ? Hp1 Hp2]; subst.
    cbn [perturb_loop np_repeat flat_map map2 concat].
    fold (np_repeat bases (length p + 1)).
    replace (repeat b (length p + 1)) with (b :: repeat b (length p))
      by (rewrite Nat.add_1_r; reflexivity).
    rewrite <- app_comm_cons.
    rewrite get_rows_block by apply repeat_length.
    rewrite set_rows_block
      by (rewrite copyto_length, np_diag_length, !repeat_length;
          apply Nat.min_id).
    replace (length done + length p + 1)%nat
      with (length (done ++ b :: copyto_where_nonzero
                                   (repeat b (length p)) (np_diag p))).
    2:{ rewrite length_app. cbn [length].
        rewrite copyto_length, np_diag_length, repeat_length, Nat.min_id.
        lia. }
    replace (done ++ b :: copyto_where_nonzero (repeat b (length p))
                                               (np_diag p)
                  ++ np_repeat bases (length p + 1))
      with ((done ++ b :: copyto_where_nonzero (repeat b (length p))
                                               (np_diag p))
              ++ np_repeat bases (length p + 1))
      by (rewrite <- app_assoc; reflexivity).
    rewrite IH by (simpl in Hlen; lia || assumption).
    unfold block at 2. rewrite <- app_assoc. reflexivity.
Qed.

Lemma nth_concat_blocks (m : nat) :
  forall (bs : list (list (list Q))) (r q : nat),
    Forall (fun b => length b = m) bs ->
    (r < length bs)%nat -> (q < m)%nat ->
    nth (r * m + q) (concat bs) [] = nth q (nth r bs []) [].
Proof.
  induction bs as [|b bs IH]; intros r q Hall Hr Hq; simpl in Hr; [lia|].
  inversion Hall as [|? ? Hb Hbs]; subst.
  destruct r as [|r]; cbn [concat nth].
  - rewrite app_nth1 by lia. reflexivity.
  - rewrite app_nth2 by (simpl; lia).
    replace (S r * length b + q - length b)%nat
      with (r * length b + q)%nat by (simpl; lia).
    apply IH; [assumption | lia | assumption].
Qed.

Lemma length_concat_blocks (m : nat) (bs : list (list (list Q))) :
  Forall (fun b => length b = m) bs ->
  length (concat bs) = (length bs * m)%nat.
Proof.
  induction 1 as [|b bs Hb _ IH]; [reflexivity|].
  cbn [concat length]. rewrite length_app, IH, Hb. lia.
Qed.

Lemma block_length (D : nat) (b p : list Q) :
  length p = D -> length (block D b p) = (D + 1)%nat.
Proof.
  intros Hp. unfold block. cbn [length].
  rewrite copyto_length, np_diag_length, repeat_length, Hp, Nat.min_id. lia.
Qed.

Lemma list_as_map_nth (l : list Q) :
  l = map (fun k => nth k l 0) (seq 0 (length l)).
Proof.
  apply (nth_ext _ _ 0 0).
  - now rewrite length_map, length_seq.
  - intros n Hn. now rewrite nth_map_seq.
Qed.

(** Row [1 + j] of a block is the baseline overlaid in coordinate [j]. *)
Lemma block_row_overlay (D : nat) (b p : list Q) (j : nat) :
  length b = D -> length p = D -> (j < D)%nat ->
  nth (1 + j) (block D b p) [] = overlay j b p.
Proof.
  intros Hb Hp Hj. unfold block. cbn [nth Nat.add].
  unfold copyto_where_nonzero.
  rewrite (map2_nth _ [] [] [])
    by (rewrite ?repeat_length, ?np_diag_length; lia).
  rewrite nth_repeat_lt by assumption.
  unfold np_diag. rewrite nth_map_seq by lia.
  rewrite (list_as_map_nth b) at 1.
  rewrite Hb, Hp, map2_map_seq.
  unfold overlay. rewrite Hb. apply map_ext. intros k.
  rewrite Nat.eqb_sym.
  destruct (k =? j)%nat; cbn [andb]; [reflexivity|].
  reflexivity.
Qed.

Lemma overlay_length (j : nat) (b p : list Q) :
  length (overlay j b p) = length b.
Proof. unfold overlay. now rewrite length_map, length_seq. Qed.

Lemma block_rows_length (D : nat) (b p : list Q) :
  length b = D -> length p = D ->
  Forall (fun row => length row = D) (block D b p).
Proof.
  intros Hb Hp. apply Forall_nth. intros i d Hi.
  rewrite block_length in Hi by assumption.
  rewrite (nth_indep _ d []) by (rewrite block_length; assumption).
  destruct i as [|j]; [exact Hb|].
  change (S j) with (1 + j)%nat.
  rewrite block_row_overlay by (assumption || lia).
  now rewrite overlay_length.
Qed.

End RadialLoop.

Section RadialProps.
Context {RS : RandomState} {SS : SobolSequence}.
Import Radial RadialSpec.

Lemma scale_row_length (bnds : list (Q * Q)) (row : list Q) :
  length row = length bnds -> length (Util.scale_row bnds row) = length row.
Proof.
  intros H. unfold Util.scale_row. rewrite map2_length, H. apply Nat.min_id.
Qed.

Lemma call_seed (s : Z) : Rand.call_attr "seed" s = Rand.seed s.
Proof. reflexivity. Qed.

(** The call returns [design] whenever numpy accepts the seed. *)
Lemma sample_returns (problem : Problem) (N : nat) (seed : option Z)
  (g : rng) :
  seed_accepted seed ->
  exists g', sample problem N seed g = (Ok (design problem N), g').
Proof.
  intros Hseed. unfold sample, Rand.bind.
  destruct seed as [s|]; cbn [truthy seed_accepted] in *.
  - destruct (s =? 0)%Z eqn:E; cbn [negb].
    + eexists. reflexivity.
    + assert (Hr : (0 <= s < 2 ^ 32)%Z)
        by (destruct Hseed as [->|H]; [discriminate | exact H]).
      rewrite call_seed. unfold Rand.seed.
      replace ((0 <=? s)%Z && (s <? 2 ^ 32)%Z) with true.
      * eexists. reflexivity.
      * symmetry. apply andb_true_iff. split;
          [apply Z.leb_le | apply Z.ltb_lt]; lia.
  - eexists. reflexivity.
Qed.

Lemma sample_value (problem : Problem) (N : nat) (seed : option Z)
  (g g' : rng) (X : list (list Q)) :
  sample problem N seed g = (Ok X, g') -> X = design problem N.
Proof.
  unfold sample, Rand.bind.
  destruct (match seed with
            | Some s => if truthy seed then Rand.call_attr "seed" s
                        else Rand.ret tt
            | None => Rand.ret tt
            end g) as [[u|e] g1]; intros H; [|discriminate].
  unfold Rand.ret in H. injection H as <- _. reflexivity.
Qed.

(** C5, in the form that holds of the code.  For every problem, [N] and
    seed, two calls of the
    radial sampler with the same seed end in the same way and return
    identical matrices, whatever the state of the global generator; and two
    calls that differ in the seed return identical matrices as well: the
    seed only resets the global generator, from which the sampler never
    draws. *)
Theorem sample_ignores_seed (problem : Problem) (N : nat) :
  (forall seed g1 g2,
     fst (sample problem N seed g1) = fst (sample problem N seed g2))
  /\ (forall seed1 seed2 g1 g2 X1 X2,
        fst (sample problem N seed1 g1) = Ok X1 ->
        fst (sample problem N seed2 g2) = Ok X2 ->
        X1 = X2).
Proof.
  split.
  - intros seed g1 g2. unfold sample, Rand.bind.
    destruct seed as [s|]; cbn [truthy]; [|reflexivity].
    destruct (negb (s =? 0)%Z); [|reflexivity].
    rewrite call_seed. unfold Rand.seed.
    destruct ((0 <=? s)%Z && (s <? 2 ^ 32)%Z); reflexivity.
  - intros seed1 seed2 g1 g2 X1 X2 H1 H2.
    destruct (sample problem N seed1 g1) as [r1 g1'] eqn:E1.
    destruct (sample problem N seed2 g2) as [r2 g2'] eqn:E2.
    cbn [fst] in *. subst r1 r2.
    apply sample_value in E1. apply sample_value in E2. congruence.
Qed.

Section WithLaws.
Context {SSL : SobolLaws SS}.
Variable problem : Problem.
Variable N : nat.
Hypothesis bounds_length : length (bounds problem) = num_vars problem.

Let D := num_vars problem.

Lemma sequence_point_nth (count i : nat) :
  (i < count)%nat ->
  nth i (sobol_sample count D) [] = sequence_point D i.
Proof.
  intros Hi. unfold sequence_point. symmetry.
  apply sobol_prefix; lia.
Qed.

Lemma sequence_point_length (i : nat) : length (sequence_point D i) = D.
Proof.
  unfold sequence_point.
  pose proof (sobol_cols (S i) D) as H. rewrite Forall_forall in H.
  apply H, nth_In. rewrite sobol_rows. lia.
Qed.

Lemma bases_length : length (bases_of problem N) = N.
Proof.
  unfold bases_of, Util.scale_samples.
  rewrite length_map, length_skipn, sobol_rows. lia.
Qed.

Lemma perts_length : length (perts_of problem N) = N.
Proof.
  unfold perts_of, Util.scale_samples.
  rewrite length_map, length_skipn, sobol_rows. lia.
Qed.

Lemma bases_nth (r : nat) :
  (r < N)%nat -> nth r (bases_of problem N) [] = baseline problem r.
Proof.
  intros Hr. unfold bases_of, Util.scale_samples, baseline.
  rewrite (nth_map_in _ [])
    by (rewrite length_skipn, sobol_rows; lia).
  rewrite nth_skipn. fold D. rewrite sequence_point_nth by lia.
  reflexivity.
Qed.

Lemma perts_nth (r : nat) :
  (r < N)%nat -> nth r (perts_of problem N) [] = perturbation problem N r.
Proof.
  intros Hr. unfold perts_of, Util.scale_samples, perturbation.
  rewrite (nth_map_in _ [])
    by (rewrite length_skipn, sobol_rows; lia).
  rewrite nth_skipn. fold D. rewrite sequence_point_nth by lia.
  reflexivity.
Qed.

Lemma baseline_length (r : nat) : length (baseline problem r) = D.
Proof.
  unfold baseline. fold D.
  rewrite scale_row_length; rewrite sequence_point_length;
    [reflexivity | now rewrite bounds_length].
Qed.

Lemma perturbation_length (r : nat) : length (perturbation problem N r) = D.
Proof.
  unfold perturbation. fold D.
  rewrite scale_row_length; rewrite sequence_point_length;
    [reflexivity | now rewrite bounds_length].
Qed.

Lemma perts_rows_length :
  Forall (fun p => length p = D) (perts_of problem N).
Proof.
  apply Forall_nth. intros i d Hi. rewrite perts_length in Hi.
  rewrite (nth_indep _ d []) by (now rewrite perts_length).
  rewrite perts_nth by assumption. apply perturbation_length.
Qed.

(** The matrix is the concatenation of one block per replicate. *)
Lemma design_blocks :
  design problem N
  = concat (map2 (block D) (bases_of problem N) (perts_of problem N)).
Proof.
  unfold design. fold D.
  apply (perturb_loop_blocks D (perts_of problem N) (bases_of problem N) []).
  - now rewrite perts_length, bases_length.
  - apply perts_rows_length.
Qed.

Lemma blocks_nth (r : nat) :
  (r < N)%nat ->
  nth r (map2 (block D) (bases_of problem N) (perts_of problem N)) []
  = block D (baseline problem r) (perturbation problem N r).
Proof.
  intros Hr.
  rewrite (map2_nth _ [] [] [])
    by (rewrite ?bases_length, ?perts_length; assumption).
  now rewrite bases_nth, perts_nth.
Qed.

Lemma blocks_shape :
  Forall (fun b => length b = (D + 1)%nat)
         (map2 (block D) (bases_of problem N) (perts_of problem N)).
Proof.
  apply Forall_nth. intros r d Hr.
  rewrite map2_length, bases_length, perts_length, Nat.min_id in Hr.
  rewrite (nth_indep _ d [])
    by (now rewrite map2_length, bases_length, perts_length, Nat.min_id).
  rewrite blocks_nth by assumption.
  apply block_length, perturbation_length.
Qed.

Lemma design_row (r q : nat) :
  (r < N)%nat -> (q < D + 1)%nat ->
  block_row D (design problem N) r q
  = nth q (block D (baseline problem r) (perturbation problem N r)) [].
Proof.
  intros Hr Hq. unfold block_row. rewrite design_blocks.
  rewrite (nth_concat_blocks (D + 1)).
  - now rewrite blocks_nth.
  - apply blocks_shape.
  - now rewrite map2_length, bases_length, perts_length, Nat.min_id.
  - assumption.
Qed.

Lemma design_length : length (design problem N) = (N * (D + 1))%nat.
Proof.
  rewrite design_blocks, (length_concat_blocks (D + 1)) by apply blocks_shape.
  now rewrite map2_length, bases_length, perts_length, Nat.min_id.
Qed.

Lemma design_rows_length :
  Forall (fun row => length row = D) (design problem N).
Proof.
  rewrite design_blocks. apply Forall_concat.
  apply Forall_nth. intros r d Hr.
  rewrite map2_length, bases_length, perts_length, Nat.min_id in Hr.
  rewrite (nth_indep _ d [])
    by (now rewrite map2_length, bases_length, perts_length, Nat.min_id).
  rewrite blocks_nth by assumption.
  apply block_rows_length; [apply baseline_length|apply perturbation_length].
Qed.

Lemma overlay_nth (j k : nat) (b p : list Q) :
  nth k (overlay j b p) 0
  = if (k =? j)%nat && negb (Qeq_bool (nth j p 0) 0) && (k <? length b)%nat
    then nth j p 0 else nth k b 0.
Proof.
  destruct (Nat.ltb_spec k (length b)) as [Hk|Hk].
  - unfold overlay. rewrite nth_map_seq by assumption.
    now rewrite andb_true_r.
  - rewrite andb_false_r.
    rewrite !nth_overflow; [reflexivity | lia |].
    rewrite overlay_length. lia.
Qed.

(** C8.  For every [N] and [D] (in particular [N >= 1], [D >= 1]) the
    radial OAT sampler returns a matrix of [N * (D + 1)] rows and [D]
    columns.  Row 0 of block [r] is point [4 + r] of the low-discrepancy
    sequence scaled into the bounds (the first [discard = 4] points are
    dropped); the [D] rows that follow repeat that baseline, row [1 + j]
    carrying in coordinate [j] the value of point [R + r] ([R = N + 4]) of
    the same sequence scaled into the bounds, where that value is not zero.
    The baseline points [4 .. N+3] and the perturbation points
    [R .. R+N-1] do not overlap. *)
Theorem sample_design (seed : option Z) (g : rng) :
  seed_accepted seed ->
  exists X g',
    sample problem N seed g = (Ok X, g')
    /\ length X = (N * (num_vars problem + 1))%nat
    /\ Forall (fun row => length row = num_vars problem) X
    /\ (forall r, (r < N)%nat ->
          block_row (num_vars problem) X r 0 = baseline problem r
          /\ forall j, (j < num_vars problem)%nat ->
               block_row (num_vars problem) X r (1 + j)
               = overlay j (baseline problem r) (perturbation problem N r))
    /\ (forall r r', (r < N)%nat -> (r' < N)%nat ->
          (4 + r)%nat <> (N + 4 + r')%nat).
Proof.
  intros Hseed. destruct (sample_returns problem N seed g Hseed) as [g' Hrun].
  exists (design problem N), g'. split; [exact Hrun|].
  split; [apply design_length|]. split; [apply design_rows_length|].
  split.
  - intros r Hr. split.
    + rewrite design_row by (assumption || lia). reflexivity.
    + intros j Hj. rewrite design_row by (assumption || (fold D; lia)).
      apply block_row_overlay;
        [apply baseline_length | apply perturbation_length | assumption].
  - intros r r' Hr Hr'. lia.
Qed.

(** C2, in the form that holds of the code.  In every block of the
    matrix the radial OAT sampler returns, the perturbed row [1 + j]
    (dimension [j], counted from 0) agrees with the block's baseline row in
    every coordinate other than [j], so it differs from it in at most that
    one coordinate; in coordinate [j] it holds the scaled perturbation
    value of that replicate and dimension, or the baseline's value when the
    perturbation value is zero.  Hence the row differs from the baseline in
    no coordinate exactly when the perturbation value is zero or equals the
    baseline's value in coordinate [j]; when it is zero the row is the
    baseline. *)
Theorem perturbed_row_one_coordinate (seed : option Z) (g g' : rng)
  (X : list (list Q)) (r j : nat) :
  sample problem N seed g = (Ok X, g') ->
  (r < N)%nat -> (j < num_vars problem)%nat ->
  let base := block_row (num_vars problem) X r 0 in
  let row := block_row (num_vars problem) X r (1 + j) in
  let p := nth j (perturbation problem N r) 0 in
  (forall k, k <> j -> nth k row 0 = nth k base 0)
  /\ nth j row 0 = (if Qeq_bool p 0 then nth j base 0 else p)
  /\ ((forall k, (k < num_vars problem)%nat -> nth k row 0 == nth k base 0)
      <-> p == 0 \/ p == nth j base 0)
  /\ (p == 0 -> row = base).
Proof.
  intros Hrun Hr Hj base row p.
  apply sample_value in Hrun. subst X.
  assert (Hbase : base = baseline problem r).
  { unfold base. rewrite design_row by (assumption || lia). reflexivity. }
  assert (Hrow : row = overlay j (baseline problem r)
                               (perturbation problem N r)).
  { unfold row. rewrite design_row by (assumption || (fold D; lia)).
    apply block_row_overlay;
      [apply baseline_length | apply perturbation_length | assumption]. }
  rewrite Hbase, Hrow. fold p.
  assert (Hother : forall k, k <> j ->
            nth k (overlay j (baseline problem r)
                             (perturbation problem N r)) 0
            = nth k (baseline problem r) 0).
  { intros k Hk. rewrite overlay_nth. fold p.
    replace (k =? j)%nat with false
      by (symmetry; apply Nat.eqb_neq; assumption).
    reflexivity. }
  assert (Hat : nth j (overlay j (baseline problem r)
                                 (perturbation problem N r)) 0
                = if Qeq_bool p 0 then nth j (baseline problem r) 0 else p).
  { rewrite overlay_nth. fold p.
    rewrite Nat.eqb_refl, baseline_length.
    replace (j <? D)%nat with true
      by (symmetry; apply Nat.ltb_lt; assumption).
    cbn [andb]. rewrite andb_true_r.
    destruct (Qeq_bool p 0); reflexivity. }
  assert (Hzero : p == 0 ->
            overlay j (baseline problem r) (perturbation problem N r)
            = baseline problem r).
  { intros Hz. unfold overlay. fold p.
    rewrite (Qeq_eq_bool _ _ Hz). cbn [negb].
    symmetry. etransitivity; [apply list_as_map_nth|].
    apply map_ext. intros k. now rewrite andb_false_r. }
  split; [exact Hother|]. split; [exact Hat|]. split; [|exact Hzero].
  split.
  - intros Heq. specialize (Heq j Hj). rewrite Hat in Heq.
    destruct (Qeq_bool p 0) eqn:E.
    + left. now apply Qeq_bool_eq.
    + right. exact Heq.
  - intros [Hz|Hsame] k Hk.
    + rewrite (Hzero Hz). reflexivity.
    + destruct (Nat.eq_dec k j) as [->|Hne].
      * rewrite Hat. destruct (Qeq_bool p 0); [reflexivity|exact Hsame].
      * rewrite (Hother k Hne). reflexivity.
Qed.

End WithLaws.
End RadialProps.

(** ** The Latin hypercube sampler *)

Section LatinArrays.
Import Latin LatinSpec.

Lemma set_item_length {A : Type} (x : A) :
  forall (a : list A) (j : nat), length (set_item j x a) = length a.
Proof.
  induction a as [|y t IH]; intros [|j]; simpl; auto.
Qed.

Lemma set_item_nth_same {A : Type} (x d : A) :
  forall (a : list A) (j : nat),
    (j < length a)%nat -> nth j (set_item j x a) d = x.
Proof.
  induction a as [|y t IH]; intros [|j] Hj; simpl in *; try lia; auto.
  apply IH. lia.
Qed.

Lemma set_item_nth_other {A : Type} (x d : A) :
  forall (a : list A) (j k : nat),
    k <> j -> nth k (set_item j x a) d = nth k a d.
Proof.
  induction a as [|y t IH]; intros [|j] [|k] Hk; simpl; try lia; auto.
Qed.

Lemma Qnat_pos (n : nat) : (1 <= n)%nat -> 0 < Qnat n.
Proof.
  intros H. unfold Qnat. change 0 with (inject_Z 0).
  rewrite <- Zlt_Qlt. lia.
Qed.

Lemma Qnat_lt (a b : nat) : (a < b)%nat <-> Qnat a < Qnat b.
Proof. unfold Qnat. rewrite <- Zlt_Qlt. lia. Qed.

Lemma Qnat_nonneg (n : nat) : 0 <= Qnat n.
Proof.
  unfold Qnat. change 0 with (inject_Z 0). rewrite <- Zle_Qle. lia.
Qed.

Lemma width_nonneg (N : nat) : 0 <= width N.
Proof.
  unfold width. rewrite <- (round64_zero 0) by reflexivity.
  apply round64_mono; [apply Qle_refl|].
  destruct N as [|N]; [vm_compute; discriminate|].
  apply Qlt_le_weak, Qlt_shift_div_l; [apply Qnat_pos; lia|].
  rewrite Qmult_0_l. reflexivity.
Qed.

(** The ends of the strata grow with the stratum. *)
Lemma stratum_end_mono (N j k : nat) :
  (j <= k)%nat -> stratum_end N j <= stratum_end N k.
Proof.
  intros Hjk. unfold stratum_end.
  pose proof (width_nonneg N) as Hw. pose proof (Qnat_nonneg j) as Hj.
  apply round64_mono.
  - now apply Qmult_le_0_compat.
  - apply Qmult_le_compat_r; [|exact Hw].
    unfold Qnat. rewrite <- Zle_Qle. lia.
Qed.

Lemma stratum_end_nonneg (N j : nat) : 0 <= stratum_end N j.
Proof.
  apply Qle_trans with (stratum_end N 0); [|apply stratum_end_mono; lia].
  unfold stratum_end. rewrite round64_zero; [apply Qle_refl|].
  unfold Qnat. cbn [Z.of_nat]. ring.
Qed.

Lemma set_item_app {A : Type} (x y : A) (pre rest : list A) :
  set_item (length pre) x (pre ++ y :: rest) = pre ++ x :: rest.
Proof.
  induction pre as [|z pre IH]; [reflexivity|].
  cbn [length app set_item]. now rewrite IH.
Qed.

End LatinArrays.

Section LatinProps.
Context {RS : RandomState} {RSL : RandomStateLaws RS}.
Import Latin LatinSpec.

Lemma stratum_draws_length (d : Q) :
  forall (js : list nat) (g : rng),
    length (fst (stratum_draws js d g)) = length js.
Proof.
  induction js as [|j rest IH]; intros g; [reflexivity|].
  cbn [stratum_draws].
  destruct (uniform (Float64.round64 (Qnat j * d))
                    (Float64.round64 (Qnat (j + 1) * d)) g) as [x g1].
  specialize (IH g1). destruct (stratum_draws rest d g1) as [xs g2].
  cbn [fst length] in *. now rewrite IH.
Qed.

(** The draw for stratum [j] lies in stratum [j], ends included. *)
Lemma stratum_draws_spec (N : nat) :
  forall (n a : nat) (g : rng) (i : nat),
    (i < n)%nat ->
    in_stratum N (a + i)
      (nth i (fst (stratum_draws (seq a n) (width N) g)) 0).
Proof.
  induction n as [|n IH]; intros a g i Hi; [lia|].
  cbn [seq stratum_draws].
  pose proof (uniform_range _ _ g
                (stratum_end_mono N a (a + 1) ltac:(lia))) as Hu.
  unfold stratum_end in Hu.
  destruct (uniform (Float64.round64 (Qnat a * width N))
                    (Float64.round64 (Qnat (a + 1) * width N)) g)
    as [x g1].
  cbn [fst] in Hu. specialize (IH (S a) g1).
  destruct (stratum_draws (seq (S a) n) (width N) g1) as [xs g2].
  cbn [fst] in *. destruct i as [|i].
  - cbn [nth]. rewrite Nat.add_0_r. exact Hu.
  - cbn [nth]. replace (a + S i)%nat with (S a + i)%nat by lia.
    apply IH. lia.
Qed.

(** The inner loop overwrites the entries [a .. a+n-1] of [temp] with the
    draws of these strata. *)
Lemma draw_strata_draws (d : Q) :
  forall (n a : nat) (pre rest : list Q) (g : rng),
    length pre = a -> (n <= length rest)%nat ->
    draw_strata (seq a n) d (pre ++ rest) g
    = (pre ++ fst (stratum_draws (seq a n) d g) ++ skipn n rest,
       snd (stratum_draws (seq a n) d g)).
Proof.
  induction n as [|n IH]; intros a pre rest g Hpre Hn.
  - reflexivity.
  - destruct rest as [|y rest]; [cbn [length] in Hn; lia|].
    cbn [seq draw_strata stratum_draws].
    destruct (uniform (Float64.round64 (Qnat a * d))
                      (Float64.round64 (Qnat (a + 1) * d)) g) as [x g1].
    rewrite <- Hpre, set_item_app.
    replace (pre ++ x :: rest) with ((pre ++ [x]) ++ rest)
      by (now rewrite <- app_assoc).
    rewrite (IH (S (length pre)) (pre ++ [x]) rest g1)
      by (rewrite ?length_app; cbn [length] in *; lia).
    destruct (stratum_draws (seq (S (length pre)) n) d g1) as [xs g2].
    cbn [fst snd skipn]. now rewrite <- app_assoc.
Qed.

Lemma draw_strata_all (N : nat) (d : Q) (temp : list Q) (g : rng) :
  length temp = N ->
  draw_strata (seq 0 N) d temp g = stratum_draws (seq 0 N) d g.
Proof.
  intros Ht.
  pose proof (draw_strata_draws d N 0 [] temp g eq_refl ltac:(lia)) as H.
  cbn [app] in H. rewrite H.
  rewrite skipn_all2 by lia. rewrite app_nil_r.
  now destruct (stratum_draws (seq 0 N) d g).
Qed.

Lemma dimension_length (N : nat) (g : rng) :
  length (fst (dimension N g)) = N.
Proof.
  unfold dimension.
  pose proof (stratum_draws_length (width N) (seq 0 N) g) as Hl.
  destruct (stratum_draws (seq 0 N) (width N) g) as [draws g1].
  cbn [fst] in Hl. rewrite length_seq in Hl.
  now rewrite <- (Permutation_length (shuffle_perm draws g1)).
Qed.

Lemma dimension_state_shift (N : nat) (g : rng) :
  forall c,
    dimension_state N (S c) g = dimension_state N c (snd (dimension N g)).
Proof.
  induction c as [|c IH]; [reflexivity|].
  cbn [dimension_state] in *. now rewrite IH.
Qed.

Lemma set_column_shape (N D i : nat) (temp : list Q)
  (result : list (list Q)) :
  has_shape N D result -> length temp = N ->
  has_shape N D (set_column i temp result).
Proof.
  intros [H1 H2] Ht. unfold has_shape, set_column. split.
  - rewrite map2_length, H1, Ht. apply Nat.min_id.
  - apply Forall_nth. intros r d Hr.
    rewrite map2_length, H1, Ht, Nat.min_id in Hr.
    rewrite (nth_indep _ d [])
      by (now rewrite map2_length, H1, Ht, Nat.min_id).
    rewrite (map2_nth _ [] 0 []) by lia.
    rewrite set_item_length. rewrite Forall_forall in H2.
    apply H2, nth_In. lia.
Qed.

Lemma set_column_column (N D i c : nat) (temp : list Q)
  (result : list (list Q)) :
  has_shape N D result -> length temp = N -> (i < D)%nat ->
  column c (set_column i temp result)
  = if (c =? i)%nat then temp else column c result.
Proof.
  intros [H1 H2] Ht Hi. unfold column, set_column.
  apply (nth_ext _ _ 0 0).
  - rewrite length_map, map2_length, H1, Ht, Nat.min_id.
    destruct (c =? i)%nat; [now rewrite Ht | now rewrite length_map, H1].
  - intros r Hr.
    rewrite length_map, map2_length, H1, Ht, Nat.min_id in Hr.
    rewrite (nth_map_in _ [])
      by (now rewrite map2_length, H1, Ht, Nat.min_id).
    rewrite (map2_nth _ [] 0 []) by lia.
    destruct (Nat.eqb_spec c i) as [->|Hne].
    + apply set_item_nth_same. rewrite Forall_forall in H2.
      rewrite (H2 (nth r result [])) by (apply nth_In; lia). assumption.
    + rewrite set_item_nth_other by assumption.
      now rewrite (nth_map_in _ []) by lia.
Qed.

Lemma zeros_shape (N D : nat) : has_shape N D (repeat (repeat 0 D) N).
Proof.
  split; [apply repeat_length|].
  apply Forall_forall. intros r Hr. apply repeat_spec in Hr. subst r.
  apply repeat_length.
Qed.

(** The outer loop: the column of index [k] in [cols] ends as the values
    of one dimension, drawn and shuffled from the state the generator has
    after [k] dimensions; the other columns are left as they were. *)
Lemma fill_columns_spec (N D : nat) :
  forall (cols : list nat) (result : list (list Q)) (temp : list Q)
         (g : rng),
    NoDup cols -> (forall c, In c cols -> (c < D)%nat) ->
    has_shape N D result -> length temp = N ->
    let out := fill_columns cols N (width N) result temp g in
    has_shape N D (fst out)
    /\ snd out = dimension_state N (length cols) g
    /\ (forall k, (k < length cols)%nat ->
          column (nth k cols 0%nat) (fst out)
          = fst (dimension N (dimension_state N k g)))
    /\ (forall c, ~ In c cols -> column c (fst out) = column c result).
Proof.
  induction cols as [|i rest IH];
    intros result temp g Hnd Hlt Hshape Htemp.
  - cbn. repeat split; try tauto; try apply Hshape. intros k Hk. lia.
  - cbn [fill_columns]. rewrite (draw_strata_all N _ temp g Htemp).
    pose proof (dimension_length N g) as Hlen.
    assert (Hdim : (let (temp1, g1) :=
                      stratum_draws (seq 0 N) (width N) g in
                    shuffle temp1 g1) = dimension N g) by reflexivity.
    destruct (stratum_draws (seq 0 N) (width N) g) as [temp1 g1].
    rewrite Hdim. clear Hdim.
    destruct (dimension N g) as [temp2 g2] eqn:Edim. cbn [fst] in Hlen.
    apply NoDup_cons_iff in Hnd. destruct Hnd as [Hnotin Hnd'].
    specialize (IH (set_column i temp2 result) temp2 g2 Hnd').
    destruct IH as [IH1 [IH2 [IH3 IH4]]].
    { intros c Hc. apply Hlt. now right. }
    { now apply set_column_shape. }
    { exact Hlen. }
    split; [exact IH1|]. split; [|split].
    + cbn [length]. rewrite dimension_state_shift, Edim. exact IH2.
    + intros [|k] Hk.
      * cbn [nth dimension_state]. rewrite IH4 by assumption.
        rewrite (set_column_column N D) by (auto; apply Hlt; now left).
        rewrite Nat.eqb_refl. now rewrite Edim.
      * cbn [nth]. cbn [length] in Hk.
        rewrite IH3 by lia.
        now rewrite dimension_state_shift, Edim.
    + intros c Hc. rewrite IH4 by (intros H; apply Hc; now right).
      rewrite (set_column_column N D) by (auto; apply Hlt; now left).
      replace (c =? i)%nat with false; [reflexivity|].
      symmetry. apply Nat.eqb_neq. intros ->. apply Hc. now left.
Qed.

(** The matrix the loops leave: column [c] holds the values of dimension
    [c]. *)
Lemma unit_hypercube_spec (N D : nat) (g : rng) :
  has_shape N D (fst (unit_hypercube N D g))
  /\ snd (unit_hypercube N D g) = dimension_state N D g
  /\ forall c, (c < D)%nat ->
       column c (fst (unit_hypercube N D g))
       = fst (dimension N (dimension_state N c g)).
Proof.
  destruct (fill_columns_spec N D (seq 0 D) (repeat (repeat 0 D) N)
              (repeat 0 N) g) as [S1 [S2 [S3 _]]].
  { apply seq_NoDup. }
  { intros c Hc. apply in_seq in Hc. lia. }
  { apply zeros_shape. }
  { apply repeat_length. }
  rewrite length_seq in S2, S3.
  split; [exact S1|]. split; [exact S2|].
  intros c Hc. specialize (S3 c Hc). now rewrite seq_nth in S3.
Qed.

(** The values of one dimension are the shuffle of [N] draws, the draw of
    index [j] taken in stratum [j]. *)
Lemma dimension_spec (N : nat) (g : rng) :
  (1 <= N)%nat ->
  let drawn := stratum_draws (seq 0 N) (width N) g in
  fst (dimension N g) = fst (shuffle (fst drawn) (snd drawn))
  /\ length (fst drawn) = N
  /\ (forall j, (j < N)%nat -> in_stratum N j (nth j (fst drawn) 0))
  /\ Permutation (fst drawn) (fst (dimension N g)).
Proof.
  intros HN drawn.
  pose proof (stratum_draws_length (width N) (seq 0 N) g) as Hl.
  pose proof (stratum_draws_spec N N 0 g) as Hs.
  fold drawn in Hl, Hs. unfold dimension. fold drawn.
  destruct drawn as [draws g1]. cbn [fst snd] in *.
  rewrite length_seq in Hl.
  split; [reflexivity|]. split; [exact Hl|]. split; [exact Hs|].
  apply shuffle_perm.
Qed.

Lemma scale_samples_shape (N D : nat) (m : list (list Q))
  (bnds : list (Q * Q)) :
  has_shape N D m -> length bnds = D ->
  has_shape N D (Util.scale_samples m bnds).
Proof.
  intros [H1 H2] Hb. unfold has_shape, Util.scale_samples. split.
  - now rewrite length_map.
  - apply Forall_forall. intros r Hr. apply in_map_iff in Hr.
    destruct Hr as [r0 [<- Hr0]]. rewrite Forall_forall in H2.
    unfold Util.scale_row. rewrite map2_length, (H2 r0 Hr0), Hb.
    apply Nat.min_id.
Qed.

Lemma has_shape_of_lengths (N D : nat) (a b : list (list Q)) :
  map (@length Q) a = map (@length Q) b -> has_shape N D b -> has_shape N D a.
Proof.
  intros Hmap [H1 H2]. unfold has_shape.
  assert (Hlen : length a = length b).
  { rewrite <- (length_map (@length Q) a), Hmap. apply length_map. }
  split; [lia|].
  apply Forall_nth. intros r d Hr.
  rewrite (nth_indep _ d []) by assumption.
  rewrite <- (nth_map_in (@length Q) [] 0%nat a r Hr), Hmap.
  rewrite (nth_map_in _ []) by lia.
  rewrite Forall_forall in H2. apply H2, nth_In. lia.
Qed.

(** C3, in the form that holds of the code.  For every [N >= 1] (and
    every [D]) the matrix the loops build has shape (N, D).  Its column [c]
    is the generator's shuffle of [N] draws, taken in the state the
    generator has after [c] dimensions; the draw of index [j] is numpy's
    [uniform] between the ends [j * d] and [(j + 1) * d] of stratum [j]
    ([d = 1.0 / N], as float64 computes them), and lies between them, both
    ends included: numpy may return the upper limit, so the strata meet at
    their ends and a value need not lie below the next stratum.  The call
    returns this matrix scaled by the linear scaling when the problem has
    no distributions, and passed to the scaling by distributions when it
    has; a returned matrix has shape (N, D). *)
Theorem latin_stratified {NS : NonuniformScaling} {NSL : NonuniformLaws NS}
  (problem : Problem) (N : nat) (g : rng) :
  (1 <= N)%nat ->
  length (bounds problem) = num_vars problem ->
  let D := num_vars problem in
  let U := fst (unit_hypercube N D g) in
  has_shape N D U
  /\ (forall c, (c < D)%nat ->
        let drawn := stratum_draws (seq 0 N) (width N)
                                   (dimension_state N c g) in
        column c U = fst (shuffle (fst drawn) (snd drawn))
        /\ length (fst drawn) = N
        /\ (forall j, (j < N)%nat -> in_stratum N j (nth j (fst drawn) 0))
        /\ Permutation (fst drawn) (column c U))
  /\ sample problem N g
     = (if no_dists problem
        then Ok (Util.scale_samples U (bounds problem))
        else nonuniform_scale_samples U (bounds problem)
                                      (get_dists problem),
        dimension_state N D g)
  /\ (forall X g', sample problem N g = (Ok X, g') -> has_shape N D X).
Proof.
  intros HN Hb D U.
  destruct (unit_hypercube_spec N D g) as [S1 [S2 S3]]. fold U in S1, S3.
  assert (HN0 : (N =? 0)%nat = false) by (apply Nat.eqb_neq; lia).
  assert (Hrun : sample problem N g
                 = (if no_dists problem
                    then Ok (Util.scale_samples U (bounds problem))
                    else nonuniform_scale_samples U (bounds problem)
                                                  (get_dists problem),
                    dimension_state N D g)).
  { unfold sample. rewrite HN0. fold D. rewrite <- S2. unfold U.
    destruct (unit_hypercube N D g) as [result g1]. cbn [fst snd].
    destruct (no_dists problem); reflexivity. }
  split; [exact S1|]. split; [|split; [exact Hrun|]].
  - intros c Hc drawn. rewrite (S3 c Hc).
    exact (dimension_spec N (dimension_state N c g) HN).
  - intros X g' HX. rewrite Hrun in HX.
    destruct (no_dists problem).
    + injection HX as <- _. now apply scale_samples_shape.
    + injection HX as Hns _. apply nonuniform_shape in Hns.
      now apply (has_shape_of_lengths N D X U).
Qed.

End LatinProps.

(** ** What [analyze] writes *)

Section StoreFrame.
Context {RS : RandomState} {SP : Special}.
Import Store.

Lemma unchanged_length (h0 h : heap) :
  unchanged h0 h -> (length h0 <= length h)%nat.
Proof.
  intros H. destruct (Nat.eq_dec (length h0) 0) as [E|E]; [lia|].
  specialize (H (length h0 - 1)%nat ltac:(lia)).
  assert (Hs : nth_error h0 (length h0 - 1) <> None)
    by (apply nth_error_Some; lia).
  rewrite <- H in Hs. apply nth_error_Some in Hs. lia.
Qed.

Lemma replace_at_other (o : obj) :
  forall (h : heap) (l l' : loc),
    l' <> l -> nth_error (replace_at l o h) l' = nth_error h l'.
Proof.
  induction h as [|x t IH]; intros [|l] [|l'] Hne; simpl; try lia; auto.
Qed.

Lemma frames_weaken {A : Type} (h0 : heap) (m : HM A) (Q Q' : A -> Prop) :
  frames h0 m Q -> (forall a, Q a -> Q' a) -> frames h0 m Q'.
Proof.
  intros H HQ h g Hu. specialize (H h g Hu).
  destruct (m (h, g)) as [[a|e] [h' g']]; [|assumption].
  destruct H. split; auto.
Qed.

Lemma frames_ret {A : Type} (h0 : heap) (a : A) (Q : A -> Prop) :
  Q a -> frames h0 (ret a) Q.
Proof. intros HQ h g Hu. cbn. auto. Qed.

Lemma frames_raise {A : Type} (h0 : heap) (e : exn) (Q : A -> Prop) :
  frames h0 (raise e) Q.
Proof. intros h g Hu. cbn. assumption. Qed.

Lemma frames_bind {A B : Type} (h0 : heap) (m : HM A) (k : A -> HM B)
  (Q : A -> Prop) (R : B -> Prop) :
  frames h0 m Q -> (forall a, Q a -> frames h0 (k a) R) ->
  frames h0 (bind m k) R.
Proof.
  intros Hm Hk h g Hu. unfold bind. specialize (Hm h g Hu).
  destruct (m (h, g)) as [[a|e] [h' g']]; [|assumption].
  destruct Hm as [Hu' Ha]. apply (Hk a Ha h' g' Hu').
Qed.

Lemma frames_lift {A : Type} (h0 : heap) (r : result A) :
  frames h0 (lift r) (fun _ => True).
Proof. intros h g Hu. unfold lift. destruct r; auto. Qed.

Lemma frames_lift_rand {A : Type} (h0 : heap) (m : Rand.M A) :
  frames h0 (lift_rand m) (fun _ => True).
Proof.
  intros h g Hu. unfold lift_rand. cbn [fst snd].
  destruct (m g) as [[a|e] g']; auto.
Qed.

Lemma frames_alloc (h0 : heap) (o : obj) : frames h0 (alloc o) (fresh h0).
Proof.
  intros h g Hu. unfold alloc. cbn [fst snd].
  pose proof (unchanged_length h0 h Hu) as Hl. split.
  - intros l Hlt. rewrite nth_error_app1 by lia. now apply Hu.
  - exact Hl.
Qed.

Lemma frames_load (h0 : heap) (l : loc) :
  frames h0 (load l) (fun _ => True).
Proof.
  intros h g Hu. unfold load. cbn [fst].
  destruct (nth_error h l); auto.
Qed.

Lemma frames_store (h0 : heap) (l : loc) (o : obj) :
  fresh h0 l -> frames h0 (store l o) (fun _ => True).
Proof.
  intros Hf h g Hu. unfold store. cbn [fst snd]. split; [|exact I].
  intros l' Hl'. unfold fresh in Hf.
  rewrite replace_at_other by lia. now apply Hu.
Qed.

Lemma frames_load_ndarray1 (h0 : heap) (l : loc) :
  frames h0 (load_ndarray1 l) (fun _ => True).
Proof.
  unfold load_ndarray1. eapply frames_bind; [apply frames_load|].
  intros o _. destruct o; (now apply frames_ret) || apply frames_raise.
Qed.

Lemma frames_load_ndarray2 (h0 : heap) (l : loc) :
  frames h0 (load_ndarray2 l) (fun _ => True).
Proof.
  unfold load_ndarray2. eapply frames_bind; [apply frames_load|].
  intros o _. destruct o; (now apply frames_ret) || apply frames_raise.
Qed.

Lemma frames_load_view (h0 : heap) (v : view) :
  frames h0 (load_view v) (fun _ => True).
Proof.
  unfold load_view. eapply frames_bind; [apply frames_load_ndarray1|].
  intros d _. now apply frames_ret.
Qed.

Lemma frames_dict_get (h0 : heap) (l : loc) (key : string) :
  frames h0 (dict_get l key) (fun _ => True).
Proof.
  unfold dict_get. eapply frames_bind; [apply frames_load|].
  intros o _. destruct o; try apply frames_raise.
  destruct (assoc key entries); [now apply frames_ret | apply frames_raise].
Qed.

Lemma frames_dict_set (h0 : heap) (l : loc) (key : string) (v : value) :
  fresh h0 l -> frames h0 (dict_set l key v) (fun _ => True).
Proof.
  intros Hf. unfold dict_set. eapply frames_bind; [apply frames_load|].
  intros o _. destruct o; try apply frames_raise. now apply frames_store.
Qed.

Lemma frames_store_row (h0 : heap) (l : loc) (i : nat) (row : list Q) :
  fresh h0 l -> frames h0 (store_row l i row) (fun _ => True).
Proof.
  intros Hf. unfold store_row.
  eapply frames_bind; [apply frames_load_ndarray2|].
  intros a _. now apply frames_store.
Qed.

Lemma frames_for_range (h0 : heap) (body : nat -> HM unit) :
  (forall i, frames h0 (body i) (fun _ => True)) ->
  forall is_, frames h0 (for_range is_ body) (fun _ => True).
Proof.
  intros Hb. induction is_ as [|i rest IH]; cbn [for_range].
  - now apply frames_ret.
  - eapply frames_bind; [apply Hb|]. intros _ _. exact IH.
Qed.

Lemma frames_as_nat (h0 : heap) (v : value) :
  frames h0 (as_nat v) (fun _ => True).
Proof. destruct v; (now apply frames_ret) || apply frames_raise. Qed.

(** The bootstrap only reads [si]; the arrays it builds are new. *)
Lemma frames_confidence (h0 : heap) (si : loc) (base_var : float64)
  (N nres : Z) (conf : Q) :
  frames h0 (compute_radial_si_confidence si base_var N nres conf)
         (fresh h0).
Proof.
  unfold compute_radial_si_confidence.
  eapply frames_bind; [apply frames_load_ndarray2|]. intros si_now _.
  destruct (negb (Qlt_bool 0 conf && Qlt_bool conf 1));
    [apply frames_raise|].
  eapply frames_bind; [apply frames_lift_rand|]. intros index _.
  eapply frames_bind; [apply frames_alloc|]. intros l_index _.
  eapply frames_bind; [apply frames_lift|]. intros gathered _.
  eapply frames_bind; [apply frames_alloc|]. intros l_res _.
  eapply frames_bind; [apply frames_lift|]. intros je _.
  eapply frames_bind; [apply frames_alloc|]. intros l_res2 _.
  apply frames_alloc.
Qed.

Lemma frames_analyze (h0 : heap) (problem Y : loc) (s nres : Z) (conf : Q)
  (seed : option Z) :
  frames h0 (analyze problem Y s nres conf seed) (fresh h0).
Proof.
  unfold analyze.
  eapply frames_bind; [apply frames_dict_get|]. intros num_vars_v _.
  eapply frames_bind; [apply frames_as_nat|]. intros num_vars _.
  eapply frames_bind; [apply frames_load_ndarray1|]. intros Y_now _.
  eapply frames_bind; [apply frames_lift|]. intros q _.
  eapply frames_bind; [apply frames_lift|]. intros _ _.
  eapply frames_bind.
  { instantiate (1 := fun _ => True).
    destruct seed as [z|]; [|now apply frames_ret].
    destruct (truthy (Some z));
      [apply frames_lift_rand | now apply frames_ret]. }
  intros _ _.
  eapply frames_bind; [apply frames_lift|]. intros st_shape _.
  eapply frames_bind; [apply frames_alloc|]. intros st Hst.
  eapply frames_bind; [apply frames_load_view|]. intros Y_base_now _.
  eapply frames_bind.
  { apply frames_for_range. intros i.
    eapply frames_bind; [apply frames_load_view|]. intros a _.
    eapply frames_bind; [apply frames_load_view|]. intros b _.
    eapply frames_bind; [apply frames_alloc|]. intros diff _.
    eapply frames_bind; [apply frames_load_ndarray1|]. intros row _.
    now apply frames_store_row. }
  intros _ _.
  eapply frames_bind; [apply frames_alloc|]. intros l0 _.
  eapply frames_bind; [apply frames_alloc|]. intros l1 _.
  eapply frames_bind; [apply frames_alloc|]. intros l2 _.
  eapply frames_bind; [apply frames_alloc|]. intros Si HSi.
  eapply frames_bind; [apply frames_load_ndarray2|]. intros st_now _.
  eapply frames_bind; [apply frames_lift|]. intros je _.
  eapply frames_bind; [apply frames_alloc|]. intros ST _.
  eapply frames_bind; [now apply frames_dict_set|]. intros _ _.
  eapply frames_bind; [apply frames_confidence|]. intros ST_conf _.
  eapply frames_bind; [now apply frames_dict_set|]. intros _ _.
  eapply frames_bind; [apply frames_dict_get|]. intros names_v _.
  eapply frames_bind; [now apply frames_dict_set|]. intros _ _.
  now apply frames_ret.
Qed.

(** C10.  [analyze] never modifies its inputs.  Run from any store [h],
    whatever the arguments and whether the call returns a result or raises,
    every object that was in the store before the call (the buffer of [Y],
    the problem dictionary with its [num_vars], and the [names], [bounds]
    and [dists] lists it refers to) is unchanged after the call; the result
    dictionary, when there is one, is a new object. *)
Theorem analyze_leaves_inputs_unchanged (h : heap) (g : rng)
  (problem Y : loc) (s nres : Z) (conf : Q) (seed : option Z) :
  let out := analyze problem Y s nres conf seed (h, g) in
  unchanged h (fst (snd out))
  /\ match fst out with
     | Ok Si => fresh h Si
     | Raise _ => True
     end.
Proof.
  intros out. subst out.
  pose proof (frames_analyze h problem Y s nres conf seed h g
                (fun l _ => eq_refl)) as H.
  destruct (analyze problem Y s nres conf seed (h, g)) as [[Si|e] [h' g']];
    cbn [fst snd]; [exact H | split; [exact H | exact I]].
Qed.

End StoreFrame.

(** ** The samplers on the reference instances *)

Lemma demo_sobol_laws : SobolLaws Demo.demo_sobol.
Proof.
  constructor; cbn [sobol_sample Demo.demo_sobol].
  - intros count dims. now rewrite length_map, length_seq.
  - intros count dims. apply Forall_forall. intros row Hrow.
    apply in_map_iff in Hrow. destruct Hrow as [i [<- _]].
    unfold Demo.halton_point. now rewrite length_map, length_seq.
  - intros count count' dims i Hi Hle.
    rewrite !nth_map_seq by lia. reflexivity.
Qed.

Lemma demo_nonuniform_laws : NonuniformLaws Demo.demo_nonuniform.
Proof.
  constructor. intros params bnds ds out H.
  cbn [nonuniform_scale_samples Demo.demo_nonuniform] in H.
  injection H as <-. rewrite map_map. apply map_ext. intros row.
  apply length_map.
Qed.

Section SamplerScenarios.
Import Radial RadialSpec Latin LatinSpec Demo.

(** Seeds 1 and 2 give the same matrix: the outputs of two calls that
    differ only in the seed are not different. *)
Lemma sample_seed_counterexample :
  ~ (fst (Radial.sample (RS := demo_rng) problem2 2 (Some 1%Z) 7%Z)
     <> fst (Radial.sample (RS := demo_rng) problem2 2 (Some 2%Z) 7%Z)).
Proof. intros H. apply H. reflexivity. Qed.

Lemma sample_ignores_seed_witness :
  fst (Radial.sample (RS := demo_rng) problem2 2 (Some 1%Z) 7%Z)
  = fst (Radial.sample (RS := demo_rng) problem2 2 (Some 1%Z) 11%Z)
  /\ (fst (Radial.sample (RS := demo_rng) problem2 2 (Some 1%Z) 7%Z)
      = Ok (design problem2 2) ->
      fst (Radial.sample (RS := demo_rng) problem2 2 (Some 2%Z) 11%Z)
      = Ok (design problem2 2) ->
      design problem2 2 = design problem2 2).
Proof.
  destruct (sample_ignores_seed (RS := demo_rng) (SS := demo_sobol)
              problem2 2) as [H1 H2].
  split.
  - exact (H1 (Some 1%Z) 7%Z 11%Z).
  - exact (H2 (Some 1%Z) (Some 2%Z) 7%Z 11%Z
              (design problem2 2) (design problem2 2)).
Defined.

Lemma sample_design_witness :
  length (bounds problem2) = num_vars problem2
  /\ seed_accepted (Some 1%Z)
  /\ exists X g',
       Radial.sample (RS := demo_rng) problem2 2 (Some 1%Z) 7%Z = (Ok X, g')
       /\ length X = (2 * (num_vars problem2 + 1))%nat
       /\ Forall (fun row => length row = num_vars problem2) X
       /\ (forall r, (r < 2)%nat ->
             block_row (num_vars problem2) X r 0 = baseline problem2 r
             /\ forall j, (j < num_vars problem2)%nat ->
                  block_row (num_vars problem2) X r (1 + j)
                  = overlay j (baseline problem2 r)
                              (perturbation problem2 2 r))
       /\ (forall r r', (r < 2)%nat -> (r' < 2)%nat ->
             (4 + r)%nat <> (2 + 4 + r')%nat).
Proof.
  split; [reflexivity|]. split; [right; split; [discriminate|reflexivity]|].
  apply (sample_design (RS := demo_rng) (SS := demo_sobol)
           (SSL := demo_sobol_laws) problem2 2 eq_refl (Some 1%Z) 7%Z).
  right. split; [discriminate | reflexivity].
Defined.

Lemma sobol_dim1_laws : SobolLaws Demo.sobol_dim1.
Proof.
  constructor; cbn [sobol_sample Demo.sobol_dim1].
  - intros count dims. now rewrite length_map, length_seq.
  - intros count dims. apply Forall_forall. intros row Hrow.
    apply in_map_iff in Hrow. destruct Hrow as [i [<- _]].
    apply repeat_length.
  - intros count count' dims i Hi Hle.
    rewrite !nth_map_seq by lia. reflexivity.
Qed.

(** On [problem_zero] the perturbation value of the only replicate is
    exactly zero and the perturbed row is the baseline; on the second
    scenario the second perturbed row of the first block carries the
    perturbation value in its coordinate and differs from the baseline
    there only. *)
Lemma perturbed_row_one_coordinate_witness :
  (exists X g',
     Radial.sample (RS := demo_rng) (SS := sobol_dim1) problem_zero 1 None
       7%Z = (Ok X, g')
     /\ nth 0 (perturbation (SS := sobol_dim1) problem_zero 1 0) 0 == 0
     /\ block_row (num_vars problem_zero) X 0 (1 + 0)
        = block_row (num_vars problem_zero) X 0 0)
  /\ (exists X g',
        Radial.sample (RS := demo_rng) (SS := demo_sobol) problem2 2 None
          7%Z = (Ok X, g')
        /\ (forall k, k <> 1%nat ->
              nth k (block_row (num_vars problem2) X 0 (1 + 1)) 0
              = nth k (block_row (num_vars problem2) X 0 0) 0)
        /\ nth 1 (block_row (num_vars problem2) X 0 (1 + 1)) 0
           = nth 1 (perturbation (SS := demo_sobol) problem2 2 0) 0
        /\ ~ (forall k, (k < num_vars problem2)%nat ->
                nth k (block_row (num_vars problem2) X 0 (1 + 1)) 0
                == nth k (block_row (num_vars problem2) X 0 0) 0)).
Proof.
  split.
  - exists (design (SS := sobol_dim1) problem_zero 1), 7%Z.
    split; [vm_compute; reflexivity|].
    split; [vm_compute; reflexivity|].
    destruct (perturbed_row_one_coordinate
                (RS := demo_rng) (SS := sobol_dim1)
                (SSL := sobol_dim1_laws)
                problem_zero 1 eq_refl None 7%Z 7%Z
                (design (SS := sobol_dim1) problem_zero 1) 0 0)
      as [_ [_ [_ H]]].
    + vm_compute. reflexivity.
    + repeat constructor.
    + repeat constructor.
    + apply H. vm_compute. reflexivity.
  - exists (design (SS := demo_sobol) problem2 2), 7%Z.
    split; [vm_compute; reflexivity|].
    assert (Hp : Qeq_bool
                   (nth 1 (perturbation (SS := demo_sobol) problem2 2 0) 0) 0
                 = false) by (vm_compute; reflexivity).
    destruct (perturbed_row_one_coordinate
                (RS := demo_rng) (SS := demo_sobol) (SSL := demo_sobol_laws)
                problem2 2 eq_refl None 7%Z 7%Z
                (design (SS := demo_sobol) problem2 2) 0 1)
      as [H1 [H2 [H3 _]]].
    + vm_compute. reflexivity.
    + repeat constructor.
    + repeat constructor.
    + rewrite Hp in H2. split; [exact H1|]. split; [exact H2|].
      intros Hall. destruct (proj1 H3 Hall) as [E|E];
        vm_compute in E; discriminate.
Defined.

(** One variable with the bounds [1e17, 1e17 + 32] and [N = 2].  The
    baseline of the first replicate is point 4 of the sequence, 3/8, and
    its perturbation point is point 6, 5/8; scaled, [1e17 + 12] and
    [1e17 + 20] are both rounded to [1e17 + 16].  The perturbed row equals
    the baseline although the perturbation value is not zero. *)
Lemma perturbed_row_one_coordinate_counterexample :
  exists X g',
    Radial.sample (RS := demo_rng) (SS := sobol_dim1) problem_close 2 None
      7%Z = (Ok X, g')
    /\ block_row 1 X 0 0 = [100000000000000016]
    /\ block_row 1 X 0 1 = [100000000000000016]
    /\ nth 0 (perturbation (SS := sobol_dim1) problem_close 2 0) 0
       == 100000000000000016
    /\ ~ ((forall k, (k < 1)%nat ->
             nth k (block_row 1 X 0 1) 0 == nth k (block_row 1 X 0 0) 0) ->
          nth 0 (perturbation (SS := sobol_dim1) problem_close 2 0) 0 == 0).
Proof.
  eexists. eexists. split; [vm_compute; reflexivity|].
  split; [vm_compute; reflexivity|]. split; [vm_compute; reflexivity|].
  split; [vm_compute; reflexivity|].
  intros H.
  assert (E : nth 0 (perturbation (SS := sobol_dim1) problem_close 2 0) 0
              == 0).
  { apply H. intros k Hk. vm_compute. destruct k as [|[|k]]; reflexivity. }
  vm_compute in E. discriminate.
Qed.

Lemma latin_stratified_witness :
  (1 <= 3)%nat
  /\ length (bounds problem2) = num_vars problem2
  /\ has_shape 3 2 (fst (unit_hypercube (RS := demo_rng) 3 2 7%Z))
  /\ (forall c, (c < 2)%nat ->
        let drawn := stratum_draws (RS := demo_rng) (seq 0 3) (width 3)
                       (dimension_state (RS := demo_rng) 3 c 7%Z) in
        column c (fst (unit_hypercube (RS := demo_rng) 3 2 7%Z))
        = fst (shuffle (fst drawn) (snd drawn))
        /\ length (fst drawn) = 3%nat
        /\ (forall j, (j < 3)%nat -> in_stratum 3 j (nth j (fst drawn) 0))
        /\ Permutation (fst drawn)
             (column c (fst (unit_hypercube (RS := demo_rng) 3 2 7%Z))))
  /\ (forall X g',
        Latin.sample (RS := demo_rng) (NS := demo_nonuniform)
          problem2 3 7%Z = (Ok X, g') ->
        has_shape 3 2 X).
Proof.
  split; [repeat constructor|]. split; [reflexivity|].
  destruct (latin_stratified (RS := demo_rng) (RSL := demo_rng_laws)
              (NS := demo_nonuniform) (NSL := demo_nonuniform_laws)
              problem2 3 7%Z) as [H1 [H2 [_ H4]]].
  - repeat constructor.
  - reflexivity.
  - split; [exact H1|]. split; [exact H2 | exact H4].
Defined.

(** Three strata, one dimension, and a generator whose next three values
    of [random_sample()] are 1/2, 1/2 and [1 - 2**-53].  The draw for
    stratum 2 is [2/3 + (1 - 2/3) * (1 - 2**-53)], which float64 rounds to
    1.0: the value lies in no stratum [[j/3, (j+1)/3)] and not in
    [[0, 1)]. *)
Lemma latin_stratified_counterexample :
  let U := fst (unit_hypercube (RS := scripted_rng) 3 1
                  [1 # 2; 1 # 2; below_one]) in
  nth 0 (nth 2 U []) 0 == 1
  /\ ~ (forall x, In x (column 0 U) ->
          exists j, (j < 3)%nat
                    /\ Qnat j / Qnat 3 <= x /\ x < Qnat (j + 1) / Qnat 3).
Proof.
  split; [vm_compute; reflexivity|].
  intros H.
  destruct (H (nth 0 (nth 2 (fst (unit_hypercube (RS := scripted_rng) 3 1
                                    [1 # 2; 1 # 2; below_one])) []) 0))
    as [j [Hj [_ Hlt]]].
  - vm_compute. right. right. left. reflexivity.
  - assert (Hle : Qnat (j + 1) / Qnat 3 <= 1).
    { destruct j as [|[|[|j]]]; try lia; vm_compute; discriminate. }
    assert (E : nth 0 (nth 2 (fst (unit_hypercube (RS := scripted_rng) 3 1
                                     [1 # 2; 1 # 2; below_one])) []) 0 == 1)
      by (vm_compute; reflexivity).
    rewrite E in Hlt. apply (Qlt_not_le _ _ Hlt Hle).
Qed.

End SamplerScenarios.

(** ** The store embedding computes what [Jansen.analyze] computes *)

Section StoreRuns.
Context {RS : RandomState} {SP : Special}.
Import Store.

Lemma bind_ok {A B : Type} (m : HM A) (k : A -> HM B) (s s' : heap * rng)
  (a : A) :
  m s = (Ok a, s') -> bind m k s = k a s'.
Proof. intros H. unfold bind. now rewrite H. Qed.

Lemma bind_raise {A B : Type} (m : HM A) (k : A -> HM B)
  (s s' : heap * rng) (e : exn) :
  m s = (Raise e, s') -> bind m k s = (Raise e, s').
Proof. intros H. unfold bind. now rewrite H. Qed.

Lemma replace_at_app (o : obj) (b : heap) :
  forall (a : heap) (k : nat),
    replace_at (length a + k)%nat o (a ++ b) = a ++ replace_at k o b.
Proof.
  induction a as [|x a IH]; intros k; [reflexivity|].
  cbn [length Nat.add app replace_at]. now rewrite IH.
Qed.

Lemma load_old (a t : heap) (l : loc) (o : obj) (g : rng) :
  nth_error a l = Some o -> load l (a ++ t, g) = (Ok o, (a ++ t, g)).
Proof.
  intros H. unfold load. cbn [fst].
  rewrite nth_error_app1 by (apply nth_error_Some; congruence).
  now rewrite H.
Qed.

Lemma load_mid (a t : heap) (o : obj) (g : rng) :
  load (length a) (a ++ o :: t, g) = (Ok o, (a ++ o :: t, g)).
Proof.
  unfold load. cbn [fst].
  rewrite nth_error_app2 by lia. now rewrite Nat.sub_diag.
Qed.

Lemma store_mid (a t : heap) (o o' : obj) (g : rng) :
  store (length a) o' (a ++ o :: t, g) = (Ok tt, (a ++ o' :: t, g)).
Proof.
  unfold store. cbn [fst snd].
  rewrite <- (Nat.add_0_r (length a)) at 1. now rewrite replace_at_app.
Qed.

Lemma alloc_run (a : heap) (o : obj) (g : rng) :
  alloc o (a, g) = (Ok (length a), (a ++ [o], g)).
Proof. reflexivity. Qed.

Lemma load_view_old (a t : heap) (v : view) (Y : list Q) (g : rng) :
  nth_error a (view_base v) = Some (ONdarray1 Y) ->
  load_view v (a ++ t, g)
  = (Ok (slice_step (view_start v) (view_step v) Y), (a ++ t, g)).
Proof.
  intros H. unfold load_view, load_ndarray1.
  erewrite bind_ok; [reflexivity|].
  rewrite (bind_ok _ _ _ _ _ (load_old a t _ _ g H)). reflexivity.
Qed.

Lemma dict_get_old (a t : heap) (l : loc) (entries : list (string * value))
  (key : string) (v : value) (g : rng) :
  nth_error a l = Some (ODict entries) -> assoc key entries = Some v ->
  dict_get l key (a ++ t, g) = (Ok v, (a ++ t, g)).
Proof.
  intros H Hk. unfold dict_get.
  rewrite (bind_ok _ _ _ _ _ (load_old a t _ _ g H)). now rewrite Hk.
Qed.

Lemma dict_set_mid (a t : heap) (entries : list (string * value))
  (key : string) (v : value) (g : rng) :
  dict_set (length a) key v (a ++ ODict entries :: t, g)
  = (Ok tt, (a ++ ODict (assoc_set key v entries) :: t, g)).
Proof.
  unfold dict_set. erewrite bind_ok; [|apply load_mid]. apply store_mid.
Qed.

Section Loop.
Variable h : heap.
Variable Y_loc : loc.
Variable Y : list Q.
Hypothesis Y_at : nth_error h Y_loc = Some (ONdarray1 Y).
Variable D : nat.

Let body (st : loc) : nat -> HM unit :=
  fun i =>
    let pos := (i + 1)%nat in
    bind (load_view {| view_base := Y_loc; view_start := 0;
                       view_step := (D + 1)%nat |}) (fun a =>
    bind (load_view {| view_base := Y_loc; view_start := pos;
                       view_step := (D + 1)%nat |}) (fun b =>
    bind (alloc (ONdarray1 (map2 Qminus a b))) (fun diff =>
    bind (load_ndarray1 diff) (fun row =>
    store_row st i row)))).

Lemma body_run (n0 n1 : nat) (rows0 : list (list Q)) (temps : heap)
  (i : nat) (g : rng) :
  body (length h) i
       (h ++ ONdarray2 {| shape0 := n0; shape1 := n1; rows := rows0 |}
          :: temps, g)
  = (Ok tt,
     (h ++ ONdarray2 {| shape0 := n0; shape1 := n1;
                        rows := Latin.set_item i (effect_row D Y i) rows0 |}
        :: temps ++ [ONdarray1 (effect_row D Y i)], g)).
Proof.
  unfold body.
  erewrite bind_ok; [|apply (load_view_old h _ _ Y); exact Y_at].
  erewrite bind_ok; [|apply (load_view_old h _ _ Y); exact Y_at].
  cbn [view_start view_step].
  erewrite bind_ok; [|apply alloc_run].
  fold (effect_row D Y i).
  erewrite bind_ok.
  2:{ unfold load_ndarray1. erewrite bind_ok; [|apply load_mid].
      reflexivity. }
  rewrite <- app_assoc. cbn [app].
  unfold store_row, load_ndarray2.
  erewrite bind_ok.
  2:{ erewrite bind_ok; [|apply load_mid]. reflexivity. }
  cbn [shape0 shape1 rows]. apply store_mid.
Qed.

Lemma loop_run (n0 n1 : nat) :
  forall (is_ : list nat) (rows0 : list (list Q)) (temps : heap) (g : rng),
    for_range is_ (body (length h))
      (h ++ ONdarray2 {| shape0 := n0; shape1 := n1; rows := rows0 |}
         :: temps, g)
    = (Ok tt,
       (h ++ ONdarray2 {| shape0 := n0; shape1 := n1;
                          rows := rows_after D Y is_ rows0 |}
          :: temps ++ map (fun i => ONdarray1 (effect_row D Y i)) is_, g)).
Proof.
  induction is_ as [|i rest IH]; intros rows0 temps g; cbn [for_range].
  - cbn [map rows_after fold_left]. now rewrite app_nil_r.
  - erewrite bind_ok; [|apply body_run].
    rewrite IH. cbn [map rows_after fold_left].
    rewrite <- app_assoc. reflexivity.
Qed.

Lemma rows_after_length :
  forall (is_ : list nat) (rows0 : list (list Q)),
    length (rows_after D Y is_ rows0) = length rows0.
Proof.
  induction is_ as [|i rest IH]; intros rows0; [reflexivity|].
  cbn [rows_after fold_left]. unfold rows_after in IH.
  now rewrite IH, set_item_length.
Qed.

Lemma rows_after_nth :
  forall (is_ : list nat) (rows0 : list (list Q)) (j : nat),
    nth j (rows_after D Y is_ rows0) []
    = if existsb (Nat.eqb j) is_ && (j <? length rows0)%nat
      then effect_row D Y j else nth j rows0 [].
Proof.
  induction is_ as [|i rest IH]; intros rows0 j; [reflexivity|].
  cbn [rows_after fold_left existsb]. unfold rows_after in IH.
  rewrite IH, set_item_length.
  destruct (Nat.eqb_spec j i) as [->|Hne]; cbn [orb].
  - destruct (Nat.ltb_spec i (length rows0)) as [Hlt|Hge].
    + rewrite set_item_nth_same by assumption.
      now destruct (existsb (Nat.eqb i) rest).
    + rewrite !andb_false_r.
      rewrite !nth_overflow; rewrite ?set_item_length; auto.
  - now rewrite set_item_nth_other by assumption.
Qed.

(** Once the loop has run over every dimension, [st] holds the array of
    the estimator. *)
Lemma rows_after_all (s : nat) :
  rows_after D Y (seq 0 D) (repeat (repeat 0 s) D)
  = map (effect_row D Y) (seq 0 D).
Proof.
  apply (nth_ext _ _ [] []).
  - now rewrite rows_after_length, repeat_length, length_map, length_seq.
  - intros j Hj. rewrite rows_after_length, repeat_length in Hj.
    rewrite rows_after_nth, repeat_length, nth_map_seq by assumption.
    replace (j <? D)%nat with true by (symmetry; now apply Nat.ltb_lt).
    replace (existsb (Nat.eqb j) (seq 0 D)) with true; [reflexivity|].
    symmetry. apply existsb_exists. exists j. split.
    + apply in_seq. lia.
    + apply Nat.eqb_refl.
Qed.

End Loop.

Lemma load_here (a : heap) (l : loc) (o : obj) (g : rng) :
  nth_error a l = Some o -> load l (a, g) = (Ok o, (a, g)).
Proof. intros H. unfold load. cbn [fst]. now rewrite H. Qed.

(** The bootstrap on the store: the value of [Jansen]'s bootstrap, in a
    new array behind the arrays it allocates on the way. *)
Lemma store_confidence_run (a : heap) (si_loc : loc) (si : array2)
  (base_var : float64) (N nres : Z) (conf : Q) (g : rng) :
  nth_error a si_loc = Some (ONdarray2 si) ->
  match Jansen.compute_radial_si_confidence si base_var N nres conf g with
  | (Ok v, g1) =>
      exists extra,
        compute_radial_si_confidence si_loc base_var N nres conf (a, g)
        = (Ok (length (a ++ extra)), ((a ++ extra) ++ [ONdarrayF1 v], g1))
  | (Raise e, g1) =>
      exists extra,
        compute_radial_si_confidence si_loc base_var N nres conf (a, g)
        = (Raise e, (a ++ extra, g1))
  end.
Proof.
  intros Hsi.
  assert (Hload : load_ndarray2 si_loc (a, g) = (Ok si, (a, g))).
  { unfold load_ndarray2.
    now rewrite (bind_ok _ _ _ _ _ (load_here a _ _ g Hsi)). }
  unfold Jansen.compute_radial_si_confidence, compute_radial_si_confidence.
  rewrite (bind_ok _ _ _ _ _ Hload). cbv beta zeta.
  destruct (negb (Qlt_bool 0 conf && Qlt_bool conf 1)).
  { exists []. now rewrite app_nil_r. }
  unfold Rand.bind at 1.
  assert (Hdraw : forall r g1,
             Rand.randint_size2 (shape0 (T si)) nres N g = (r, g1) ->
             lift_rand (Rand.randint_size2 (shape0 (T si)) nres N) (a, g)
             = (r, (a, g1))).
  { intros r g1 E. unfold lift_rand. cbn [fst snd]. now rewrite E. }
  destruct (Rand.randint_size2 (shape0 (T si)) nres N g) as [[idx|e] g1].
  2:{ exists []. rewrite app_nil_r.
      now rewrite (bind_raise _ _ _ _ _ (Hdraw _ _ eq_refl)). }
  specialize (Hdraw _ _ eq_refl).
  unfold Rand.bind at 1. unfold Rand.lift at 1.
  destruct (Jansen.take (T si) idx) as [gathered|e] eqn:Et.
  2:{ eexists.
      rewrite (bind_ok _ _ _ _ _ Hdraw).
      rewrite (bind_ok _ _ _ _ _ (alloc_run _ _ _)).
      unfold bind at 1. unfold lift at 1. rewrite Et. reflexivity. }
  unfold Rand.bind at 1. unfold Rand.lift at 1.
  destruct (Jansen.jansen_estimator N _ gathered) as [je|e] eqn:Ej.
  2:{ eexists.
      rewrite (bind_ok _ _ _ _ _ Hdraw).
      rewrite (bind_ok _ _ _ _ _ (alloc_run _ _ _)).
      unfold bind at 1. unfold lift at 1. rewrite Et.
      rewrite (bind_ok _ _ _ _ _ (alloc_run _ _ _)).
      unfold bind at 1. unfold lift at 1. rewrite Ej.
      rewrite <- app_assoc. reflexivity. }
  exists [OIndex idx; ONdarray3 gathered;
          ONdarrayF2 (map (map (fun x => np_true_divide (Fin x) base_var))
                          je)].
  rewrite (bind_ok _ _ _ _ _ Hdraw).
  rewrite (bind_ok _ _ _ _ _ (alloc_run _ _ _)).
  unfold bind at 1. unfold lift at 1. rewrite Et.
  rewrite (bind_ok _ _ _ _ _ (alloc_run _ _ _)).
  unfold bind at 1. unfold lift at 1. rewrite Ej.
  rewrite (bind_ok _ _ _ _ _ (alloc_run _ _ _)).
  rewrite alloc_run. unfold Rand.ret.
  rewrite <- !app_assoc. reflexivity.
Qed.

Lemma replace_at_same (o : obj) :
  forall (a : heap) (l : loc),
    (l < length a)%nat -> nth_error (replace_at l o a) l = Some o.
Proof.
  induction a as [|x a IH]; intros [|l] Hl; simpl in *; try lia; auto.
  apply IH. lia.
Qed.

Lemma replace_at_app_r (o : obj) (a b : heap) (l : loc) :
  (length a <= l)%nat ->
  replace_at l o (a ++ b) = a ++ replace_at (l - length a)%nat o b.
Proof.
  intros H. rewrite <- (replace_at_app o b a (l - length a)%nat).
  f_equal. lia.
Qed.

Lemma dict_set_at (a : heap) (l : loc) (entries : list (string * value))
  (key : string) (v : value) (g : rng) :
  nth_error a l = Some (ODict entries) ->
  dict_set l key v (a, g)
  = (Ok tt, (replace_at l (ODict (assoc_set key v entries)) a, g)).
Proof.
  intros H. unfold dict_set.
  now rewrite (bind_ok _ _ _ _ _ (load_here a _ _ g H)).
Qed.

Lemma dict_get_at (a : heap) (l : loc) (entries : list (string * value))
  (key : string) (v : value) (g : rng) :
  nth_error a l = Some (ODict entries) -> assoc key entries = Some v ->
  dict_get l key (a, g) = (Ok v, (a, g)).
Proof.
  intros H Hk. unfold dict_get.
  rewrite (bind_ok _ _ _ _ _ (load_here a _ _ g H)). now rewrite Hk.
Qed.

Lemma nth_error_mid (a t : heap) (o : obj) :
  nth_error (a ++ o :: t) (length a) = Some o.
Proof. rewrite nth_error_app2 by lia. now rewrite Nat.sub_diag. Qed.

Section Refinement.
Variable h : heap.
Variables problem_loc Y_loc : loc.
Variable problem : Problem.
Variable Y : list Q.
Variable entries : list (string * value).
Variable names_v : value.
Hypothesis Y_at : nth_error h Y_loc = Some (ONdarray1 Y).
Hypothesis problem_at : nth_error h problem_loc = Some (ODict entries).
Hypothesis num_vars_at :
  assoc "num_vars" entries = Some (VNat (num_vars problem)).
Hypothesis names_at : assoc "names" entries = Some names_v.

Variables s nres : Z.
Variable conf : Q.
Variable seed : option Z.
Variable g : rng.

Let D := num_vars problem.

(** The first statements of the call: reading [num_vars] and the length of
    [Y]. *)
Lemma store_analyze_start (k : nat -> list Q -> HM loc) :
  bind (dict_get problem_loc "num_vars") (fun num_vars_v =>
  bind (as_nat num_vars_v) (fun num_vars =>
  bind (load_ndarray1 Y_loc) (fun Y_now => k num_vars Y_now))) (h, g)
  = k D Y (h, g).
Proof.
  assert (H1 : dict_get problem_loc "num_vars" (h, g)
               = (Ok (VNat D), (h, g))).
  { unfold dict_get.
    rewrite (bind_ok _ _ _ _ _ (load_here h _ _ g problem_at)).
    now rewrite num_vars_at. }
  rewrite (bind_ok _ _ _ _ _ H1). cbn [as_nat].
  erewrite bind_ok; [|reflexivity].
  assert (H3 : load_ndarray1 Y_loc (h, g) = (Ok Y, (h, g))).
  { unfold load_ndarray1.
    now rewrite (bind_ok _ _ _ _ _ (load_here h _ _ g Y_at)). }
  now rewrite (bind_ok _ _ _ _ _ H3).
Qed.

Lemma store_analyze_zero_sets :
  s = 0%Z ->
  analyze problem_loc Y_loc s nres conf seed (h, g)
  = (Raise ZeroDivisionError, (h, g)).
Proof.
  intros ->. unfold analyze. rewrite store_analyze_start. reflexivity.
Qed.

Lemma store_analyze_mismatch :
  s <> 0%Z -> ~ JansenSpec.shape_precondition problem Y s ->
  analyze problem_loc Y_loc s nres conf seed (h, g)
  = (Raise AssertionError, (h, g)).
Proof.
  intros Hs Hshape. unfold analyze. rewrite store_analyze_start.
  unfold bind at 1. unfold lift at 1. unfold Jansen.true_div.
  replace (s =? 0)%Z with false by (symmetry; apply Z.eqb_neq; lia).
  unfold bind at 1. unfold lift at 1.
  replace (Qeq_bool _ _) with false; [reflexivity|].
  symmetry. apply not_true_is_false. intros H. apply Hshape.
  now apply Qeq_bool_eq.
Qed.

Lemma store_analyze_seeded :
  JansenSpec.shape_precondition problem Y s -> truthy seed = true ->
  analyze problem_loc Y_loc s nres conf seed (h, g)
  = (Raise AttributeError, (h, g)).
Proof.
  intros Hshape Hseed.
  pose proof (proj1 (shape_precondition_iff problem Y s) Hshape) as [Hs _].
  unfold analyze. rewrite store_analyze_start. unfold D.
  unfold bind at 1. unfold lift at 1. unfold Jansen.true_div.
  replace (s =? 0)%Z with false by (symmetry; apply Z.eqb_neq; lia).
  unfold bind at 1. unfold lift at 1.
  rewrite (shape_check_true problem Y s Hshape). cbn [Jansen.py_assert].
  destruct seed as [z|]; [|discriminate]. rewrite Hseed. reflexivity.
Qed.

Lemma store_analyze_to_bootstrap :
  JansenSpec.shape_precondition problem Y s -> truthy seed = false ->
  exists mid Si_loc ST_loc l0 l2,
    analyze problem_loc Y_loc s nres conf seed (h, g)
    = bind (compute_radial_si_confidence
              (length h) (np_var (slice_step 0 (D + 1) Y)) s nres conf)
           (fun ST_conf =>
            bind (dict_set Si_loc "ST_conf" (VRef ST_conf)) (fun _ =>
            bind (dict_get problem_loc "names") (fun names_v =>
            bind (dict_set Si_loc "names" names_v) (fun _ =>
            ret Si_loc))))
           (h ++ mid, g)
    /\ nth_error (h ++ mid) (length h)
       = Some (ONdarray2 (JansenAux.st_array D s Y))
    /\ nth_error (h ++ mid) Si_loc
       = Some (ODict [("names"%string, VRef l0);
                      ("ST"%string, VRef ST_loc);
                      ("ST_conf"%string, VRef l2)])
    /\ nth_error (h ++ mid) ST_loc
       = Some (ONdarrayF1 (JansenAux.ST_values D s Y))
    /\ (length h <= Si_loc)%nat /\ Si_loc <> ST_loc.
Proof.
  intros Hshape Hseed.
  pose proof (proj1 (shape_precondition_iff problem Y s) Hshape) as [Hs _].
  set (st_obj := ONdarray2 (JansenAux.st_array D s Y)).
  set (temps := map (fun i => ONdarray1 (effect_row D Y i)) (seq 0 D)).
  set (nones := OList (repeat VNone D)).
  set (H1 := h ++ st_obj :: temps).
  set (pre := ((H1 ++ [nones]) ++ [nones]) ++ [nones]).
  set (dict0 := ODict [("names"%string, VRef (length H1));
                       ("ST"%string, VRef (length (H1 ++ [nones])));
                       ("ST_conf"%string,
                        VRef (length ((H1 ++ [nones]) ++ [nones])))]).
  set (ST_obj := ONdarrayF1 (JansenAux.ST_values D s Y)).
  set (dict1 := ODict [("names"%string, VRef (length H1));
                       ("ST"%string, VRef (length (pre ++ [dict0])));
                       ("ST_conf"%string,
                        VRef (length ((H1 ++ [nones]) ++ [nones])))]).
  exists (st_obj :: temps ++ [nones; nones; nones; dict1; ST_obj]),
         (length pre), (length (pre ++ [dict0])), (length H1),
         (length ((H1 ++ [nones]) ++ [nones])).
  assert (Hheap : h ++ st_obj :: temps
                    ++ [nones; nones; nones; dict1; ST_obj]
                  = pre ++ dict1 :: [ST_obj]).
  { unfold pre, H1. rewrite <- !app_assoc. reflexivity. }
  split; [|split; [|split; [|split; [|split]]]].
  - unfold analyze. rewrite store_analyze_start. unfold D.
    unfold bind at 1. unfold lift at 1. unfold Jansen.true_div.
    replace (s =? 0)%Z with false by (symmetry; apply Z.eqb_neq; lia).
    unfold bind at 1. unfold lift at 1.
    rewrite (shape_check_true problem Y s Hshape). cbn [Jansen.py_assert].
    replace (match seed with
             | Some s0 => if truthy seed
                          then lift_rand (Rand.call_attr "set_seed" s0)
                          else ret tt
             | None => ret tt
             end) with (ret (A := unit) tt)
      by (destruct seed; [rewrite Hseed|]; reflexivity).
    erewrite bind_ok; [|reflexivity].
    unfold bind at 1. unfold lift at 1. unfold Jansen.np_empty_shape.
    replace (s <? 0)%Z with false by (symmetry; apply Z.ltb_ge; lia).
    cbn [fst snd].
    rewrite (bind_ok _ _ _ _ _ (alloc_run _ _ _)).
    erewrite bind_ok; [|apply (load_view_old h _ _ Y); exact Y_at].
    cbn [view_start view_step].
    erewrite bind_ok;
      [|apply (loop_run h Y_loc Y Y_at (num_vars problem))].
    rewrite rows_after_all. cbn [app]. fold D.
    change (ONdarray2 {| shape0 := D; shape1 := Z.to_nat s;
                         rows := map (effect_row D Y) (seq 0 D) |})
      with st_obj.
    fold temps. fold H1.
    rewrite (bind_ok _ _ _ _ _ (alloc_run _ _ _)). fold nones.
    rewrite (bind_ok _ _ _ _ _ (alloc_run _ _ _)).
    rewrite (bind_ok _ _ _ _ _ (alloc_run _ _ _)). fold pre.
    rewrite (bind_ok _ _ _ _ _ (alloc_run _ _ _)). fold dict0.
    assert (Hst : load_ndarray2 (length h) (pre ++ [dict0], g)
                  = (Ok (JansenAux.st_array D s Y), (pre ++ [dict0], g))).
    { assert (Hnth : nth_error (pre ++ [dict0]) (length h) = Some st_obj).
      { unfold pre, H1. rewrite <- !app_assoc. apply nth_error_mid. }
      unfold load_ndarray2.
      now rewrite (bind_ok _ _ _ _ _ (load_here _ _ _ g Hnth)). }
    rewrite (bind_ok _ _ _ _ _ Hst).
    unfold bind at 1. unfold lift at 1. unfold Jansen.jansen_estimator.
    replace (s =? 0)%Z with false by (symmetry; apply Z.eqb_neq; lia).
    rewrite (bind_ok _ _ _ _ _ (alloc_run _ _ _)).
    change (ONdarrayF1 _) with ST_obj.
    rewrite <- (app_assoc pre). cbn [app].
    erewrite bind_ok; [|unfold dict0; apply dict_set_mid].
    rewrite Hheap. reflexivity.
  - apply nth_error_mid.
  - rewrite Hheap. apply nth_error_mid.
  - rewrite Hheap.
    change (pre ++ dict1 :: [ST_obj]) with (pre ++ [dict1] ++ [ST_obj]).
    rewrite app_assoc.
    replace (length (pre ++ [dict0])) with (length (pre ++ [dict1]))
      by (now rewrite !length_app).
    apply nth_error_mid.
  - unfold pre, H1. rewrite !length_app. lia.
  - rewrite length_app. cbn [length]. lia.
Qed.


(** The store embedding refines [Jansen.analyze]: run on a store that holds
    [Y] and the problem dictionary, it ends the way [Jansen.analyze] ends,
    with the same generator state; the store only grows; and a returned
    dictionary holds the very [names] object of the problem and two new
    arrays with the values of [ST] and [ST_conf]. *)
Lemma store_analyze_refines :
  match Jansen.analyze problem Y s nres conf seed g with
  | (Ok Si, g1) =>
      exists extra Si_loc ST_loc conf_loc,
        analyze problem_loc Y_loc s nres conf seed (h, g)
        = (Ok Si_loc, (h ++ extra, g1))
        /\ nth_error (h ++ extra) Si_loc
           = Some (ODict [("names"%string, names_v);
                          ("ST"%string, VRef ST_loc);
                          ("ST_conf"%string, VRef conf_loc)])
        /\ nth_error (h ++ extra) ST_loc = Some (ONdarrayF1 (Si_ST Si))
        /\ nth_error (h ++ extra) conf_loc
           = Some (ONdarrayF1 (Si_ST_conf Si))
  | (Raise e, g1) =>
      exists extra,
        analyze problem_loc Y_loc s nres conf seed (h, g)
        = (Raise e, (h ++ extra, g1))
  end.
Proof.
  destruct (Z.eq_dec s 0) as [Hs0|Hs0].
  { assert (Hp : Jansen.analyze problem Y s nres conf seed g
                 = (Raise ZeroDivisionError, g))
      by (rewrite Hs0; apply analyze_zero_sample_sets).
    rewrite Hp. exists []. rewrite app_nil_r.
    now apply store_analyze_zero_sets. }
  destruct (Qeq_dec (inject_Z (Z.of_nat (length Y)) / inject_Z s)
                    (inject_Z (Z.of_nat (num_vars problem) + 1)))
    as [Hshape|Hshape].
  2:{ rewrite analyze_shape_mismatch by assumption. exists [].
      rewrite app_nil_r. now apply store_analyze_mismatch. }
  change (JansenSpec.shape_precondition problem Y s) in Hshape.
  destruct (truthy seed) eqn:Hseed.
  { rewrite analyze_seeded_raises by assumption. exists [].
    rewrite app_nil_r. now apply store_analyze_seeded. }
  rewrite analyze_after_shape_check, Hseed by assumption.
  destruct (store_analyze_to_bootstrap Hshape Hseed)
    as [mid [Si_loc [ST_loc [l0 [l2 [Hrun [Hst [HSi [HST [Hle Hne]]]]]]]]]].
  pose proof (store_confidence_run (h ++ mid) (length h) _
                (np_var (slice_step 0 (D + 1) Y)) s nres conf g Hst) as Hc.
  fold D.
  destruct (Jansen.compute_radial_si_confidence
              (JansenAux.st_array D s Y) (np_var (slice_step 0 (D + 1) Y))
              s nres conf g) as [[v|e] g1];
    destruct Hc as [extra Hc].
  2:{ exists (mid ++ extra).
      rewrite Hrun, (bind_raise _ _ _ _ _ Hc), app_assoc. reflexivity. }
  assert (HSi_lt : (Si_loc < length (h ++ mid))%nat)
    by (apply nth_error_Some; congruence).
  assert (HST_lt : (ST_loc < length (h ++ mid))%nat)
    by (apply nth_error_Some; congruence).
  assert (Hp_lt : (problem_loc < length h)%nat)
    by (apply nth_error_Some; congruence).
  set (conf_loc := length ((h ++ mid) ++ extra)) in *.
  set (Hc_heap := ((h ++ mid) ++ extra) ++ [ONdarrayF1 v]) in *.
  assert (HSi_c : nth_error Hc_heap Si_loc
                  = Some (ODict [("names"%string, VRef l0);
                                 ("ST"%string, VRef ST_loc);
                                 ("ST_conf"%string, VRef l2)])).
  { unfold Hc_heap.
    rewrite nth_error_app1 by (rewrite length_app; lia).
    rewrite nth_error_app1 by lia. exact HSi. }
  set (dict2 := ODict [("names"%string, VRef l0);
                       ("ST"%string, VRef ST_loc);
                       ("ST_conf"%string, VRef conf_loc)]).
  set (dict3 := ODict [("names"%string, names_v);
                       ("ST"%string, VRef ST_loc);
                       ("ST_conf"%string, VRef conf_loc)]).
  assert (Hlen_c : (Si_loc < length Hc_heap)%nat)
    by (unfold Hc_heap; rewrite !length_app in *; lia).
  assert (Hfinal :
            analyze problem_loc Y_loc s nres conf seed (h, g)
            = (Ok Si_loc,
               (replace_at Si_loc dict3 (replace_at Si_loc dict2 Hc_heap),
                g1))).
  { rewrite Hrun, (bind_ok _ _ _ _ _ Hc).
    rewrite (bind_ok _ _ _ _ _ (dict_set_at _ _ _ "ST_conf" _ g1 HSi_c)).
    change (ODict (assoc_set "ST_conf" (VRef conf_loc) _)) with dict2.
    erewrite bind_ok.
    2:{ apply (dict_get_at _ _ entries); [|exact names_at].
        rewrite replace_at_other by lia. unfold Hc_heap.
        rewrite <- !app_assoc. rewrite nth_error_app1 by lia.
        exact problem_at. }
    erewrite bind_ok.
    2:{ apply (dict_set_at _ _ [("names"%string, VRef l0);
                                ("ST"%string, VRef ST_loc);
                                ("ST_conf"%string, VRef conf_loc)]).
        now apply replace_at_same. }
    reflexivity. }
  assert (Hext : replace_at Si_loc dict3 (replace_at Si_loc dict2 Hc_heap)
                 = h ++ replace_at (Si_loc - length h)%nat dict3
                          (replace_at (Si_loc - length h)%nat dict2
                             (mid ++ extra ++ [ONdarrayF1 v]))).
  { unfold Hc_heap. rewrite <- !app_assoc.
    now rewrite !replace_at_app_r by assumption. }
  exists (replace_at (Si_loc - length h)%nat dict3
            (replace_at (Si_loc - length h)%nat dict2
               (mid ++ extra ++ [ONdarrayF1 v]))),
         Si_loc, ST_loc, conf_loc.
  rewrite <- Hext. split; [exact Hfinal|]. split; [|split].
  - apply replace_at_same.
    assert (Hl : forall o a l, length (replace_at l o a) = length a).
    { intros o. induction a as [|x a IH]; intros [|l]; simpl; auto. }
    now rewrite Hl.
  - cbn [Si_ST]. rewrite !replace_at_other by (intros E; apply Hne; auto).
    unfold Hc_heap.
    rewrite nth_error_app1 by (rewrite length_app; lia).
    rewrite nth_error_app1 by lia. exact HST.
  - cbn [Si_ST_conf].
    rewrite !replace_at_other by (unfold conf_loc; rewrite !length_app in *; lia).
    unfold Hc_heap, conf_loc. apply nth_error_mid.
Qed.

End Refinement.
End StoreRuns.

(** ** The third scenario, evaluated *)

Section Scenario3.
Import Demo.

(** [Y_base = [10, 20]], [base_variance = 25], [ST_1 = (4+4)/(2*2)/25] and
    [ST_2 = (1+1)/(2*2)/25]. *)
Example scenario3_indices :
  exists conf_values g',
    Jansen.analyze (RS := demo_rng) problem2 Y3 2 16 (95 # 100) None 7%Z
    = (Ok {| Si_names := ["x1"; "x2"]%string;
             Si_ST := [Fin (256 # 3200); Fin (64 # 3200)];
             Si_ST_conf := conf_values |}, g')
    /\ feq (Fin (256 # 3200)) (Fin ((4 + 4) / (2 * 2) / 25))
    /\ feq (Fin (64 # 3200)) (Fin ((1 + 1) / (2 * 2) / 25)).
Proof.
  eexists. eexists. split; [vm_compute; reflexivity|].
  split; reflexivity.
Qed.

(** On the store: the result dictionary is the new object at location 12;
    its [names] entry is the caller's list (location 0), and the six
    objects of the caller are as they were. *)
Example scenario3_store :
  let out := Store.analyze (RS := demo_rng) 4%nat 5%nat 2 16 (95 # 100) None
                           (caller_heap, 7%Z) in
  fst out = Ok 12%nat
  /\ firstn 6 (fst (snd out)) = caller_heap
  /\ nth_error (fst (snd out)) 12
     = Some (Store.ODict [("names"%string, Store.VRef 0%nat);
                          ("ST"%string, Store.VRef 13%nat);
                          ("ST_conf"%string, Store.VRef 17%nat)])
  /\ nth_error (fst (snd out)) 13
     = Some (Store.ONdarrayF1 [Fin (256 # 3200); Fin (64 # 3200)]).
Proof. vm_compute. repeat split; reflexivity. Qed.

End Scenario3.

(** * Further properties of the three files *)

(** ** The estimator: how a call ends and what it touches *)

Section JansenOutcomes.
Context {RS : RandomState} {SP : Special}.
Import Jansen JansenSpec.

(** The statements of [analyze] that can raise run in a fixed order, and
    the first one that fails decides the exception.  The problem is here a
    record: the two lookups in the dictionary are followed on the store. *)
Lemma analyze_outcome_values {RSL : RandomStateLaws RS}
  (problem : Problem) (Y : list Q) (s nres : Z) (conf : Q)
  (seed : option Z) (g : rng) :
  let out := fst (analyze problem Y s nres conf seed g) in
  (s = 0%Z -> out = Raise ZeroDivisionError)
  /\ (s <> 0%Z -> ~ shape_precondition problem Y s ->
      out = Raise AssertionError)
  /\ (shape_precondition problem Y s -> truthy seed = true ->
      out = Raise AttributeError)
  /\ (shape_precondition problem Y s -> truthy seed = false ->
      ~ (0 < conf /\ conf < 1) \/ (nres < 0)%Z ->
      out = Raise ValueError)
  /\ (shape_precondition problem Y s -> truthy seed = false ->
      0 < conf /\ conf < 1 -> (0 <= nres)%Z ->
      exists Si, out = Ok Si)
  /\ out <> Raise IndexError /\ out <> Raise KeyError
  /\ out <> Raise TypeError.
Proof.
  intros out. subst out.
  assert (C1 : s = 0%Z ->
               fst (analyze problem Y s nres conf seed g)
               = Raise ZeroDivisionError).
  { intros ->. now rewrite analyze_zero_sample_sets. }
  assert (C2 : s <> 0%Z -> ~ shape_precondition problem Y s ->
               fst (analyze problem Y s nres conf seed g)
               = Raise AssertionError).
  { intros Hs Hn. now rewrite analyze_shape_mismatch. }
  assert (C3 : shape_precondition problem Y s -> truthy seed = true ->
               fst (analyze problem Y s nres conf seed g)
               = Raise AttributeError).
  { intros Hsh Hseed. now rewrite analyze_seeded_raises. }
  assert (C4 : shape_precondition problem Y s -> truthy seed = false ->
               ~ (0 < conf /\ conf < 1) \/ (nres < 0)%Z ->
               fst (analyze problem Y s nres conf seed g)
               = Raise ValueError).
  { intros Hsh Hseed Hbad.
    rewrite analyze_after_shape_check, Hseed by assumption.
    destruct (conf_level_dec conf) as [[H0 H1]|Hc].
    - destruct Hbad as [Hbad|Hneg]; [tauto|].
      now rewrite confidence_negative_resamples.
    - now rewrite confidence_invalid_level. }
  assert (C5 : shape_precondition problem Y s -> truthy seed = false ->
               0 < conf /\ conf < 1 -> (0 <= nres)%Z ->
               exists Si, fst (analyze problem Y s nres conf seed g) = Ok Si).
  { intros Hsh Hseed [H0 H1] Hn.
    rewrite (analyze_returns problem Y s nres conf seed g) by assumption.
    eexists. reflexivity. }
  repeat (split; [assumption|]).
  assert (Hall : forall e,
             fst (analyze problem Y s nres conf seed g) = Raise e ->
             e = ZeroDivisionError \/ e = AssertionError
             \/ e = AttributeError \/ e = ValueError).
  { intros e He.
    destruct (Z.eq_dec s 0) as [Hs|Hs];
      [rewrite (C1 Hs) in He; injection He as <-; tauto|].
    destruct (shape_precondition_dec problem Y s) as [Hsh|Hsh];
      [|rewrite (C2 Hs Hsh) in He; injection He as <-; tauto].
    destruct (truthy seed) eqn:Hseed;
      [rewrite (C3 Hsh eq_refl) in He; injection He as <-; tauto|].
    destruct (conf_level_dec conf) as [Hc|Hc];
      [|rewrite (C4 Hsh eq_refl (or_introl Hc)) in He;
        injection He as <-; tauto].
    destruct (Z_lt_le_dec nres 0) as [Hn|Hn];
      [rewrite (C4 Hsh eq_refl (or_intror Hn)) in He;
       injection He as <-; tauto|].
    destruct (C5 Hsh eq_refl Hc Hn) as [Si HSi].
    rewrite HSi in He. discriminate. }
  repeat split; intros He; apply Hall in He;
    destruct He as [E|[E|[E|E]]]; discriminate.
Qed.

(** Past the lookup of ['num_vars'] and before the lookup of ['names'], a
    call that raises has drawn nothing. *)
Lemma analyze_raise_values {RSL : RandomStateLaws RS}
  (problem : Problem) (Y : list Q) (s nres : Z) (conf : Q)
  (seed : option Z) (g g' : rng) (e : exn) :
  analyze problem Y s nres conf seed g = (Raise e, g') -> g' = g.
Proof.
  intros Hrun.
  destruct (Z.eq_dec s 0) as [->|Hs].
  { rewrite analyze_zero_sample_sets in Hrun. congruence. }
  destruct (shape_precondition_dec problem Y s) as [Hsh|Hsh].
  2:{ rewrite analyze_shape_mismatch in Hrun by assumption. congruence. }
  destruct (truthy seed) eqn:Hseed.
  { rewrite analyze_seeded_raises in Hrun by assumption. congruence. }
  rewrite analyze_after_shape_check, Hseed in Hrun by assumption.
  destruct (conf_level_dec conf) as [[H0 H1]|Hc].
  2:{ rewrite confidence_invalid_level in Hrun by assumption. congruence. }
  destruct (Z_lt_le_dec nres 0) as [Hn|Hn].
  { rewrite confidence_negative_resamples in Hrun by assumption.
    congruence. }
  pose proof (proj1 (shape_precondition_iff problem Y s) Hsh) as [Hs1 _].
  rewrite confidence_returns in Hrun; try assumption; [discriminate|].
  cbn [JansenAux.st_array shape1]. lia.
Qed.

(** X3.  The indices and the names of a result do not depend on the
    bootstrap: two returning calls on the same problem and outputs agree
    on [ST] and [names] whatever the generator state, the number of
    resamples and the confidence level of each. *)
Theorem analyze_indices_ignore_bootstrap
  (problem : Problem) (Y : list Q) (s nres nres' : Z) (conf conf' : Q)
  (seed seed' : option Z) (g g' g1 g1' : rng) (Si Si' : ResultDict) :
  analyze problem Y s nres conf seed g = (Ok Si, g1) ->
  analyze problem Y s nres' conf' seed' g' = (Ok Si', g1') ->
  Si_ST Si = Si_ST Si' /\ Si_names Si = Si_names Si'.
Proof.
  intros H1 H2.
  destruct (analyze_ok_inv _ _ _ _ _ _ _ _ _ H1) as [_ [_ [N1 S1]]].
  destruct (analyze_ok_inv _ _ _ _ _ _ _ _ _ H2) as [_ [_ [N2 S2]]].
  split; congruence.
Qed.

(** X4.  A result has one index and one confidence value per variable,
    and its names are the problem's. *)
Theorem analyze_result_lengths {RSL : RandomStateLaws RS}
  (problem : Problem) (Y : list Q) (s nres : Z) (conf : Q)
  (seed : option Z) (g g' : rng) (Si : ResultDict) :
  analyze problem Y s nres conf seed g = (Ok Si, g') ->
  length (Si_ST Si) = num_vars problem
  /\ length (Si_ST_conf Si) = num_vars problem
  /\ Si_names Si = names problem.
Proof.
  intros Hrun.
  destruct (analyze_ok_full _ _ _ _ _ _ _ _ _ Hrun)
    as [_ [_ [_ [_ [-> _]]]]].
  cbn [Si_ST Si_ST_conf Si_names]. split; [|split; [|reflexivity]].
  - apply ST_values_length.
  - apply conf_values_length.
Qed.

Lemma randint_vec_app (high a b : nat) (g : rng) :
  Rand.randint_vec high (a + b) g
  = (fst (Rand.randint_vec high a g)
     ++ fst (Rand.randint_vec high b (snd (Rand.randint_vec high a g))),
     snd (Rand.randint_vec high b (snd (Rand.randint_vec high a g)))).
Proof.
  revert g. induction a as [|a IH]; intros g.
  - cbn [Nat.add Rand.randint_vec fst snd app].
    now destruct (Rand.randint_vec high b g).
  - cbn [Nat.add Rand.randint_vec].
    destruct (randint high g) as [x g1]. rewrite IH.
    destruct (Rand.randint_vec high a g1) as [xs g2]. reflexivity.
Qed.

(** The matrix of indices is filled row by row from one stream of draws. *)
Lemma randint_mat_stream (high ncols : nat) :
  forall nrows g,
    concat (fst (Rand.randint_mat high nrows ncols g))
    = fst (Rand.randint_vec high (nrows * ncols) g)
    /\ snd (Rand.randint_mat high nrows ncols g)
       = snd (Rand.randint_vec high (nrows * ncols) g).
Proof.
  induction nrows as [|n IH]; intros g; [split; reflexivity|].
  cbn [Nat.mul Rand.randint_mat]. rewrite randint_vec_app.
  destruct (Rand.randint_vec high ncols g) as [r g1]. cbn [fst snd].
  destruct (IH g1) as [IH1 IH2].
  destruct (Rand.randint_mat high n ncols g1) as [rs g2].
  cbn [fst snd concat] in *. now rewrite IH1, IH2.
Qed.

(** X5.  A returning call has taken [num_resamples * sample_sets]
    successive draws below [sample_sets] from the global generator and
    nothing else: the generator is left in the state after those draws, and
    with [num_resamples = 0] in the state in which the call found it. *)
Theorem analyze_draws {RSL : RandomStateLaws RS}
  (problem : Problem) (Y : list Q) (s nres : Z) (conf : Q)
  (seed : option Z) (g g' : rng) (Si : ResultDict) :
  analyze problem Y s nres conf seed g = (Ok Si, g') ->
  let count := (Z.to_nat nres * Z.to_nat s)%nat in
  let draws := Rand.randint_vec (Z.to_nat s) count g in
  g' = snd draws
  /\ length (fst draws) = count
  /\ Forall (fun x => (x < Z.to_nat s)%nat) (fst draws)
  /\ (nres = 0%Z -> g' = g).
Proof.
  intros Hrun count draws.
  destruct (analyze_ok_full _ _ _ _ _ _ _ _ _ Hrun)
    as [Hsh [_ [_ [_ [_ Hg]]]]].
  pose proof (proj1 (shape_precondition_iff problem Y s) Hsh) as [Hs _].
  destruct (randint_mat_stream (Z.to_nat s) (Z.to_nat s) (Z.to_nat nres) g)
    as [_ Hsnd].
  assert (Eg : g' = snd draws) by (rewrite Hg, Hsnd; reflexivity).
  split; [exact Eg|].
  destruct (randint_vec_spec (Z.to_nat s) ltac:(lia) count g) as [Hl Hr].
  split; [exact Hl|]. split; [exact Hr|].
  intros ->. rewrite Eg. reflexivity.
Qed.

Lemma nth_map_nonfinite {A : Type} (h : A -> float64) (l : list A) (c : nat) :
  (forall x, h x = NonFin) -> nth c (map h l) NonFin = NonFin.
Proof.
  intros Hh. revert c. induction l as [|x l IH]; intros [|c];
    cbn [map nth]; auto.
Qed.

Lemma std_ddof1_nonfinite (col : list float64) :
  (forall x, In x col -> x = NonFin) -> std_ddof1 col = NonFin.
Proof.
  intros Hcol. destruct col as [|x col]; [reflexivity|].
  rewrite (Hcol x (or_introl eq_refl)). reflexivity.
Qed.

(** The variance of a single value is zero. *)
Lemma np_var_single (a : Q) :
  exists v, np_var [a] = Fin v /\ Qeq_bool v 0 = true.
Proof.
  eexists. split; [reflexivity|]. apply Qeq_eq_bool.
  unfold sq_dev, np_mean, Qsum. cbn [map fold_right length].
  change (inject_Z (Z.of_nat 1)) with 1. field.
Qed.

(** X6.  With a single sample set the call does not raise: the variance of
    the one baseline output is zero, the divisions by it yield non-finite
    values, and every index and every confidence value of the result is
    non-finite. *)
Theorem analyze_single_set_nonfinite {RSL : RandomStateLaws RS}
  (problem : Problem) (Y : list Q) (nres : Z) (conf : Q)
  (seed : option Z) (g : rng) :
  length Y = (num_vars problem + 1)%nat ->
  truthy seed = false ->
  0 < conf -> conf < 1 -> (0 <= nres)%Z ->
  exists Si g',
    analyze problem Y 1 nres conf seed g = (Ok Si, g')
    /\ length (Si_ST Si) = num_vars problem
    /\ length (Si_ST_conf Si) = num_vars problem
    /\ Forall (fun x => x = NonFin) (Si_ST Si)
    /\ Forall (fun x => x = NonFin) (Si_ST_conf Si).
Proof.
  intros HY Hseed H0 H1 Hn.
  assert (Hlen : Z.of_nat (length Y)
                 = (1 * (Z.of_nat (num_vars problem) + 1))%Z) by lia.
  assert (Hsh : shape_precondition problem Y 1)
    by (apply shape_precondition_iff; split; [lia|exact Hlen]).
  pose proof (analyze_returns problem Y 1 nres conf seed g Hsh Hseed
                H0 H1 Hn) as Hrun.
  cbv zeta in Hrun.
  eexists. eexists. split; [exact Hrun|].
  cbn [Si_ST Si_ST_conf].
  split; [apply ST_values_length|]. split; [apply conf_values_length|].
  rewrite (slice_base (num_vars problem) 1 Y ltac:(lia) Hlen).
  change (Y_base (num_vars problem) (Z.to_nat 1) Y)
    with [block_entry (num_vars problem) Y 0 0].
  destruct (np_var_single (block_entry (num_vars problem) Y 0 0))
    as [v [-> Hv]].
  assert (Hdiv : forall x, np_true_divide (Fin x) (Fin v) = NonFin)
    by (intros x; cbn [np_true_divide]; now rewrite Hv).
  split.
  - unfold JansenAux.ST_values. apply Forall_forall. intros x Hx.
    apply in_map_iff in Hx. destruct Hx as [y [<- _]].
    rewrite (slice_base (num_vars problem) 1 Y ltac:(lia) Hlen).
    change (Y_base (num_vars problem) (Z.to_nat 1) Y)
      with [block_entry (num_vars problem) Y 0 0].
    destruct (np_var_single (block_entry (num_vars problem) Y 0 0))
      as [v' [-> Hv']].
    cbn [np_true_divide]. now rewrite Hv'.
  - unfold JansenAux.conf_values, std_ddof1_axis0.
    apply Forall_forall. intros x Hx.
    apply in_map_iff in Hx. destruct Hx as [y [<- Hy]].
    apply in_map_iff in Hy. destruct Hy as [c [<- _]].
    rewrite std_ddof1_nonfinite;
      [destruct (norm_ppf_float (ppf_argument conf)); reflexivity|].
    intros z Hz. apply in_map_iff in Hz. destruct Hz as [row [<- Hrow]].
    unfold JansenAux.res_array in Hrow.
    apply in_map_iff in Hrow. destruct Hrow as [r [<- _]].
    now apply nth_map_nonfinite.
Qed.

End JansenOutcomes.

(** ** The estimator: what the indices measure *)

Section JansenValues.
Context {RS : RandomState} {SP : Special}.
Import Jansen JansenSpec.

Lemma Qsum_scale {A : Type} (f : A -> Q) (a : Q) (l : list A) :
  Qsum (map (fun x => a * f x) l) == a * Qsum (map f l).
Proof.
  induction l as [|x l IH]; cbn [map Qsum fold_right]; [ring|].
  unfold Qsum in IH. rewrite IH. ring.
Qed.

Lemma Qsum_affine (a c : Q) (l : list Q) :
  Qsum (map (fun y => a * y + c) l)
  == a * Qsum l + c * inject_Z (Z.of_nat (length l)).
Proof.
  induction l as [|x l IH].
  - cbn [map Qsum fold_right length]. change (inject_Z (Z.of_nat 0)) with 0.
    ring.
  - cbn [map Qsum fold_right length]. unfold Qsum in IH. rewrite IH.
    rewrite Nat2Z.inj_succ, <- Z.add_1_r, inject_Z_plus.
    change (inject_Z 1) with 1. ring.
Qed.

Lemma length_Q_nonzero {A : Type} (l : list A) :
  l <> [] -> ~ inject_Z (Z.of_nat (length l)) == 0.
Proof.
  intros Hl H. destruct l; [congruence|].
  unfold Qeq, inject_Z in H. cbn [Qnum Qden length] in H. lia.
Qed.

Lemma sq_dev_affine (a c : Q) (l : list Q) :
  l <> [] -> sq_dev (map (fun y => a * y + c) l) == a ^ 2 * sq_dev l.
Proof.
  intros Hl.
  assert (Hm : np_mean (map (fun y => a * y + c) l) == a * np_mean l + c).
  { unfold np_mean. rewrite length_map, Qsum_affine.
    field. now apply length_Q_nonzero. }
  unfold sq_dev. rewrite map_map.
  rewrite <- (Qsum_scale (fun x => (x - np_mean l) ^ 2) (a ^ 2) l).
  apply Qsum_ext_eq. intros x _. rewrite Hm. ring.
Qed.

Lemma block_entry_map (f : Q -> Q) (D : nat) (Y : list Q) (k p : nat) :
  (k * (D + 1) + p < length Y)%nat ->
  block_entry D (map f Y) k p = f (block_entry D Y k p).
Proof. intros H. unfold block_entry. now apply nth_map_in. Qed.

Lemma block_index_bound (D s k p : nat) :
  (k < s)%nat -> (p < D + 1)%nat -> (k * (D + 1) + p < s * (D + 1))%nat.
Proof. intros Hk Hp. nia. Qed.

(** The total effect of a variable is the same for the outputs [Y] and
    for [a * Y + c]. *)
Lemma total_effect_affine (a c : Q) (D : nat) (s : Z) (Y : list Q)
  (i : nat) :
  ~ a == 0 -> (1 <= s)%Z ->
  length Y = (Z.to_nat s * (D + 1))%nat -> (i < D + 1)%nat ->
  feq (total_effect 0 D s (map (fun y => a * y + c) Y) i)
      (total_effect 0 D s Y i).
Proof.
  intros Ha Hs HY Hi.
  set (f := fun y => a * y + c).
  set (n := Z.to_nat s) in *.
  assert (HE : effect_sq_sum D n (map f Y) i
               == a ^ 2 * effect_sq_sum D n Y i).
  { unfold effect_sq_sum.
    rewrite <- (Qsum_scale
                  (fun k => (block_entry D Y k 0 - block_entry D Y k i) ^ 2)).
    apply Qsum_ext_eq. intros k Hk. apply in_seq in Hk.
    rewrite !block_entry_map
      by (rewrite HY; apply block_index_bound; lia).
    unfold f. ring. }
  assert (HB : Y_base D n (map f Y) = map f (Y_base D n Y)).
  { unfold Y_base. rewrite map_map. apply map_ext_in. intros k Hk.
    apply in_seq in Hk. apply block_entry_map.
    rewrite HY. apply block_index_bound; lia. }
  assert (Hne : Y_base D n Y <> []).
  { unfold Y_base. intros E. apply (f_equal (@length Q)) in E.
    rewrite length_map, length_seq in E. cbn [length] in E. lia. }
  assert (HV : variance_ddof 0 (Y_base D n (map f Y))
               == a ^ 2 * variance_ddof 0 (Y_base D n Y)).
  { rewrite HB. unfold variance_ddof.
    pose proof (sq_dev_affine a c _ Hne) as Hsq.
    change (fun y => a * y + c) with f in Hsq.
    rewrite length_map, Hsq.
    change (inject_Z 0) with 0. field.
    intros E. apply (length_Q_nonzero _ Hne). rewrite <- E. ring. }
  unfold total_effect. fold n.
  set (E0 := effect_sq_sum D n Y i) in *.
  set (V0 := variance_ddof 0 (Y_base D n Y)) in *.
  set (E1 := effect_sq_sum D n (map f Y) i) in *.
  set (V1 := variance_ddof 0 (Y_base D n (map f Y))) in *.
  assert (Hs2 : ~ 2 * inject_Z s == 0).
  { intros E. assert (H2 : inject_Z s == 0) by lra.
    unfold Qeq, inject_Z in H2. cbn [Qnum Qden] in H2. lia. }
  cbn [np_true_divide].
  destruct (Qeq_bool V0 0) eqn:EV0.
  - apply Qeq_bool_iff in EV0.
    assert (EV1 : Qeq_bool V1 0 = true)
      by (apply Qeq_bool_iff; rewrite HV, EV0; ring).
    rewrite EV1. exact I.
  - assert (HV0 : ~ V0 == 0)
      by (intros E; apply Qeq_bool_iff in E; congruence).
    assert (EV1 : Qeq_bool V1 0 = false).
    { apply not_true_is_false. intros E. apply Qeq_bool_iff in E.
      rewrite HV in E. apply Qmult_integral in E. destruct E as [E|E].
      - assert (E2 : a * a == 0) by (rewrite <- E; ring).
        apply Qmult_integral in E2. tauto.
      - now apply HV0. }
    rewrite EV1. cbn [feq]. rewrite HE, HV. field.
    repeat split; try assumption.
    intros E. apply Hs2. rewrite E. ring.
Qed.

Lemma Forall2_of_nth {A : Type} (R : A -> A -> Prop) (d : A) :
  forall l l' : list A,
    length l = length l' ->
    (forall i, (i < length l)%nat -> R (nth i l d) (nth i l' d)) ->
    Forall2 R l l'.
Proof.
  induction l as [|x l IH]; intros [|y l'] Hlen Hnth;
    try discriminate; constructor.
  - apply (Hnth 0%nat). cbn [length]. lia.
  - apply IH; [now injection Hlen|].
    intros i Hi. apply (Hnth (S i)). cbn [length]. lia.
Qed.

Lemma feq_sym (x y : float64) : feq x y -> feq y x.
Proof. destruct x, y; cbn [feq]; auto. intros H. now symmetry. Qed.

Lemma feq_trans (x y z : float64) : feq x y -> feq y z -> feq x z.
Proof.
  destruct x, y, z; cbn [feq]; try tauto. intros H1 H2.
  now rewrite H1.
Qed.

(** X7.  The indices do not depend on the unit or the origin of the model
    output: of two returning calls, one on [Y] and one on [a * Y + c] with
    [a] not zero, the indices are equal, variable by variable. *)
Theorem analyze_affine_invariant
  (problem : Problem) (Y : list Q) (a c : Q) (s nres nres' : Z)
  (conf conf' : Q) (seed seed' : option Z) (g g' g1 g1' : rng)
  (Si Si' : ResultDict) :
  ~ a == 0 ->
  analyze problem Y s nres conf seed g = (Ok Si, g1) ->
  analyze problem (map (fun y => a * y + c) Y) s nres' conf' seed' g'
  = (Ok Si', g1') ->
  Forall2 feq (Si_ST Si') (Si_ST Si).
Proof.
  intros Ha H1 H2.
  destruct (analyze_ok_inv _ _ _ _ _ _ _ _ _ H1) as [Hsh [_ [_ ->]]].
  destruct (analyze_ok_inv _ _ _ _ _ _ _ _ _ H2) as [Hsh' [_ [_ ->]]].
  pose proof (proj1 (shape_precondition_iff _ _ _) Hsh) as [Hs HY].
  pose proof (proj1 (shape_precondition_iff _ _ _) Hsh') as [_ HY'].
  set (D := num_vars problem) in *.
  apply (Forall2_of_nth feq NonFin).
  - now rewrite !ST_values_length.
  - intros i Hi. rewrite ST_values_length in Hi.
    eapply feq_trans; [apply (ST_values_nth D s _ i Hs HY' Hi)|].
    eapply feq_trans;
      [|apply feq_sym; apply (ST_values_nth D s Y i Hs HY Hi)].
    apply total_effect_affine; try assumption; lia.
Qed.




End JansenValues.

(** ** The radial sampler and the global generator *)

Section RadialGenerator.
Context {RS : RandomState} {SS : SobolSequence}.
Import Radial RadialSpec.

Lemma sample_unseeded_run (problem : Problem) (N : nat) (seed : option Z)
  (g : rng) :
  truthy seed = false ->
  sample problem N seed g = (Ok (design problem N), g).
Proof.
  intros Hseed. unfold sample, Rand.bind.
  destruct seed as [s|]; [|reflexivity].
  rewrite Hseed. reflexivity.
Qed.

Lemma sample_seeded_run (problem : Problem) (N : nat) (s : Z) (g : rng) :
  s <> 0%Z -> (0 <= s < 2 ^ 32)%Z ->
  sample problem N (Some s) g = (Ok (design problem N), seed_state s).
Proof.
  intros Hs Hr. unfold sample, Rand.bind. cbn [truthy].
  replace (s =? 0)%Z with false by (symmetry; apply Z.eqb_neq; exact Hs).
  cbn [negb]. rewrite call_seed. unfold Rand.seed.
  replace ((0 <=? s)%Z && (s <? 2 ^ 32)%Z) with true; [reflexivity|].
  symmetry. apply andb_true_iff.
  split; [apply Z.leb_le | apply Z.ltb_lt]; lia.
Qed.

Lemma sample_bad_seed_run (problem : Problem) (N : nat) (s : Z) (g : rng) :
  (s < 0 \/ 2 ^ 32 <= s)%Z ->
  sample problem N (Some s) g = (Raise ValueError, g).
Proof.
  intros Hr. unfold sample, Rand.bind. cbn [truthy].
  replace (s =? 0)%Z with false by (symmetry; apply Z.eqb_neq; lia).
  cbn [negb]. rewrite call_seed. unfold Rand.seed.
  replace ((0 <=? s)%Z && (s <? 2 ^ 32)%Z) with false; [reflexivity|].
  symmetry. apply andb_false_iff.
  destruct Hr as [Hr|Hr]; [left; apply Z.leb_gt | right; apply Z.ltb_ge];
    lia.
Qed.

(** X9.  What a radial call does to the global generator.  Without a seed,
    or with seed 0, it leaves the generator as it found it.  With another
    seed that numpy accepts it returns the same matrix and leaves the
    generator reseeded, whatever its state was.  With a seed outside
    [0, 2**32) it raises [ValueError], returns no matrix and leaves the
    generator as it found it. *)
Theorem radial_sample_generator (problem : Problem) (N : nat)
  (seed : option Z) (g : rng) :
  (truthy seed = false ->
   sample problem N seed g = (Ok (design problem N), g))
  /\ (forall s, seed = Some s -> s <> 0%Z -> (0 <= s < 2 ^ 32)%Z ->
      sample problem N seed g = (Ok (design problem N), seed_state s))
  /\ (forall s, seed = Some s -> (s < 0 \/ 2 ^ 32 <= s)%Z ->
      sample problem N seed g = (Raise ValueError, g)).
Proof.
  split; [apply sample_unseeded_run|]. split.
  - intros s -> Hs Hr. now apply sample_seeded_run.
  - intros s -> Hr. now apply sample_bad_seed_run.
Qed.

End RadialGenerator.

(** ** From the radial sample to the indices *)

Section Pipeline.
Context {RS : RandomState} {SP : Special} {SS : SobolSequence}.
Import Jansen JansenSpec Radial RadialSpec.


Lemma design_outputs_shape {SSL : SobolLaws SS} (problem : Problem)
  (N : nat) (f : list Q -> Q) :
  length (bounds problem) = num_vars problem -> (1 <= N)%nat ->
  shape_precondition problem (map f (design problem N)) (Z.of_nat N).
Proof.
  intros Hb HN. apply shape_precondition_iff. split; [lia|].
  rewrite length_map, (design_length problem N Hb). lia.
Qed.

(** X10.  The matrix of a radial call has the layout [analyze] expects:
    whatever the model, its outputs on the rows of the matrix, passed with
    [sample_sets = N], pass the shape check, and the call returns one
    index per variable.  For [N = 0] the matrix is empty and the call
    raises [ZeroDivisionError]. *)
Theorem radial_sample_feeds_analyze {RSL : RandomStateLaws RS}
  {SSL : SobolLaws SS}
  (problem : Problem) (N : nat) (f : list Q -> Q)
  (seed seed' : option Z) (nres : Z) (conf : Q) (g g1 g2 : rng)
  (X : list (list Q)) :
  length (bounds problem) = num_vars problem ->
  sample problem N seed g = (Ok X, g1) ->
  (N = 0%nat ->
   X = []
   /\ analyze problem (map f X) (Z.of_nat N) nres conf seed' g2
      = (Raise ZeroDivisionError, g2))
  /\ ((1 <= N)%nat ->
      shape_precondition problem (map f X) (Z.of_nat N)
      /\ (truthy seed' = false -> 0 < conf -> conf < 1 -> (0 <= nres)%Z ->
          exists Si g3,
            analyze problem (map f X) (Z.of_nat N) nres conf seed' g2
            = (Ok Si, g3)
            /\ length (Si_ST Si) = num_vars problem)).
Proof.
  intros Hb Hrun. apply sample_value in Hrun. subst X. split.
  - intros ->. split.
    + apply length_zero_iff_nil. now rewrite (design_length problem 0 Hb).
    + apply analyze_zero_sample_sets.
  - intros HN.
    pose proof (design_outputs_shape problem N f Hb HN) as Hsh.
    split; [exact Hsh|]. intros Hseed H0 H1 Hn.
    pose proof (analyze_returns problem _ (Z.of_nat N) nres conf seed' g2
                  Hsh Hseed H0 H1 Hn) as Hret.
    cbv zeta in Hret. eexists. eexists. split; [exact Hret|].
    cbn [Si_ST]. apply ST_values_length.
Qed.


(** X12.  Seeding the sampler makes the analysis that follows
    reproducible: after a radial call with a seed other than zero that
    numpy accepts, the unseeded analysis of the model outputs returns the
    same result, confidence values included, whatever the state of the
    generator was before the sampling. *)
Theorem seeded_sample_fixes_bootstrap
  (problem : Problem) (N : nat) (f : list Q -> Q) (s : Z)
  (nres : Z) (conf : Q) (g g' g1 g1' : rng) (X X' : list (list Q)) :
  s <> 0%Z ->
  sample problem N (Some s) g = (Ok X, g1) ->
  sample problem N (Some s) g' = (Ok X', g1') ->
  analyze problem (map f X) (Z.of_nat N) nres conf None g1
  = analyze problem (map f X') (Z.of_nat N) nres conf None g1'.
Proof.
  intros Hs H1 H2.
  destruct (Z_lt_le_dec s 0) as [Hneg|Hpos].
  { rewrite sample_bad_seed_run in H1 by lia. discriminate. }
  destruct (Z_lt_le_dec s (2 ^ 32)) as [Hlt|Hge].
  2:{ rewrite sample_bad_seed_run in H1 by lia. discriminate. }
  rewrite sample_seeded_run in H1, H2 by lia.
  injection H1 as <- <-. injection H2 as <- <-. reflexivity.
Qed.

End Pipeline.

(** ** The values of the Latin hypercube before scaling *)

Section LatinValues.
Context {RS : RandomState} {RSL : RandomStateLaws RS}.
Import Latin LatinSpec Float64.

Lemma column_nth (c r : nat) (m : list (list Q)) :
  (r < length m)%nat ->
  nth r (column c m) 0 = nth c (nth r m []) 0.
Proof.
  intros Hr. unfold column.
  now rewrite (nth_map_in (fun row => nth c row 0) [] 0).
Qed.

(** Rounding to the nearest integer adds at most one half. *)
Lemma round_half_even_above (y : Q) :
  inject_Z (round_half_even y) <= y + (1 # 2).
Proof.
  pose proof (Qfloor_le y) as F1. pose proof (Qlt_floor y) as F2.
  rewrite inject_Z_plus in F2. change (inject_Z 1) with 1 in F2.
  unfold round_half_even. set (f := Qfloor y) in *.
  destruct (Qlt_bool (y - inject_Z f) (1 # 2)) eqn:B1; [lra|].
  assert (B1' : ~ y - inject_Z f < 1 # 2)
    by (intros H; apply Qlt_bool_iff in H; congruence).
  assert (Hup : inject_Z (f + 1) <= y + (1 # 2)).
  { rewrite inject_Z_plus. change (inject_Z 1) with 1. lra. }
  destruct (Qlt_bool (1 # 2) (y - inject_Z f)); [exact Hup|].
  destruct (Z.even f); [lra | exact Hup].
Qed.

(** Rounding adds at most a relative [2**-53]. *)
Lemma round64_above (x : Q) :
  0 < x -> round64 x <= x * (1 + (1 # 9007199254740992)).
Proof.
  intros Hx. destruct (exponent_spec x Hx) as [X1 _].
  unfold round64.
  destruct (Qeq_bool x 0) eqn:E0; [apply Qeq_bool_iff in E0; lra|].
  set (e := exponent x) in *. set (P := pow2 (e - 52)).
  pose proof (pow2_pos (e - 52)) as HP. fold P in HP.
  assert (E1 : pow2 e == inject_Z (2 ^ 52) * P).
  { unfold P. rewrite pow2_Z by lia. rewrite <- pow2_plus.
    now replace (52 + (e - 52))%Z with e by lia. }
  change (inject_Z (2 ^ 52)) with (4503599627370496 # 1) in E1.
  pose proof (round_half_even_above (x / P)) as Hm.
  set (m := inject_Z (round_half_even (x / P))) in *.
  assert (Hy : x / P * P == x) by (field; lra).
  assert (Hmul : m * P <= (x / P + (1 # 2)) * P)
    by (apply Qmult_le_compat_r; lra).
  assert (E2 : (x / P + (1 # 2)) * P == x + (1 # 2) * P)
    by (rewrite Qmult_plus_distr_l, Hy; reflexivity).
  rewrite E2 in Hmul. rewrite E1 in X1. lra.
Qed.

(** The upper end of the last stratum is at most 1. *)
Lemma stratum_end_top (N : nat) : (1 <= N)%nat -> stratum_end N N <= 1.
Proof.
  intros HN. pose proof (Qnat_pos N HN) as HNpos.
  assert (Hone : round64 (1 + (1 # 9007199254740992)) == 1)
    by (vm_compute; reflexivity).
  rewrite <- Hone. unfold stratum_end.
  pose proof (width_nonneg N) as Hw0.
  apply round64_mono; [apply Qmult_le_0_compat; lra|].
  assert (Hinv : 0 < 1 / Qnat N).
  { apply Qlt_shift_div_l; [exact HNpos|]. rewrite Qmult_0_l. reflexivity. }
  pose proof (round64_above (1 / Qnat N) Hinv) as Hw. fold (width N) in Hw.
  assert (E : Qnat N * (1 / Qnat N * (1 + (1 # 9007199254740992)))
              == 1 + (1 # 9007199254740992)) by (field; lra).
  rewrite <- E. apply Qmult_le_l; [exact HNpos | exact Hw].
Qed.

(** An entry of the matrix is a draw of its column. *)
Lemma unit_hypercube_entry (N D : nat) (g : rng) (r c : nat) :
  (r < N)%nat -> (c < D)%nat ->
  exists (draws : list Q) (f : nat -> nat),
    (forall j, (j < N)%nat -> in_stratum N j (nth j draws 0))
    /\ (forall i, (i < N)%nat -> (f i < N)%nat)
    /\ (forall i i', (i < N)%nat -> (i' < N)%nat -> f i = f i' -> i = i')
    /\ forall i, (i < N)%nat ->
         nth c (nth i (fst (unit_hypercube N D g)) []) 0
         = nth (f i) draws 0.
Proof.
  intros Hr Hc.
  destruct (unit_hypercube_spec N D g) as [[Hrows _] [_ Hcols]].
  pose proof (dimension_spec N (dimension_state N c g) ltac:(lia))
    as [_ [Hlen [Hin Hperm]]].
  rewrite <- (Hcols c Hc) in Hperm.
  set (draws := fst (stratum_draws (seq 0 N) (width N)
                       (dimension_state N c g))) in *.
  apply Permutation_nth_error in Hperm.
  destruct Hperm as [Hl [f [Hinj Hnth]]]. rewrite Hlen in Hl.
  assert (Hb : forall i, (i < N)%nat -> (f i < N)%nat).
  { intros i Hi. rewrite <- Hlen. apply nth_error_Some.
    rewrite <- Hnth. apply nth_error_Some. lia. }
  exists draws, f. split; [exact Hin|]. split; [exact Hb|].
  split; [intros i i' _ _ E; now apply Hinj|].
  intros i Hi. rewrite <- column_nth by lia.
  specialize (Hnth i).
  destruct (nth_error draws (f i)) as [v|] eqn:Ev.
  - rewrite (nth_error_nth _ _ 0 Hnth), (nth_error_nth _ _ 0 Ev).
    reflexivity.
  - apply nth_error_None in Ev. specialize (Hb i Hi). lia.
Qed.

(** X13.  Before scaling, every value of a Latin sample lies in the unit
    interval, both ends included: the upper end 1.0 is not excluded. *)
Theorem latin_unit_interval (N D : nat) (g : rng) (r c : nat) :
  (r < N)%nat -> (c < D)%nat ->
  let x := nth c (nth r (fst (unit_hypercube N D g)) []) 0 in
  0 <= x /\ x <= 1.
Proof.
  intros Hr Hc x.
  destruct (unit_hypercube_entry N D g r c Hr Hc)
    as [draws [f [Hin [Hb [_ Hnth]]]]].
  unfold x. rewrite (Hnth r Hr).
  destruct (Hin (f r) (Hb r Hr)) as [H1 H2]. split.
  - eapply Qle_trans; [apply (stratum_end_nonneg N (f r))|exact H1].
  - eapply Qle_trans; [exact H2|].
    eapply Qle_trans; [|apply (stratum_end_top N); lia].
    apply stratum_end_mono. specialize (Hb r Hr). lia.
Qed.

(** Two draws of different strata that are equal are the end the strata
    share. *)
Lemma equal_draws_shared_end (N : nat) (draws : list Q) (j j' : nat) :
  (forall k, (k < N)%nat -> in_stratum N k (nth k draws 0)) ->
  (j < j')%nat -> (j' < N)%nat ->
  nth j draws 0 == nth j' draws 0 ->
  nth j draws 0 == stratum_end N (j + 1)
  /\ stratum_end N (j + 1) == stratum_end N j'.
Proof.
  intros Hin Hlt Hj' E.
  destruct (Hin j ltac:(lia)) as [_ A2].
  destruct (Hin j' Hj') as [B1 _].
  pose proof (stratum_end_mono N (j + 1) j' ltac:(lia)) as M.
  split; lra.
Qed.

(** X14.  A column of a Latin sample holds a value twice only at an end
    that strata share: if, before scaling, two different rows agree in a
    column, the common value is the upper end of one stratum and the lower
    end of a later one. *)
Theorem latin_repeated_value_is_shared_end (N D : nat) (g : rng)
  (r r' c : nat) :
  (r < N)%nat -> (r' < N)%nat -> r <> r' -> (c < D)%nat ->
  let U := fst (unit_hypercube N D g) in
  nth c (nth r U []) 0 == nth c (nth r' U []) 0 ->
  exists j j', (j < j')%nat /\ (j' < N)%nat
               /\ nth c (nth r U []) 0 == stratum_end N (j + 1)
               /\ stratum_end N (j + 1) == stratum_end N j'.
Proof.
  intros Hr Hr' Hne Hc U E.
  destruct (unit_hypercube_entry N D g r c Hr Hc)
    as [draws [f [Hin [Hb [Hinj Hnth]]]]].
  fold U in Hnth. rewrite (Hnth r Hr), (Hnth r' Hr') in E.
  rewrite (Hnth r Hr).
  assert (Hf : f r <> f r') by (intros H; apply Hne; now apply Hinj).
  pose proof (Hb r Hr) as B. pose proof (Hb r' Hr') as B'.
  destruct (Nat.lt_total (f r) (f r')) as [Hlt|[Heq|Hgt]];
    [|contradiction|].
  - exists (f r), (f r'). split; [exact Hlt|]. split; [exact B'|].
    now apply (equal_draws_shared_end N draws).
  - exists (f r'), (f r). split; [exact Hgt|]. split; [exact B|].
    destruct (equal_draws_shared_end N draws (f r') (f r) Hin Hgt B)
      as [E1 E2]; [now symmetry|].
    split; [|exact E2]. now rewrite E.
Qed.

End LatinValues.

(** ** The call on the store: what the result holds, and missing keys *)

Section StoreResult.
Context {RS : RandomState} {SP : Special}.
Import Store.

Lemma unchanged_refl (h : heap) : unchanged h h.
Proof. intros l _. reflexivity. Qed.

(** X16.  On the store the call behaves as the computation on values: it
    raises the same exception or returns a dictionary holding the same
    indices and confidence values, leaves the generator in the same state,
    and only appends objects to the store.  The dictionary is a new
    object; its [ST] and [ST_conf] entries refer to arrays of the store,
    and its [names] entry is the value stored under ['names'] in the
    problem itself, not a copy of it. *)
Theorem store_analyze_agrees (h : heap) (problem_loc Y_loc : loc)
  (problem : Problem) (Y : list Q) (entries : list (string * value))
  (names_v : value) (s nres : Z) (conf : Q) (seed : option Z) (g : rng) :
  nth_error h Y_loc = Some (ONdarray1 Y) ->
  nth_error h problem_loc = Some (ODict entries) ->
  assoc "num_vars" entries = Some (VNat (num_vars problem)) ->
  assoc "names" entries = Some names_v ->
  let pure := Jansen.analyze problem Y s nres conf seed g in
  let run := analyze problem_loc Y_loc s nres conf seed (h, g) in
  exists extra,
    snd run = (h ++ extra, snd pure)
    /\ match fst pure, fst run with
       | Ok Si, Ok Si_loc =>
           fresh h Si_loc
           /\ exists ST_loc conf_loc,
                nth_error (h ++ extra) Si_loc
                = Some (ODict [("names"%string, names_v);
                               ("ST"%string, VRef ST_loc);
                               ("ST_conf"%string, VRef conf_loc)])
                /\ nth_error (h ++ extra) ST_loc
                   = Some (ONdarrayF1 (Si_ST Si))
                /\ nth_error (h ++ extra) conf_loc
                   = Some (ONdarrayF1 (Si_ST_conf Si))
       | Raise e, Raise e' => e = e'
       | _, _ => False
       end.
Proof.
  intros HY Hp Hnv Hnames pure run.
  pose proof (store_analyze_refines h problem_loc Y_loc problem Y entries
                names_v HY Hp Hnv Hnames s nres conf seed g) as Href.
  pose proof (frames_analyze h problem_loc Y_loc s nres conf seed h g
                (unchanged_refl h)) as Hfr.
  fold run in Hfr. fold pure in Href. fold run in Href.
  destruct pure as [[Si|e] g1].
  - destruct Href as [extra [Si_loc [ST_loc [conf_loc [E [H1 [H2 H3]]]]]]].
    exists extra. rewrite E in *. cbn [fst snd]. split; [reflexivity|].
    split; [apply Hfr|]. exists ST_loc, conf_loc. tauto.
  - destruct Href as [extra E]. exists extra. rewrite E. cbn [fst snd].
    split; reflexivity.
Qed.

Lemma dict_get_missing (a : heap) (l : loc)
  (entries : list (string * value)) (key : string) (g : rng) :
  nth_error a l = Some (ODict entries) -> assoc key entries = None ->
  dict_get l key (a, g) = (Raise KeyError, (a, g)).
Proof.
  intros Hl Hk. unfold dict_get.
  rewrite (bind_ok _ _ _ _ _ (load_here a l _ g Hl)). now rewrite Hk.
Qed.

(** X17.  The two keys the call reads from the problem are read at its
    two ends.  A problem without ['num_vars'] makes the call raise
    [KeyError] at once, with nothing allocated and nothing drawn.  A
    problem without ['names'] is found out last: an earlier check raises
    as it would otherwise, and when none does the call raises [KeyError]
    after the indices and the resampling have been computed, with the
    generator advanced by all the draws. *)
Theorem store_analyze_missing_keys (h : heap) (problem_loc Y_loc : loc)
  (Y : list Q) (entries : list (string * value))
  (s nres : Z) (conf : Q) (seed : option Z) (g : rng) :
  nth_error h Y_loc = Some (ONdarray1 Y) ->
  nth_error h problem_loc = Some (ODict entries) ->
  (assoc "num_vars" entries = None ->
   analyze problem_loc Y_loc s nres conf seed (h, g)
   = (Raise KeyError, (h, g)))
  /\ (forall problem,
        assoc "num_vars" entries = Some (VNat (num_vars problem)) ->
        assoc "names" entries = None ->
        let pure := Jansen.analyze problem Y s nres conf seed g in
        exists extra,
          analyze problem_loc Y_loc s nres conf seed (h, g)
          = (Raise match fst pure with
                   | Ok _ => KeyError
                   | Raise e => e
                   end,
             (h ++ extra, snd pure))).
Proof.
  intros HY Hp. split.
  { intros Hnone. unfold analyze.
    now rewrite (bind_raise _ _ _ _ _
                   (dict_get_missing h problem_loc entries "num_vars" g
                      Hp Hnone)). }
  intros problem Hnv Hnames pure. subst pure.
  destruct (Z.eq_dec s 0) as [Hs0|Hs0].
  { rewrite (store_analyze_zero_sets h problem_loc Y_loc problem Y entries
               HY Hp Hnv s nres conf seed g Hs0).
    rewrite Hs0, analyze_zero_sample_sets. exists []. cbn [fst snd].
    now rewrite app_nil_r. }
  destruct (Qeq_dec (inject_Z (Z.of_nat (length Y)) / inject_Z s)
                    (inject_Z (Z.of_nat (num_vars problem) + 1)))
    as [Hshape|Hshape].
  2:{ rewrite (store_analyze_mismatch h problem_loc Y_loc problem Y entries
                 HY Hp Hnv s nres conf seed g Hs0 Hshape).
      rewrite analyze_shape_mismatch by assumption. exists [].
      cbn [fst snd]. now rewrite app_nil_r. }
  change (JansenSpec.shape_precondition problem Y s) in Hshape.
  destruct (truthy seed) eqn:Hseed.
  { rewrite (store_analyze_seeded h problem_loc Y_loc problem Y entries
               HY Hp Hnv s nres conf seed g Hshape Hseed).
    rewrite analyze_seeded_raises by assumption. exists [].
    cbn [fst snd]. now rewrite app_nil_r. }
  rewrite analyze_after_shape_check, Hseed by assumption.
  destruct (store_analyze_to_bootstrap h problem_loc Y_loc problem Y entries
              HY Hp Hnv s nres conf seed g Hshape Hseed)
    as [mid [Si_loc [ST_loc [l0 [l2 [Hrun [Hst [HSi [HST [Hle Hne]]]]]]]]]].
  pose proof (store_confidence_run (h ++ mid) (length h) _
                (np_var (slice_step 0 (num_vars problem + 1) Y))
                s nres conf g Hst) as Hc.
  destruct (Jansen.compute_radial_si_confidence
              (JansenAux.st_array (num_vars problem) s Y)
              (np_var (slice_step 0 (num_vars problem + 1) Y))
              s nres conf g) as [[v|e] g1];
    destruct Hc as [extra Hc]; cbn [fst snd].
  2:{ exists (mid ++ extra).
      rewrite Hrun, (bind_raise _ _ _ _ _ Hc), app_assoc. reflexivity. }
  assert (HSi_lt : (Si_loc < length (h ++ mid))%nat)
    by (apply nth_error_Some; congruence).
  assert (Hp_lt : (problem_loc < length h)%nat)
    by (apply nth_error_Some; congruence).
  set (conf_loc := length ((h ++ mid) ++ extra)) in *.
  set (Hc_heap := ((h ++ mid) ++ extra) ++ [ONdarrayF1 v]) in *.
  assert (HSi_c : nth_error Hc_heap Si_loc
                  = Some (ODict [("names"%string, VRef l0);
                                 ("ST"%string, VRef ST_loc);
                                 ("ST_conf"%string, VRef l2)])).
  { unfold Hc_heap.
    rewrite nth_error_app1 by (rewrite length_app; lia).
    rewrite nth_error_app1 by lia. exact HSi. }
  set (dict2 := ODict [("names"%string, VRef l0);
                       ("ST"%string, VRef ST_loc);
                       ("ST_conf"%string, VRef conf_loc)]).
  exists (replace_at (Si_loc - length h)%nat dict2
            (mid ++ extra ++ [ONdarrayF1 v])).
  rewrite Hrun, (bind_ok _ _ _ _ _ Hc).
  rewrite (bind_ok _ _ _ _ _ (dict_set_at _ _ _ "ST_conf" _ g1 HSi_c)).
  change (ODict (assoc_set "ST_conf" (VRef conf_loc) _)) with dict2.
  erewrite bind_raise.
  2:{ apply (dict_get_missing _ _ entries); [|exact Hnames].
      rewrite replace_at_other by lia. unfold Hc_heap.
      rewrite <- !app_assoc. rewrite nth_error_app1 by lia.
      exact Hp. }
  unfold Hc_heap. rewrite <- !app_assoc.
  now rewrite replace_at_app_r by assumption.
Qed.

(** The outcome of the call on the store is the outcome of the
    computation on values. *)
Lemma store_outcome (h : heap) (problem_loc Y_loc : loc)
  (problem : Problem) (Y : list Q) (entries : list (string * value))
  (names_v : value) (s nres : Z) (conf : Q) (seed : option Z) (g : rng) :
  nth_error h Y_loc = Some (ONdarray1 Y) ->
  nth_error h problem_loc = Some (ODict entries) ->
  assoc "num_vars" entries = Some (VNat (num_vars problem)) ->
  assoc "names" entries = Some names_v ->
  exists extra,
    snd (analyze problem_loc Y_loc s nres conf seed (h, g))
    = (h ++ extra, snd (Jansen.analyze problem Y s nres conf seed g))
    /\ match fst (Jansen.analyze problem Y s nres conf seed g) with
       | Ok _ => exists Si_loc,
                   fst (analyze problem_loc Y_loc s nres conf seed (h, g))
                   = Ok Si_loc
       | Raise e => fst (analyze problem_loc Y_loc s nres conf seed (h, g))
                    = Raise e
       end.
Proof.
  intros HY Hp Hnv Hnames.
  pose proof (store_analyze_refines h problem_loc Y_loc problem Y entries
                names_v HY Hp Hnv Hnames s nres conf seed g) as Href.
  destruct (Jansen.analyze problem Y s nres conf seed g) as [[Si|e] g1].
  - destruct Href as [extra [Si_loc [_ [_ [E _]]]]].
    exists extra. rewrite E. cbn [fst snd]. split; [reflexivity|].
    now exists Si_loc.
  - destruct Href as [extra E]. exists extra. rewrite E. cbn [fst snd].
    split; reflexivity.
Qed.

(** X1.  For a problem that holds ['num_vars'] and ['names'], the
    statements of [analyze] that can raise run in a fixed order, and the
    first one that fails decides the exception: the division by
    [sample_sets], the shape assertion, the seeding, the confidence level,
    the size of the resample.  A call that passes them all returns; no such
    call ends in an index, key or type error. *)
Theorem analyze_outcome {RSL : RandomStateLaws RS}
  (h : heap) (problem_loc Y_loc : loc)
  (problem : Problem) (Y : list Q) (entries : list (string * value))
  (names_v : value) (s nres : Z) (conf : Q) (seed : option Z) (g : rng) :
  nth_error h Y_loc = Some (ONdarray1 Y) ->
  nth_error h problem_loc = Some (ODict entries) ->
  assoc "num_vars" entries = Some (VNat (num_vars problem)) ->
  assoc "names" entries = Some names_v ->
  let out := fst (analyze problem_loc Y_loc s nres conf seed (h, g)) in
  (s = 0%Z -> out = Raise ZeroDivisionError)
  /\ (s <> 0%Z -> ~ JansenSpec.shape_precondition problem Y s ->
      out = Raise AssertionError)
  /\ (JansenSpec.shape_precondition problem Y s -> truthy seed = true ->
      out = Raise AttributeError)
  /\ (JansenSpec.shape_precondition problem Y s -> truthy seed = false ->
      ~ (0 < conf /\ conf < 1) \/ (nres < 0)%Z ->
      out = Raise ValueError)
  /\ (JansenSpec.shape_precondition problem Y s -> truthy seed = false ->
      0 < conf /\ conf < 1 -> (0 <= nres)%Z ->
      exists Si_loc, out = Ok Si_loc)
  /\ out <> Raise IndexError /\ out <> Raise KeyError
  /\ out <> Raise TypeError.
Proof.
  intros HY Hp Hnv Hnames out. subst out.
  destruct (store_outcome h problem_loc Y_loc problem Y entries names_v
              s nres conf seed g HY Hp Hnv Hnames) as [extra [_ Hout]].
  destruct (analyze_outcome_values problem Y s nres conf seed g)
    as [C1 [C2 [C3 [C4 [C5 [N1 [N2 N3]]]]]]].
  set (pure := fst (Jansen.analyze problem Y s nres conf seed g)) in *.
  set (run := fst (analyze problem_loc Y_loc s nres conf seed (h, g))) in *.
  assert (Hraise : forall e, pure = Raise e -> run = Raise e).
  { intros e E. now rewrite E in Hout. }
  assert (Hback : forall e, run = Raise e -> pure = Raise e).
  { intros e E. destruct pure as [Si|e'].
    - destruct Hout as [l Hl]. congruence.
    - congruence. }
  split; [intros H; apply Hraise; now apply C1|].
  split; [intros H1 H2; apply Hraise; now apply C2|].
  split; [intros H1 H2; apply Hraise; now apply C3|].
  split; [intros H1 H2 H3; apply Hraise; now apply C4|].
  split.
  { intros H1 H2 H3 H4. destruct (C5 H1 H2 H3 H4) as [Si E].
    rewrite E in Hout. exact Hout. }
  repeat split; intros E; apply Hback in E; auto.
Qed.

(** X2.  For a problem that holds ['num_vars'] and ['names'], a call
    that raises has drawn nothing: the global generator is in the state in
    which the call found it.  (Without ['names'] the call raises after the
    draws.) *)
Theorem analyze_raise_keeps_generator {RSL : RandomStateLaws RS}
  (h h' : heap) (problem_loc Y_loc : loc)
  (problem : Problem) (Y : list Q) (entries : list (string * value))
  (names_v : value) (s nres : Z) (conf : Q) (seed : option Z)
  (g g' : rng) (e : exn) :
  nth_error h Y_loc = Some (ONdarray1 Y) ->
  nth_error h problem_loc = Some (ODict entries) ->
  assoc "num_vars" entries = Some (VNat (num_vars problem)) ->
  assoc "names" entries = Some names_v ->
  analyze problem_loc Y_loc s nres conf seed (h, g) = (Raise e, (h', g')) ->
  g' = g.
Proof.
  intros HY Hp Hnv Hnames Hrun.
  destruct (store_outcome h problem_loc Y_loc problem Y entries names_v
              s nres conf seed g HY Hp Hnv Hnames) as [extra [Hst Hout]].
  rewrite Hrun in Hst, Hout. cbn [fst snd] in Hst, Hout.
  destruct (Jansen.analyze problem Y s nres conf seed g) as [[Si|e'] g1]
    eqn:Epure; cbn [fst snd] in *.
  - destruct Hout as [l Hl]. discriminate.
  - injection Hst as _ ->.
    exact (analyze_raise_values problem Y s nres conf seed g g1 e' Epure).
Qed.

End StoreResult.

(** ** The bootstrap called on its own *)

Section ConfidenceDirect.
Context {RS : RandomState} {SP : Special}.
Import Jansen.

Lemma randint_mat_no_columns (high : nat) (g : rng) :
  forall nrows,
    Rand.randint_mat high nrows 0 g = (repeat [] nrows, g).
Proof.
  induction nrows as [|n IH]; [reflexivity|].
  cbn [Rand.randint_mat Rand.randint_vec repeat]. now rewrite IH.
Qed.

Lemma take_no_columns (a : array2) (n : nat) :
  take a (repeat [] n) = Ok (repeat [] n).
Proof.
  unfold take.
  replace (forallb _ (repeat [] n)) with true.
  - f_equal. induction n as [|n IH]; [reflexivity|].
    cbn [repeat map]. now rewrite IH.
  - symmetry. apply forallb_forall. intros r Hr.
    apply repeat_spec in Hr. now subst r.
Qed.

Lemma confidence_zero_sets (si : array2) (base_var : float64)
  (nres : Z) (conf : Q) (g : rng) :
  0 < conf /\ conf < 1 -> (0 <= nres)%Z -> (0 < shape1 si)%nat ->
  compute_radial_si_confidence si base_var 0 nres conf g
  = (Raise ZeroDivisionError, g).
Proof.
  intros Hc Hn Hs. unfold compute_radial_si_confidence.
  rewrite (proj2 (conf_level_check conf)) by exact Hc.
  unfold Rand.bind at 1. unfold Rand.randint_size2.
  replace ((nres <? 0)%Z || (0 <? 0)%Z) with false
    by (symmetry; apply orb_false_iff; split; apply Z.ltb_ge; lia).
  cbn [T shape0 shape1].
  replace (shape1 si =? 0)%nat with false
    by (symmetry; apply Nat.eqb_neq; lia).
  change (Z.to_nat 0) with 0%nat. rewrite randint_mat_no_columns.
  unfold Rand.bind, Rand.lift. now rewrite take_no_columns.
Qed.

Lemma confidence_negative_sets (si : array2) (base_var : float64)
  (N nres : Z) (conf : Q) (g : rng) :
  0 < conf /\ conf < 1 -> (N < 0)%Z ->
  compute_radial_si_confidence si base_var N nres conf g
  = (Raise ValueError, g).
Proof.
  intros Hc HN. unfold compute_radial_si_confidence.
  rewrite (proj2 (conf_level_check conf)) by exact Hc.
  unfold Rand.bind at 1. unfold Rand.randint_size2.
  replace (N <? 0)%Z with true by (symmetry; apply Z.ltb_lt; lia).
  now rewrite orb_true_r.
Qed.

(** X18.  A direct call of the bootstrap on an array of elementary
    effects with at least one sample set.  The confidence level is checked
    before anything else; then a negative size makes the draw raise
    [ValueError], and [N = 0] makes the estimator raise
    [ZeroDivisionError]; in each case nothing has been drawn.  Every other
    call returns one value per variable, and the indices drawn never fall
    outside the array: no call raises [IndexError]. *)
Theorem confidence_direct_call {RSL : RandomStateLaws RS}
  (si : array2) (base_var : float64) (N nres : Z) (conf : Q) (g : rng) :
  (0 < shape1 si)%nat ->
  let out := compute_radial_si_confidence si base_var N nres conf g in
  (~ (0 < conf /\ conf < 1) -> out = (Raise ValueError, g))
  /\ (0 < conf /\ conf < 1 -> (nres < 0 \/ N < 0)%Z ->
      out = (Raise ValueError, g))
  /\ (0 < conf /\ conf < 1 -> (0 <= nres)%Z -> N = 0%Z ->
      out = (Raise ZeroDivisionError, g))
  /\ (0 < conf /\ conf < 1 -> (0 <= nres)%Z -> (1 <= N)%Z ->
      exists v g', out = (Ok v, g') /\ length v = shape0 si)
  /\ fst out <> Raise IndexError.
Proof.
  intros Hs out. subst out.
  assert (C1 : ~ (0 < conf /\ conf < 1) ->
               compute_radial_si_confidence si base_var N nres conf g
               = (Raise ValueError, g))
    by apply confidence_invalid_level.
  assert (C2 : 0 < conf /\ conf < 1 -> (nres < 0 \/ N < 0)%Z ->
               compute_radial_si_confidence si base_var N nres conf g
               = (Raise ValueError, g)).
  { intros Hc [Hn|HN].
    - now apply confidence_negative_resamples.
    - now apply confidence_negative_sets. }
  assert (C3 : 0 < conf /\ conf < 1 -> (0 <= nres)%Z -> N = 0%Z ->
               compute_radial_si_confidence si base_var N nres conf g
               = (Raise ZeroDivisionError, g)).
  { intros Hc Hn ->. now apply confidence_zero_sets. }
  assert (C4 : 0 < conf /\ conf < 1 -> (0 <= nres)%Z -> (1 <= N)%Z ->
               exists v g',
                 compute_radial_si_confidence si base_var N nres conf g
                 = (Ok v, g')
                 /\ length v = shape0 si).
  { intros [H0 H1] Hn HN.
    rewrite (confidence_returns si base_var N nres conf g H0 H1 Hn HN Hs).
    eexists. eexists. split; [reflexivity|]. apply conf_values_length. }
  repeat (split; [assumption|]).
  destruct (conf_level_dec conf) as [Hc|Hc];
    [|rewrite (C1 Hc); discriminate].
  destruct (Z_lt_le_dec nres 0) as [Hn|Hn];
    [rewrite (C2 Hc (or_introl Hn)); discriminate|].
  destruct (Z_lt_le_dec N 0) as [HN|HN];
    [rewrite (C2 Hc (or_intror HN)); discriminate|].
  destruct (Z.eq_dec N 0) as [HN0|HN0];
    [rewrite (C3 Hc Hn HN0); discriminate|].
  destruct (C4 Hc Hn ltac:(lia)) as [v [g' [E _]]].
  rewrite E. discriminate.
Qed.

End ConfidenceDirect.

(** ** The further properties on the scenarios *)

Section FurtherScenarios.
Import Jansen JansenSpec Radial RadialSpec Latin LatinSpec Demo.

Lemma analyze_outcome_witness :
  nth_error caller_heap 5 = Some (Store.ONdarray1 Y3)
  /\ nth_error caller_heap 4
     = Some (Store.ODict [("num_vars"%string, Store.VNat 2);
                          ("names"%string, Store.VRef 0%nat);
                          ("bounds"%string, Store.VRef 3%nat)])
  /\ shape_precondition problem2 Y3 2
  /\ truthy None = false
  /\ (0 < 95 # 100 /\ 95 # 100 < 1) /\ (0 <= 16)%Z
  /\ exists Si_loc,
       fst (Store.analyze (RS := demo_rng) (SP := demo_special)
              4%nat 5%nat 2 16 (95 # 100) None (caller_heap, 7%Z))
       = Ok Si_loc.
Proof.
  split; [reflexivity|]. split; [reflexivity|].
  split; [exact scenario_shape|]. split; [reflexivity|].
  split; [split; reflexivity|]. split; [discriminate|].
  destruct (analyze_outcome (RS := demo_rng) (SP := demo_special)
              (RSL := demo_rng_laws) caller_heap 4%nat 5%nat problem2 Y3
              [("num_vars"%string, Store.VNat 2);
               ("names"%string, Store.VRef 0%nat);
               ("bounds"%string, Store.VRef 3%nat)]
              (Store.VRef 0%nat) 2 16 (95 # 100) None 7%Z
              eq_refl eq_refl eq_refl eq_refl)
    as [_ [_ [_ [_ [H _]]]]].
  apply H.
  - exact scenario_shape.
  - reflexivity.
  - split; reflexivity.
  - discriminate.
Defined.

Lemma analyze_raise_keeps_generator_witness :
  nth_error caller_heap 5 = Some (Store.ONdarray1 Y3)
  /\ nth_error caller_heap 4
     = Some (Store.ODict [("num_vars"%string, Store.VNat 2);
                          ("names"%string, Store.VRef 0%nat);
                          ("bounds"%string, Store.VRef 3%nat)])
  /\ exists h' g',
       Store.analyze (RS := demo_rng) (SP := demo_special)
         4%nat 5%nat 2 16 (3 # 2) None (caller_heap, 7%Z)
       = (Raise ValueError, (h', g'))
       /\ g' = 7%Z.
Proof.
  split; [reflexivity|]. split; [reflexivity|].
  eexists. eexists. split; [vm_compute; reflexivity|].
  eapply (analyze_raise_keeps_generator (RS := demo_rng)
            (SP := demo_special) (RSL := demo_rng_laws)
            caller_heap _ 4%nat 5%nat problem2 Y3
            [("num_vars"%string, Store.VNat 2);
             ("names"%string, Store.VRef 0%nat);
             ("bounds"%string, Store.VRef 3%nat)]
            (Store.VRef 0%nat) 2 16 (3 # 2) None 7%Z 7%Z ValueError
            eq_refl eq_refl eq_refl eq_refl).
  vm_compute. reflexivity.
Defined.

Lemma analyze_indices_ignore_bootstrap_witness :
  exists Si Si' g1 g1',
    analyze (RS := demo_rng) (SP := demo_special)
      problem2 Y3 2 16 (95 # 100) None 7%Z = (Ok Si, g1)
    /\ analyze (RS := demo_rng) (SP := demo_special)
         problem2 Y3 2 4 (1 # 2) (Some 0%Z) 11%Z = (Ok Si', g1')
    /\ Si_ST Si = Si_ST Si' /\ Si_names Si = Si_names Si'.
Proof.
  eexists. eexists. eexists. eexists.
  split; [vm_compute; reflexivity|]. split; [vm_compute; reflexivity|].
  eapply (analyze_indices_ignore_bootstrap (RS := demo_rng)
            (SP := demo_special)
            problem2 Y3 2 16 4 (95 # 100) (1 # 2) None (Some 0%Z)
            7%Z 11%Z);
    vm_compute; reflexivity.
Defined.

Lemma analyze_result_lengths_witness :
  exists Si g',
    analyze (RS := demo_rng) (SP := demo_special)
      problem2 Y3 2 16 (95 # 100) None 7%Z = (Ok Si, g')
    /\ length (Si_ST Si) = num_vars problem2
    /\ length (Si_ST_conf Si) = num_vars problem2
    /\ Si_names Si = names problem2.
Proof.
  eexists. eexists. split; [vm_compute; reflexivity|].
  eapply (analyze_result_lengths (RS := demo_rng) (SP := demo_special)
            (RSL := demo_rng_laws) problem2 Y3 2 16 (95 # 100) None 7%Z).
  vm_compute. reflexivity.
Defined.

Lemma analyze_draws_witness :
  exists Si g',
    analyze (RS := demo_rng) (SP := demo_special)
      problem2 Y3 2 16 (95 # 100) None 7%Z = (Ok Si, g')
    /\ g' = snd (Rand.randint_vec (RS := demo_rng) 2 32 7%Z)
    /\ length (fst (Rand.randint_vec (RS := demo_rng) 2 32 7%Z)) = 32%nat
    /\ Forall (fun x => (x < 2)%nat)
              (fst (Rand.randint_vec (RS := demo_rng) 2 32 7%Z)).
Proof.
  eexists. eexists. split; [vm_compute; reflexivity|].
  destruct (analyze_draws (RS := demo_rng) (SP := demo_special)
              (RSL := demo_rng_laws) problem2 Y3 2 16 (95 # 100) None
              7%Z (snd (Rand.randint_vec (RS := demo_rng) 2 32 7%Z))
              {| Si_names := names problem2;
                 Si_ST := JansenAux.ST_values 2 2 Y3;
                 Si_ST_conf :=
                   JansenAux.conf_values (SP := demo_special)
                     (JansenAux.st_array 2 2 Y3)
                     (np_var (slice_step 0 3 Y3)) 2 (95 # 100)
                     (fst (Rand.randint_mat (RS := demo_rng) 2 16 2 7%Z)) |})
    as [H1 [H2 [H3 _]]].
  - vm_compute. reflexivity.
  - split; [exact H1|]. split; [exact H2 | exact H3].
Defined.

Lemma analyze_single_set_nonfinite_witness :
  length [10; 12; 9] = (num_vars problem2 + 1)%nat
  /\ exists Si g',
       analyze (RS := demo_rng) (SP := demo_special)
         problem2 [10; 12; 9] 1 16 (95 # 100) None 7%Z = (Ok Si, g')
       /\ length (Si_ST Si) = num_vars problem2
       /\ length (Si_ST_conf Si) = num_vars problem2
       /\ Forall (fun x => x = NonFin) (Si_ST Si)
       /\ Forall (fun x => x = NonFin) (Si_ST_conf Si).
Proof.
  split; [reflexivity|].
  apply (analyze_single_set_nonfinite (RS := demo_rng)
           (SP := demo_special) (RSL := demo_rng_laws)
           problem2 [10; 12; 9] 16 (95 # 100) None 7%Z).
  - reflexivity.
  - reflexivity.
  - reflexivity.
  - reflexivity.
  - discriminate.
Defined.

Lemma analyze_affine_invariant_witness :
  ~ 3 == 0
  /\ exists Si Si' g1 g1',
       analyze (RS := demo_rng) (SP := demo_special)
         problem2 Y3 2 16 (95 # 100) None 7%Z = (Ok Si, g1)
       /\ analyze (RS := demo_rng) (SP := demo_special)
            problem2 (map (fun y => 3 * y + 5) Y3) 2 16 (95 # 100) None 7%Z
          = (Ok Si', g1')
       /\ Forall2 feq (Si_ST Si') (Si_ST Si).
Proof.
  split; [discriminate|].
  eexists. eexists. eexists. eexists.
  split; [vm_compute; reflexivity|]. split; [vm_compute; reflexivity|].
  eapply (analyze_affine_invariant (RS := demo_rng) (SP := demo_special)
            problem2 Y3 3 5 2 16 16 (95 # 100) (95 # 100) None None
            7%Z 7%Z).
  - discriminate.
  - vm_compute. reflexivity.
  - vm_compute. reflexivity.
Defined.


Lemma radial_sample_generator_witness :
  (5 <> 0)%Z /\ (0 <= 5 < 2 ^ 32)%Z
  /\ Radial.sample (RS := demo_rng) (SS := demo_sobol) problem2 2
       (Some 5%Z) 7%Z
     = (Ok (design problem2 2), 5%Z).
Proof.
  split; [discriminate|]. split; [split; [discriminate|reflexivity]|].
  destruct (radial_sample_generator (RS := demo_rng) (SS := demo_sobol)
              problem2 2 (Some 5%Z) 7%Z) as [_ [H _]].
  apply (H 5%Z).
  - reflexivity.
  - discriminate.
  - split; [discriminate|reflexivity].
Defined.

Lemma radial_sample_feeds_analyze_witness :
  length (bounds problem2) = num_vars problem2
  /\ (1 <= 2)%nat
  /\ Radial.sample (RS := demo_rng) (SS := demo_sobol) problem2 2 None 7%Z
     = (Ok (design problem2 2), 7%Z)
  /\ shape_precondition problem2
       (map (fun x => nth 0 x 0 + 2 * nth 1 x 0) (design problem2 2))
       (Z.of_nat 2)
  /\ exists Si g3,
       analyze (RS := demo_rng) (SP := demo_special) problem2
         (map (fun x => nth 0 x 0 + 2 * nth 1 x 0) (design problem2 2))
         (Z.of_nat 2) 16 (95 # 100) None 7%Z
       = (Ok Si, g3)
       /\ length (Si_ST Si) = num_vars problem2.
Proof.
  split; [reflexivity|]. split; [repeat constructor|].
  split; [reflexivity|].
  destruct (radial_sample_feeds_analyze (RS := demo_rng)
              (SP := demo_special) (SS := demo_sobol)
              (RSL := demo_rng_laws) (SSL := demo_sobol_laws)
              problem2 2 (fun x => nth 0 x 0 + 2 * nth 1 x 0)
              None None 16 (95 # 100) 7%Z 7%Z 7%Z (design problem2 2))
    as [_ H].
  - reflexivity.
  - reflexivity.
  - destruct (H ltac:(repeat constructor)) as [Hsh Hret].
    split; [exact Hsh|]. apply Hret.
    + reflexivity.
    + reflexivity.
    + reflexivity.
    + discriminate.
Defined.


Lemma seeded_sample_fixes_bootstrap_witness :
  (5 <> 0)%Z
  /\ analyze (RS := demo_rng) (SP := demo_special) problem2
       (map (fun x => nth 0 x 0 + 2 * nth 1 x 0) (design problem2 2))
       (Z.of_nat 2) 16 (95 # 100) None 5%Z
     = analyze (RS := demo_rng) (SP := demo_special) problem2
         (map (fun x => nth 0 x 0 + 2 * nth 1 x 0) (design problem2 2))
         (Z.of_nat 2) 16 (95 # 100) None 5%Z.
Proof.
  split; [discriminate|].
  apply (seeded_sample_fixes_bootstrap (RS := demo_rng)
           (SP := demo_special) (SS := demo_sobol)
           problem2 2 (fun x => nth 0 x 0 + 2 * nth 1 x 0) 5 16 (95 # 100)
           7%Z 11%Z 5%Z 5%Z (design problem2 2) (design problem2 2)).
  - discriminate.
  - reflexivity.
  - reflexivity.
Defined.

Lemma latin_unit_interval_witness :
  (1 < 3)%nat /\ (0 < 2)%nat
  /\ 0 <= nth 0 (nth 1 (fst (unit_hypercube (RS := demo_rng) 3 2 7%Z)) []) 0
  /\ nth 0 (nth 1 (fst (unit_hypercube (RS := demo_rng) 3 2 7%Z)) []) 0 <= 1.
Proof.
  split; [repeat constructor|]. split; [repeat constructor|].
  apply (latin_unit_interval (RS := demo_rng) (RSL := demo_rng_laws)
           3 2 7%Z 1 0); repeat constructor.
Defined.

Lemma edge_rng_laws : RandomStateLaws edge_rng.
Proof.
  constructor.
  - intros high g Hh. exact Hh.
  - intros low high g Hle. cbn [uniform edge_rng fst].
    destruct (Z.even g); lra.
  - intros l g. apply Permutation_refl.
Qed.

(** With numpy's rounding, four strata are enough for a repeated value:
    the draw at the top of [[1/4, 1/2]] and the draw at the bottom of
    [[1/2, 3/4]] are both one half. *)
Example latin_repeated_value_scenario :
  let U := fst (unit_hypercube (RS := scripted_rng) 4 1
                  [0; below_one; 0; 0]) in
  nth 0 (nth 1 U []) 0 == 1 # 2 /\ nth 0 (nth 2 U []) 0 == 1 # 2.
Proof. vm_compute. split; reflexivity. Qed.

Lemma latin_repeated_value_is_shared_end_witness :
  (0 < 2)%nat /\ (1 < 2)%nat /\ 0%nat <> 1%nat /\ (0 < 1)%nat
  /\ nth 0 (nth 0 (fst (unit_hypercube (RS := edge_rng) 2 1 0%Z)) []) 0
     == nth 0 (nth 1 (fst (unit_hypercube (RS := edge_rng) 2 1 0%Z)) []) 0
  /\ exists j j', (j < j')%nat /\ (j' < 2)%nat
       /\ nth 0 (nth 0 (fst (unit_hypercube (RS := edge_rng) 2 1 0%Z)) []) 0
          == stratum_end 2 (j + 1)
       /\ stratum_end 2 (j + 1) == stratum_end 2 j'.
Proof.
  split; [repeat constructor|]. split; [repeat constructor|].
  split; [discriminate|]. split; [repeat constructor|].
  split; [vm_compute; reflexivity|].
  apply (latin_repeated_value_is_shared_end (RS := edge_rng)
           (RSL := edge_rng_laws) 2 1 0%Z 0 1 0).
  - repeat constructor.
  - repeat constructor.
  - discriminate.
  - repeat constructor.
  - vm_compute. reflexivity.
Defined.

Lemma store_analyze_agrees_witness :
  nth_error caller_heap 5 = Some (Store.ONdarray1 Y3)
  /\ exists extra,
       snd (Store.analyze (RS := demo_rng) (SP := demo_special)
              4%nat 5%nat 2 16 (95 # 100) None (caller_heap, 7%Z))
       = (caller_heap ++ extra,
          snd (analyze (RS := demo_rng) (SP := demo_special)
                 problem2 Y3 2 16 (95 # 100) None 7%Z))
       /\ match fst (analyze (RS := demo_rng) (SP := demo_special)
                       problem2 Y3 2 16 (95 # 100) None 7%Z),
                fst (Store.analyze (RS := demo_rng) (SP := demo_special)
                       4%nat 5%nat 2 16 (95 # 100) None (caller_heap, 7%Z))
          with
          | Ok Si, Ok Si_loc =>
              Store.fresh caller_heap Si_loc
              /\ exists ST_loc conf_loc,
                   nth_error (caller_heap ++ extra) Si_loc
                   = Some (Store.ODict
                             [("names"%string, Store.VRef 0%nat);
                              ("ST"%string, Store.VRef ST_loc);
                              ("ST_conf"%string, Store.VRef conf_loc)])
                   /\ nth_error (caller_heap ++ extra) ST_loc
                      = Some (Store.ONdarrayF1 (Si_ST Si))
                   /\ nth_error (caller_heap ++ extra) conf_loc
                      = Some (Store.ONdarrayF1 (Si_ST_conf Si))
          | Raise e, Raise e' => e = e'
          | _, _ => False
          end.
Proof.
  split; [reflexivity|].
  apply (store_analyze_agrees (RS := demo_rng) (SP := demo_special)
           caller_heap 4%nat 5%nat problem2 Y3
           [("num_vars"%string, Store.VNat 2);
            ("names"%string, Store.VRef 0%nat);
            ("bounds"%string, Store.VRef 3%nat)]
           (Store.VRef 0%nat) 2 16 (95 # 100) None 7%Z);
    reflexivity.
Defined.

Lemma store_analyze_missing_keys_witness :
  exists extra,
    Store.analyze (RS := demo_rng) (SP := demo_special)
      0%nat 1%nat 2 16 (95 # 100) None
      ([Store.ODict [("num_vars"%string, Store.VNat 2)];
        Store.ONdarray1 Y3], 7%Z)
    = (Raise KeyError,
       ([Store.ODict [("num_vars"%string, Store.VNat 2)];
         Store.ONdarray1 Y3] ++ extra,
        snd (Rand.randint_vec (RS := demo_rng) 2 32 7%Z))).
Proof.
  destruct (store_analyze_missing_keys (RS := demo_rng)
              (SP := demo_special)
              [Store.ODict [("num_vars"%string, Store.VNat 2)];
               Store.ONdarray1 Y3]
              0%nat 1%nat Y3 [("num_vars"%string, Store.VNat 2)]
              2 16 (95 # 100) None 7%Z eq_refl eq_refl) as [_ H].
  destruct (H problem2 eq_refl eq_refl) as [extra E].
  exists extra. etransitivity; [exact E|]. vm_compute. reflexivity.
Defined.

Lemma confidence_direct_call_witness :
  (0 < shape1 (JansenAux.st_array 2 2 Y3))%nat
  /\ (0 < 95 # 100 /\ 95 # 100 < 1) /\ (0 <= 16)%Z
  /\ compute_radial_si_confidence (RS := demo_rng) (SP := demo_special)
       (JansenAux.st_array 2 2 Y3) (Fin 25) 0 16 (95 # 100) 7%Z
     = (Raise ZeroDivisionError, 7%Z).
Proof.
  split; [repeat constructor|]. split; [split; reflexivity|].
  split; [discriminate|].
  destruct (confidence_direct_call (RS := demo_rng) (SP := demo_special)
              (RSL := demo_rng_laws)
              (JansenAux.st_array 2 2 Y3) (Fin 25) 0 16 (95 # 100) 7%Z)
    as [_ [_ [H _]]].
  - repeat constructor.
  - apply H.
    + split; reflexivity.
    + discriminate.
    + reflexivity.
Defined.

End FurtherScenarios.
